(** * CIL optimisation core: Sampler, ISTA / FISTA and SPDHG

    A shallow embedding of
      - [cil/framework/sampler.py]            (class [Sampler]),
      - [cil/optimisation/algorithms/FISTA.py] (classes [ISTA], [FISTA]),
      - [cil/optimisation/algorithms/SPDHG.py] (class [SPDHG]),
    and the properties of these classes that the specification states.

    Python integers are [Z]; Python floats are an abstract scalar type with
    the operations the code uses (class [Scalar]); mutable objects that are
    shared by reference (random generators, data containers) live in a store
    indexed by locations; methods are computations in a state-and-exception
    monad in which the store survives a raised exception. *)

From Stdlib Require Import ZArith QArith Lia Znumtheory String Ascii
  DecimalString.
From stdpp Require Import base tactics option list gmap.

Local Open Scope Z_scope.

(** ** Python runtime *)

Module Py.

Inductive exn_kind : Type :=
| ValueError | TypeError | IndexError | ZeroDivisionError
| AttributeError | NameError.

(** An exception: its class and the message it was raised with. *)
Record exn : Type := Exn { kind : exn_kind; message : string }.

(** An exception raised by the runtime or by a library, whose message the
    code does not choose. *)
Definition builtin (k : exn_kind) : exn := Exn k "".
Coercion builtin : exn_kind >-> exn.

Inductive result (A : Type) : Type :=
| Ok (a : A)
| Raise (e : exn).
Arguments Ok {A} a.
Arguments Raise {A} e.

(** A method: reads and writes the state [St]; the state is still there
    when the method raises. *)
Definition M (St A : Type) : Type := St -> result A * St.

Definition ret {St A} (a : A) : M St A := fun st => (Ok a, st).
Definition raise {St A} (e : exn) : M St A := fun st => (Raise e, st).
Definition bind {St A B} (m : M St A) (k : A -> M St B) : M St B :=
  fun st => match m st with
            | (Ok a, st') => k a st'
            | (Raise e, st') => (Raise e, st')
            end.
Definition get {St} : M St St := fun st => (Ok st, st).
Definition put {St} (st : St) : M St unit := fun _ => (Ok tt, st).
Definition modify {St} (f : St -> St) : M St unit := fun st => (Ok tt, f st).
Definition lift {St A} (r : result A) : M St A := fun st => (r, st).

(** [a % b] on ints: the sign follows the divisor, as for [Z.modulo]. *)
Definition mod_ (a b : Z) : result Z :=
  if b =? 0 then Raise ZeroDivisionError else Ok (a mod b).

(** [len(l)] *)
Definition len {A} (l : list A) : Z := Z.of_nat (length l).

(** [l[i]] on a list, tuple or array: a negative index counts from the
    end, anything outside [-len(l), len(l)) raises IndexError. *)
Definition getitem {A} (l : list A) (i : Z) : result A :=
  let j := if i <? 0 then len l + i else i in
  if j <? 0 then Raise IndexError
  else match l !! Z.to_nat j with
       | Some a => Ok a
       | None => Raise IndexError
       end.

(** [range(n)] *)
Definition range (n : Z) : list Z := map Z.of_nat (seq 0 (Z.to_nat n)).

(** [template.format(arg)] for a template with one replacement field
    [{}]: the field is replaced by [arg], which is [str] of the argument. *)
Fixpoint format (template arg : string) : string :=
  match template with
  | String "{"%char (String "}"%char rest) => String.append arg rest
  | String c rest => String c (format rest arg)
  | EmptyString => EmptyString
  end.

(** [str(n)] of an int *)
Definition str_int (n : Z) : string := NilZero.string_of_int (Z.to_int n).

(** Keyword arguments: each name with the [repr] of the value passed for
    it, in the order they were passed. *)
Definition kwargs : Type := list (string * string).

(** [str(d)] of a dict of keyword arguments: [{'name': value, ...}] *)
Definition str_dict (d : kwargs) : string :=
  String.append "{"
    (String.append
       (String.concat ", "
          (map (fun '(k, v) =>
                  String.append "'" (String.append k (String.append "': " v)))
               d))
       "}").

(** [math.prod(l)] *)
Definition prod (l : list Z) : Z := fold_left Z.mul l 1.

(** [l[i::step]] for [0 <= i] and [0 < step]; [fuel] bounds the number of
    strides and [length l] is always enough. *)
Fixpoint stride_from {A} (fuel : nat) (l : list A) (step : nat) : list A :=
  match fuel, l with
  | S fuel', a :: _ => a :: stride_from fuel' (drop step l) step
  | _, _ => []
  end.
Definition slice_step {A} (l : list A) (i step : Z) : list A :=
  stride_from (length l) (drop (Z.to_nat i) l) (Z.to_nat step).

(** [[x] * n] *)
Definition repeat_list {A} (x : A) (n : Z) : list A := replicate (Z.to_nat n) x.

(** [[f(a) for a in l]], where [f] may raise *)
Fixpoint map_result {A B} (f : A -> result B) (l : list A) : result (list B) :=
  match l with
  | [] => Ok []
  | a :: l' =>
      match f a with
      | Raise e => Raise e
      | Ok b => match map_result f l' with
                | Raise e => Raise e
                | Ok bs => Ok (b :: bs)
                end
      end
  end.

(** [for a in l: body], where the body may [return] a value out of the
    enclosing function ([Some v]) or fall through ([None]); [None] at the
    end of the loop. *)
Fixpoint for_return {St A R} (l : list A) (body : A -> M St (option R))
  : M St (option R) :=
  match l with
  | [] => ret None
  | a :: l' =>
      bind (body a) (fun r =>
        match r with
        | Some v => ret (Some v)
        | None => for_return l' body
        end)
  end.

(** [for a in l: body] *)
Fixpoint for_each {St A} (l : list A) (body : A -> M St unit) : M St unit :=
  match l with
  | [] => ret tt
  | a :: l' => bind (body a) (fun _ => for_each l' body)
  end.

(** [[m(a) for a in l]] *)
Fixpoint map_M {St A B} (f : A -> M St B) (l : list A) : M St (list B) :=
  match l with
  | [] => ret []
  | a :: l' => bind (f a) (fun b => bind (map_M f l') (fun bs => ret (b :: bs)))
  end.

(** [enumerate(l)] *)
Definition enumerate {A} (l : list A) : list (Z * A) :=
  zip (range (len l)) l.

End Py.

Notation "'let*' x ':=' m 'in' k" := (Py.bind m (fun x => k))
  (at level 10, x pattern, m at level 100, k at level 200, only parsing).
Notation "m ';;' k" := (Py.bind m (fun _ => k))
  (at level 100, k at level 200, right associativity, only parsing).

Import Py.

(** ** [Sampler.hermanMeyer]: the order, as a pure function *)

Module HermanMeyer.

(** The trial-division loop
<<
    while i * i <= n_variable:
        if n_variable % i: i += 1
        else: n_variable //= i; factors.append(i)
>>
    [None] when [fuel] iterations were not enough. *)
Fixpoint factor_loop (fuel : nat) (i n_variable : Z) (factors : list Z)
  : option (Z * list Z) :=
  match fuel with
  | O => None
  | S fuel' =>
      if i * i <=? n_variable then
        if negb (n_variable mod i =? 0)
        then factor_loop fuel' (i + 1) n_variable factors
        else factor_loop fuel' i (n_variable / i) (factors ++ [i])
      else Some (n_variable, factors)
  end.

(** The loop started at [i = 2]; [factor_loop_terminates] shows that the
    fuel given here is always enough, so the default is never used. *)
Definition factor_fuel (n : Z) : nat := S (Z.to_nat n).
Definition factorise (n : Z) : list Z :=
  let '(n_variable, factors) :=
    default (n, []) (factor_loop (factor_fuel n) 2 n []) in
  if 1 <? n_variable then factors ++ [n_variable] else factors.

(** Body of [for element in range(n)], on the loop-carried variables
    [(value, n_rep_value, order)]. *)
Definition element_step (factor n_change_value weight : Z)
    (st : Z * Z * list Z) (element : Z) : Z * Z * list Z :=
  let '(value, n_rep_value, order) := st in
  let mapping := value in
  let n_rep_value := n_rep_value + 1 in
  let '(value, n_rep_value) :=
    if n_change_value <=? n_rep_value then (value + 1, 0)
    else (value, n_rep_value) in
  let value := if value =? factor then 0 else value in
  (value, n_rep_value,
   alter (fun o => o + weight * mapping) (Z.to_nat element) order).

(** Body of [for factor_n in range(n_factors)], on [(value, order)]:
    [value] is not reset between factors. *)
Definition factor_step (n : Z) (factors : list Z)
    (st : Z * list Z) (factor_n : nat) : Z * list Z :=
  let '(value, order) := st in
  let n_rep_value := 0 in
  let n_change_value :=
    if (factor_n =? 0)%nat then 1 else prod (take factor_n factors) in
  let '(value, _, order) :=
    fold_left
      (element_step (factors !!! factor_n) n_change_value
                    (prod (drop (S factor_n) factors)))
      (range n) (value, n_rep_value, order) in
  (value, order).

Definition _herman_meyer_order (n : Z) : result (list Z) :=
  let factors := factorise n in
  let n_factors := length factors in
  if (n_factors =? 0)%nat then
    Raise (Exn ValueError
      "Herman Meyer sampling defaults to sequential ordering if the number of subsets is prime. Please use an alternative sampling method or change the number of subsets. ")
  else
    let order := map (fun _ => 0) (range n) in
    Ok (snd (fold_left (factor_step n factors) (seq 0 n_factors) (0, order))).

End HermanMeyer.

(** ** Scalars

    The numbers the algorithms compute with ([float], [numpy.float64]).
    Only the operations are fixed, not the arithmetic: every statement below
    holds for any scalar type that has them. *)

Class Scalar (F : Type) : Type := {
  lit : Q -> F;               (* a literal, [float(n)], or [a / b] on ints *)
  fneg : F -> F;
  fadd : F -> F -> F;
  fsub : F -> F -> F;
  fmul : F -> F -> F;
  fdiv : F -> F -> F;
  fsq : F -> F;               (* [x ** 2] *)
  fsqrt : F -> F;             (* [numpy.sqrt(x)] *)
  flt : F -> F -> bool;       (* [a < b] *)
  fle : F -> F -> bool;       (* [a <= b] *)
  fis_zero : F -> bool;       (* [b == 0], the test behind ZeroDivisionError *)
  fstr : F -> string;         (* [str(x)] *)
  fstr_array : list F -> string  (* [str(a)], [a] an array with these entries *)
}.

(** What the proofs use of the arithmetic; both hold of IEEE floats. *)
Class ScalarLaws (F : Type) `{Scalar F} : Prop := {
  fmul_comm : forall a b : F, fmul a b = fmul b a;
  one_not_zero : fis_zero (lit 1%Q) = false
}.

Section ScalarOps.
Context {F : Type} `{Scalar F}.

(** [a / b] on floats *)
Definition truediv (a b : F) : result F :=
  if fis_zero b then Raise ZeroDivisionError else Ok (fdiv a b).

(** [a / b] on ints *)
Definition int_truediv (a b : Z) : result F :=
  if b =? 0 then Raise ZeroDivisionError
  else Ok (lit (inject_Z a / inject_Z b)%Q).

(** [min(l)]: the first least element; ValueError on an empty list. *)
Definition min_ (l : list F) : result F :=
  match l with
  | [] => Raise ValueError
  | v :: vs => Ok (fold_left (fun m x => if flt x m then x else m) vs v)
  end.
End ScalarOps.

(** Exact rational arithmetic is one such scalar type. *)
Module QScalar.
Definition is_zero (q : Q) : bool := (Qnum q =? 0)%Z.
Definition ltb (a b : Q) : bool := negb (Qle_bool b a).
(** Integer square root of numerator and denominator: some rational near
    the root; no property of it is used. *)
Definition sqrt (q : Q) : Q :=
  Qmake (Z.sqrt (Qnum q * 10000 * 10000)) (Pos.sqrt (Qden q * 10000 * 10000)).

(** A rational prints as [n/d] in lowest terms, an integer as [n]; an
    array as the list of its entries. *)
Definition to_string (q : Q) : string :=
  let r := Qred q in
  if (Qden r =? 1)%positive then str_int (Qnum r)
  else String.append (str_int (Qnum r))
         (String.append "/" (str_int (Z.pos (Qden r)))).
Definition array_to_string (w : list Q) : string :=
  String.append "[" (String.append (String.concat ", " (map to_string w)) "]").

#[global] Instance Q_scalar : Scalar Q := {|
  lit := fun q => q;
  fneg := Qopp; fadd := Qplus; fsub := Qminus; fmul := Qmult;
  fdiv := Qdiv; fsq := fun q => Qmult q q; fsqrt := sqrt;
  flt := ltb; fle := Qle_bool; fis_zero := is_zero;
  fstr := to_string; fstr_array := array_to_string
|}.
End QScalar.

(** ** Objects shared by reference

    A location names an object; a store maps the locations of the live
    objects to their current contents. *)

Abbreviation loc := positive.

Section Store.
Context {V : Type}.

(** A new object: a location no live object has. *)
Definition alloc (v : V) : M (gmap loc V) loc :=
  fun h => let l := fresh (dom h) in (Ok l, <[l := v]> h).

(** Read the object at [l]; the error is the model's only, a reference
    held by a Python object is never dangling. *)
Definition load (l : loc) : M (gmap loc V) V :=
  fun h => match h !! l with
           | Some v => (Ok v, h)
           | None => (Raise AttributeError, h)
           end.

(** Overwrite the contents of the object at [l], in place. *)
Definition store (l : loc) (v : V) : M (gmap loc V) unit :=
  fun h => match h !! l with
           | Some _ => (Ok tt, <[l := v]> h)
           | None => (Raise AttributeError, h)
           end.

(** A method of an object whose attributes are [St], over a store: an
    operation on the store alone, a read of [self], an assignment to
    attributes of [self]. *)
Definition on_store {St A} (m : M (gmap loc V) A) : M (gmap loc V * St) A :=
  fun st => let '(r, h) := m (fst st) in (r, (h, snd st)).
Definition get_self {St} : M (gmap loc V * St) St :=
  fun st => (Ok (snd st), st).
Definition set_self {St} (f : St -> St) : M (gmap loc V * St) unit :=
  fun st => (Ok tt, (fst st, f (snd st))).

(** The object at [l0] keeps its contents [v0] through [m], and the result
    of [m], when it returns one, satisfies [Q]. *)
Definition keeps {A} (l0 : loc) (v0 : V) (m : M (gmap loc V) A) (Q : A -> Prop)
  : Prop :=
  forall h, h !! l0 = Some v0 ->
    snd (m h) !! l0 = Some v0 /\ forall a, fst (m h) = Ok a -> Q a.

(** The same for a method of an object whose attributes satisfy [Inv]
    before and after. *)
Definition keeps_self {St A} (l0 : loc) (v0 : V) (Inv : St -> Prop)
    (m : M (gmap loc V * St) A) (Q : A -> Prop) : Prop :=
  forall h s, h !! l0 = Some v0 -> Inv s ->
    fst (snd (m (h, s))) !! l0 = Some v0 /\ Inv (snd (snd (m (h, s)))) /\
    forall a, fst (m (h, s)) = Ok a -> Q a.

(** No live object is lost through [m]: whatever it returns or raises, the
    objects that were live still are. *)
Definition grows {A} (m : M (gmap loc V) A) : Prop :=
  forall h l, is_Some (h !! l) -> is_Some (snd (m h) !! l).

(** The same for a method, whose attributes before and after are related
    by [R]. *)
Definition grows_self {St A} (R : St -> St -> Prop)
    (m : M (gmap loc V * St) A) : Prop :=
  forall h s,
    (forall l, is_Some (h !! l) -> is_Some (fst (snd (m (h, s))) !! l)) /\
    R s (snd (snd (m (h, s)))).
End Store.

(** ** [class Sampler] (cil/framework/sampler.py) *)

Module Sampler.
Section Sampler.
Context {F : Type} `{Scalar F}.

(** [numpy.random.RandomState]: the state [G] of a generator, how a seed
    initialises it, and the two methods the sampler calls.  numpy accepts
    a seed between 0 and 2**32 - 1 and raises ValueError otherwise. *)
Context {G : Type}.
Variable gen_init : Z -> G.
Variable gen_permutation : G -> list Z -> list Z * G.
Variable gen_choice : G -> Z -> list F -> result Z * G.

Inductive sampling_type : Type :=
| sequential_type | custom_order_type | herman_meyer_type | staggered_type
| random_with_replacement_type | random_without_replacement_type.

(** The bound method stored in [self.iterator]. *)
Inductive iterator_method : Type := next_order_method | next_prob_method.

Record t : Type := mk {
  type : sampling_type;
  num_subsets : Z;
  seed : Z;
  generator : loc;                  (* reference to a RandomState object *)
  order : option (list Z);
  initial_order : option (list Z);
  iterator : option iterator_method;  (* [None]: attribute never set *)
  prob : option (list F);
  shuffle : bool;
  last_subset : Z
}.

(** State of a method call: the generator objects and [self]. *)
Definition state : Type := gmap loc G * t.

Definition set_order (o : option (list Z)) (s : t) : t :=
  mk (type s) (num_subsets s) (seed s) (generator s) o (initial_order s)
     (iterator s) (prob s) (shuffle s) (last_subset s).
Definition set_last_subset (c : Z) (s : t) : t :=
  mk (type s) (num_subsets s) (seed s) (generator s) (order s)
     (initial_order s) (iterator s) (prob s) (shuffle s) c.
Definition set_generator (g : loc) (s : t) : t :=
  mk (type s) (num_subsets s) (seed s) g (order s) (initial_order s)
     (iterator s) (prob s) (shuffle s) (last_subset s).

(** [np.random.RandomState(seed)]: a new generator object. *)
Definition RandomState (seed : Z) : M (gmap loc G) loc :=
  if (0 <=? seed) && (seed <? 2 ^ 32) then alloc (gen_init seed)
  else raise ValueError.

(** [generator.permutation(x)]: returns a new array, advances the
    generator object in place. *)
Definition permutation (g : loc) (x : list Z) : M (gmap loc G) (list Z) :=
  let* gs := load g in
  let '(x', gs') := gen_permutation gs x in
  store g gs' ;; ret x'.

(** [int(generator.choice(a, 1, p=p))] *)
Definition choice (g : loc) (a : Z) (p : list F) : M (gmap loc G) Z :=
  let* gs := load g in
  let '(r, gs') := gen_choice gs a p in
  store g gs' ;; lift r.

(** [__init__]; [now] is the reading [int(time.time())] of the clock. *)
Definition __init__ (now : Z) (num_subsets : Z) (sampling_type : sampling_type)
    (shuffle : bool) (order : option (list Z)) (prob : option (list F))
    (seed : option Z) : M (gmap loc G) t :=
  let seed := match seed with Some s => s | None => now end in
  let* generator := RandomState seed in
  let iterator := if order is Some _ then Some next_order_method else None in
  let iterator := if prob is Some _ then Some next_prob_method else iterator in
  ret (mk sampling_type num_subsets seed generator order order iterator
          prob shuffle (num_subsets - 1)).

Definition _next_order : M state Z :=
  let* self := get_self in
  (if shuffle self && (last_subset self =? num_subsets self - 1) then
     match order self with
     | Some o =>
         let* o' := on_store (permutation (generator self) o) in
         set_self (set_order (Some o'))
     | None => raise TypeError
     end
   else ret tt) ;;
  let* self := get_self in
  let* c := lift (mod_ (last_subset self + 1) (num_subsets self)) in
  set_self (set_last_subset c) ;;
  match order self with
  | Some o => lift (getitem o c)
  | None => raise TypeError
  end.

Definition _next_prob : M state Z :=
  let* self := get_self in
  match prob self with
  | Some p => on_store (choice (generator self) (num_subsets self) p)
  | None => raise TypeError
  end.

Definition next : M state Z :=
  let* self := get_self in
  match iterator self with
  | Some next_order_method => _next_order
  | Some next_prob_method => _next_prob
  | None => raise AttributeError
  end.

(** [[m for _ in range(n)]] *)
Fixpoint repeat_call {St A} (n : nat) (m : M St A) : M St (list A) :=
  match n with
  | O => ret []
  | S n' => let* a := m in let* l := repeat_call n' m in ret (a :: l)
  end.

Definition get_samples (num_samples : Z) : M state (list Z) :=
  let* self := get_self in
  let save_generator := generator self in
  let save_last_subset := last_subset self in
  set_self (set_last_subset (num_subsets self - 1)) ;;
  let save_order := order self in
  set_self (set_order (initial_order self)) ;;
  let* g := on_store (RandomState (seed self)) in
  set_self (set_generator g) ;;
  let* output := repeat_call (Z.to_nat num_samples) next in
  set_self (set_generator save_generator) ;;
  set_self (set_order save_order) ;;
  set_self (set_last_subset save_last_subset) ;;
  ret output.

(** *** The factories *)

Definition sequential (now num_subsets : Z) : M (gmap loc G) t :=
  let order := range num_subsets in
  __init__ now num_subsets sequential_type false (Some order) None None.

Definition customOrder (now : Z) (customlist : list Z) : M (gmap loc G) t :=
  let num_subsets := len customlist in
  __init__ now num_subsets custom_order_type false (Some customlist) None None.

Definition hermanMeyer (now num_subsets : Z) : M (gmap loc G) t :=
  let* order := lift (HermanMeyer._herman_meyer_order num_subsets) in
  __init__ now num_subsets herman_meyer_type false (Some order) None None.

Definition staggered (now num_subsets offset : Z) : M (gmap loc G) t :=
  if num_subsets <=? offset then
    raise (Exn ValueError "The offset should be less than the number of subsets")
  else
    let indices := range num_subsets in
    let order :=
      concat (map (fun i => slice_step indices i offset) (range offset)) in
    __init__ now num_subsets staggered_type false (Some order) None None.

Definition randomWithReplacement (now num_subsets : Z)
    (prob : option (list F)) (seed : option Z) : M (gmap loc G) t :=
  let* prob :=
    match prob with
    | Some p => ret p
    | None => let* u := lift (int_truediv 1 num_subsets) in
              ret (repeat_list u num_subsets)
    end in
  __init__ now num_subsets random_with_replacement_type false None
           (Some prob) seed.

Definition randomWithoutReplacement (now num_subsets : Z)
    (seed : option Z) (shuffle : bool) : M (gmap loc G) t :=
  let order := range num_subsets in
  __init__ now num_subsets random_without_replacement_type shuffle
           (Some order) None seed.


(** *** The sampler seen through the contents of its generator

    [next_on g self] is one draw of a sampler whose generator object holds
    [g]: the result of the call, the new contents of the generator and the
    new [self].  It only names what [next] does to the store
    ([next_next_on] below); every statement is about [next] itself. *)

Definition _next_order_on (g : G) (self : t) : result Z * (G * t) :=
  let shuffled :=
    if shuffle self && (last_subset self =? num_subsets self - 1) then
      match order self with
      | Some o => let '(o', g') := gen_permutation g o in
                  Ok (g', set_order (Some o') self)
      | None => Raise TypeError
      end
    else Ok (g, self) in
  match shuffled with
  | Raise e => (Raise e, (g, self))
  | Ok (g, self) =>
      match mod_ (last_subset self + 1) (num_subsets self) with
      | Raise e => (Raise e, (g, self))
      | Ok c =>
          (match order self with
           | Some o => getitem o c
           | None => Raise TypeError
           end, (g, set_last_subset c self))
      end
  end.

Definition _next_prob_on (g : G) (self : t) : result Z * (G * t) :=
  match prob self with
  | Some p => let '(r, g') := gen_choice g (num_subsets self) p in
              (r, (g', self))
  | None => (Raise TypeError, (g, self))
  end.

Definition next_on (g : G) (self : t) : result Z * (G * t) :=
  match iterator self with
  | Some next_order_method => _next_order_on g self
  | Some next_prob_method => _next_prob_on g self
  | None => (Raise AttributeError, (g, self))
  end.

Fixpoint draws_on (n : nat) (g : G) (self : t) : result (list Z) * (G * t) :=
  match n with
  | O => (Ok [], (g, self))
  | S n' =>
      match next_on g self with
      | (Raise e, st) => (Raise e, st)
      | (Ok a, (g', self')) =>
          match draws_on n' g' self' with
          | (Raise e, st) => (Raise e, st)
          | (Ok l, st) => (Ok (a :: l), st)
          end
      end
  end.

(** What a call does to the store [h], given what it does to the
    contents of the generator. *)
Definition in_store {A} (h : gmap loc G) (x : result A * (G * t))
  : result A * state :=
  (fst x, (<[generator (snd (snd x)) := fst (snd x)]> h, snd (snd x))).

(** [self] as [__init__] left it: cursor and working order reset. *)
Definition as_constructed (self : t) : t :=
  set_order (initial_order self) (set_last_subset (num_subsets self - 1) self).

(** *** Vocabulary of the statements *)

(** A sampler, and the store it was built in, as a factory returns them. *)
Inductive factory_built : state -> Prop :=
| built_sequential now n h h' s :
    sequential now n h = (Ok s, h') -> factory_built (h', s)
| built_customOrder now l h h' s :
    customOrder now l h = (Ok s, h') -> factory_built (h', s)
| built_hermanMeyer now n h h' s :
    hermanMeyer now n h = (Ok s, h') -> factory_built (h', s)
| built_staggered now n offset h h' s :
    staggered now n offset h = (Ok s, h') -> factory_built (h', s)
| built_randomWithReplacement now n p sd h h' s :
    randomWithReplacement now n p sd h = (Ok s, h') -> factory_built (h', s)
| built_randomWithoutReplacement now n sd sh h h' s :
    randomWithoutReplacement now n sd sh h = (Ok s, h') -> factory_built (h', s).

(** The sampler can draw: there is at least one subset and the order has
    one entry per subset, or the generator accepts the probabilities. *)
Definition can_draw (self : t) : Prop :=
  match prob self with
  | Some p =>
      forall g, exists i g', gen_choice g (num_subsets self) p = (Ok i, g')
  | None =>
      1 <= num_subsets self /\
      exists o, initial_order self = Some o /\ len o = num_subsets self
  end.

(** [self'] is [self] up to the cursor and the working order. *)
Definition moved (self self' : t) : Prop :=
  exists o c, self' = set_order o (set_last_subset c self).

(** [can_draw] for the working order, and the bound method in place. *)
Definition ready (self : t) : Prop :=
  match prob self with
  | Some p =>
      iterator self = Some next_prob_method /\
      forall g, exists i g', gen_choice g (num_subsets self) p = (Ok i, g')
  | None =>
      iterator self = Some next_order_method /\
      1 <= num_subsets self /\
      exists o, order self = Some o /\ len o = num_subsets self
  end.

(** A shuffling sampler about to start a pass over its [n] subsets. *)
Definition cycle_start (n : Z) (self : t) : Prop :=
  prob self = None /\ iterator self = Some next_order_method /\
  shuffle self = true /\ num_subsets self = n /\ last_subset self = n - 1 /\
  exists o, order self = Some o /\ o ≡ₚ range n.

(** What [__init__] establishes. *)
Definition constructed (st : state) : Prop :=
  fst st !! generator (snd st) = Some (gen_init (seed (snd st))) /\
  0 <= seed (snd st) < 2 ^ 32 /\
  as_constructed (snd st) = snd st /\
  iterator (snd st) =
    (if prob (snd st) is Some _ then Some next_prob_method
     else if order (snd st) is Some _ then Some next_order_method else None).

(** States a sampler goes through when [next] and [get_samples] are called
    in any order, any number of times. *)
Inductive reachable (st0 : state) : state -> Prop :=
| reach_start : reachable st0 st0
| reach_next st r st' :
    reachable st0 st -> next st = (r, st') -> reachable st0 st'
| reach_get_samples st n r st' :
    reachable st0 st -> get_samples n st = (r, st') -> reachable st0 st'.

End Sampler.
End Sampler.

(** A small generator for concrete runs: a linear congruential state; a
    permutation rotates the array by the state, a choice reduces the state
    modulo the number of subsets. *)
Module ToyGen.
Definition G : Type := Z.
Definition init (seed : Z) : G := seed.
Definition step (g : G) : G := (g * 1103515245 + 12345) mod 2 ^ 31.
Definition permutation (g : G) (x : list Z) : list Z * G :=
  (if len x =? 0 then x else rotate (Z.to_nat (g mod len x)) x, step g).
Definition choice {F} (g : G) (a : Z) (p : list F) : result Z * G :=
  if (0 <? a) && (len p =? a) then (Ok (g mod a), step g)
  else (Raise ValueError, g).
End ToyGen.

(** ** Data containers, functions and operators

    The collaborators of the algorithms.  Their classes are not part of the
    files embedded here; they are modelled by their contracts. *)

Module Container.
Section Container.
Context {F : Type} `{Scalar F}.

(** A step size: a Number, or an array-like object. *)
Inductive value : Type :=
| Number (x : F)
| ArrayLike (a : list F).

Definition is_Number (a : value) : bool :=
  match a with Number _ => true | ArrayLike _ => false end.

(** [a * v] for a container [v] *)
Definition scale (a : value) (v : list F) : list F :=
  match a with
  | Number s => map (fmul s) v
  | ArrayLike w => zip_with fmul w v
  end.

(** [-a] *)
Definition neg (a : value) : value :=
  match a with
  | Number s => Number (fneg s)
  | ArrayLike w => ArrayLike (map fneg w)
  end.

(** [str(a)] *)
Definition str (a : value) : string :=
  match a with
  | Number s => fstr s
  | ArrayLike w => fstr_array w
  end.

(** The store of containers: the entries of each live DataContainer.
    Containers combined by one operation have the same geometry. *)
Definition sapyb_entries (a : value) (x : list F) (b : value) (y : list F)
  : list F := zip_with fadd (scale a x) (scale b y).

(** Modelled from the spec: the array-like container, which supports
    [copy()], [fill(other)], in-place [sapyb(a, other, b, out)] computing
    [out = a*self + b*other], [subtract(other, out)], [add(other, out)] and
    allocation from a geometry, [geometry.allocate(value)].  A method with
    [out] writes the entries of [out] and nothing else; [copy] and
    [allocate] return a new container. *)
Definition copy (self : loc) : M (gmap loc (list F)) loc :=
  let* v := load self in alloc v.

Definition fill (self other : loc) : M (gmap loc (list F)) unit :=
  let* v := load other in store self v.

Definition sapyb (self : loc) (a : value) (other : loc) (b : value) (out : loc)
  : M (gmap loc (list F)) unit :=
  let* x := load self in
  let* y := load other in
  store out (sapyb_entries a x b y).

Definition subtract (self other out : loc) : M (gmap loc (list F)) unit :=
  let* x := load self in
  let* y := load other in
  store out (zip_with fsub x y).

Definition add (self other out : loc) : M (gmap loc (list F)) unit :=
  let* x := load self in
  let* y := load other in
  store out (zip_with fadd x y).

Definition allocate (size : nat) (v : F) : M (gmap loc (list F)) loc :=
  alloc (replicate size v).

(** Modelled from the spec: a Function, callable to evaluate it, with
    [gradient(x, out)], [proximal(x, step, out)], [convex_conjugate(x)],
    [proximal_conjugate(x, step)] and an optional scalar Lipschitz constant
    [L]; [is_ZeroFunction] is [isinstance(f, ZeroFunction)]. *)
Record Function : Type := {
  is_ZeroFunction : bool;
  call : list F -> F;
  gradient_entries : list F -> list F;
  proximal_entries : list F -> value -> list F;
  convex_conjugate : list F -> F;
  proximal_conjugate_entries : list F -> value -> list F;
  L : option F
}.

(** Modelled from the spec: [ZeroFunction()], the zero-valued,
    zero-gradient, identity-proximal placeholder for an absent [f] or [g]. *)
Definition ZeroFunction : Function := {|
  is_ZeroFunction := true;
  call := fun _ => lit 0%Q;
  gradient_entries := fun x => map (fun _ => lit 0%Q) x;
  proximal_entries := fun x _ => x;
  convex_conjugate := fun _ => lit 0%Q;
  proximal_conjugate_entries := fun x _ => map (fun _ => lit 0%Q) x;
  L := Some (lit 0%Q)
|}.

Definition gradient (f : Function) (x out : loc) : M (gmap loc (list F)) unit :=
  let* v := load x in store out (gradient_entries f v).

Definition proximal (f : Function) (x : loc) (step : value) (out : loc)
  : M (gmap loc (list F)) unit :=
  let* v := load x in store out (proximal_entries f v step).

Definition proximal_conjugate (f : Function) (x : loc) (step : value)
  : M (gmap loc (list F)) loc :=
  let* v := load x in alloc (proximal_conjugate_entries f v step).

Definition evaluate (f : Function) (x : loc) : M (gmap loc (list F)) F :=
  let* v := load x in ret (call f v).

(** Modelled from the spec: a LinearOperator with [direct(x, out=None)],
    [adjoint(y, out=None)], its norm and the size of its range geometry.
    Without [out] the result is a new container. *)
Record Operator : Type := {
  direct_entries : list F -> list F;
  adjoint_entries : list F -> list F;
  norm : F;
  range_size : nat
}.

Definition direct (K : Operator) (x : loc) : M (gmap loc (list F)) loc :=
  let* v := load x in alloc (direct_entries K v).

Definition adjoint (K : Operator) (y : loc) : M (gmap loc (list F)) loc :=
  let* v := load y in alloc (adjoint_entries K v).

Definition adjoint_out (K : Operator) (y out : loc)
  : M (gmap loc (list F)) unit :=
  let* v := load y in store out (adjoint_entries K v).

(** Modelled from the spec: a BlockOperator, an ordered sequence of linear
    sub-operators with a shared primal domain, indexable into its
    sub-operators as a Python sequence is. *)
Record BlockOperator : Type := {
  operators : list Operator;
  domain_size : nat
}.

End Container.
End Container.

Arguments Container.value : clear implicits.
Arguments Container.Function : clear implicits.
Arguments Container.Operator : clear implicits.
Arguments Container.BlockOperator : clear implicits.

(** ** [class ISTA] and [class FISTA] (cil/optimisation/algorithms/FISTA.py) *)

Module ISTA.
Section ISTA.
Context {F : Type} `{Scalar F}.
Import Container.

(** What a step-size rule or a preconditioner may read of the algorithm
    instance it is given: the entries of its buffers, the momentum scalar
    and the logged objective values. *)
Record view : Type := {
  view_x : list F;
  view_x_old : list F;
  view_gradient_update : list F;
  view_y : option (list F);
  view_t : option F;
  view_loss : list F
}.

(** Modelled from the spec: a step-size rule, queried with
    [get_step_size(algorithm)]; [ConstantStepSize(s)] always answers [s]. *)
Inductive StepSizeRule : Type :=
| ConstantStepSize (step_size : F)
| CustomRule (get : view -> F).

Definition get_step_size (rule : StepSizeRule) (v : view) : F :=
  match rule with
  | ConstantStepSize s => s
  | CustomRule get => get v
  end.

(** Modelled from the spec: a preconditioner, [apply(algorithm, gradient,
    out)], which writes the rescaled gradient to [out]. *)
Definition Preconditioner : Type := view -> list F -> list F.

(** The class of the instance, for the one method FISTA overrides that
    [set_up] calls. *)
Inductive class_ : Type := ISTA_class | FISTA_class.

Record t : Type := mk {
  initial : loc;
  x_old : loc;
  x : loc;
  gradient_update : loc;
  f : Function F;
  g : Function F;
  step_size_rule : StepSizeRule;
  preconditioner : option Preconditioner;
  loss : list F;
  configured : bool
}.

Definition state : Type := gmap loc (list F) * t.

(** [f] is absent ([None]) or a zero-function placeholder. *)
Definition absent_or_zero (f : option (Function F)) : Prop :=
  match f with
  | None => True
  | Some f => is_ZeroFunction f = true
  end.

(** [_calculate_default_step_size], of ISTA and of FISTA. *)
Definition _calculate_default_step_size (cls : class_) (f : Function F)
    (step_size : option F) : result F :=
  match step_size with
  | None =>
      if is_ZeroFunction f then Ok (lit 1%Q)
      else match L f with
           | Some l =>
               match cls with
               | ISTA_class => truediv (fmul (lit 0.99%Q) (lit 2%Q)) l
               | FISTA_class => truediv (lit 1%Q) l
               end
           | None => Raise (Exn ValueError "Function f is not differentiable")
           end
  | Some s => Ok s
  end.

(** The error of [set_up] for a problem with nothing to minimise. *)
Definition zero_functions_error : exn :=
  Exn ValueError
    "You set both f and g to be the ZeroFunction and thus the iterative method will not update and will remain fixed at the initial value.".

(** [set_up]; [loss] is the history the base class created. *)
Definition set_up (cls : class_) (loss : list F) (initial : loc)
    (f g : option (Function F)) (step_size : option F)
    (step_size_rule : option StepSizeRule)
    (preconditioner : option Preconditioner)
  : M (gmap loc (list F)) t :=
  let* x_old := copy initial in
  let* x := copy initial in
  let* gradient_update := copy initial in
  let f := match f with Some f => f | None => ZeroFunction end in
  let g := match g with Some g => g | None => ZeroFunction end in
  if is_ZeroFunction f && is_ZeroFunction g then
    raise zero_functions_error
  else
    let* step_size_rule :=
      match step_size_rule with
      | None =>
          let* s := lift (_calculate_default_step_size cls f step_size) in
          ret (ConstantStepSize s)
      | Some rule =>
          match step_size with
          | Some _ =>
              raise (Exn TypeError
                "You have passed both a `step_size` and a `step_size_rule`, please pass one or the other")
          | None => ret rule
          end
      end in
    ret (mk initial x_old x gradient_update f g step_size_rule preconditioner
            loss true).

(** [ISTA.__init__]: the base class starts an empty history, then [set_up]. *)
Definition __init__ (initial : loc) (f g : option (Function F))
    (step_size : option F) (step_size_rule : option StepSizeRule)
    (preconditioner : option Preconditioner) : M (gmap loc (list F)) t :=
  set_up ISTA_class [] initial f g step_size step_size_rule preconditioner.

Definition set_loss (l : list F) (s : t) : t :=
  mk (initial s) (x_old s) (x s) (gradient_update s) (f s) (g s)
     (step_size_rule s) (preconditioner s) l (configured s).
Definition set_x_x_old (x' x_old' : loc) (s : t) : t :=
  mk (initial s) x_old' x' (gradient_update s) (f s) (g s)
     (step_size_rule s) (preconditioner s) (loss s) (configured s).

(** The instance as a rule or a preconditioner sees it. *)
Definition look (self : t) (y : option loc) (t_ : option F)
  : M (gmap loc (list F)) view :=
  let* vx := load (x self) in
  let* vx_old := load (x_old self) in
  let* vg := load (gradient_update self) in
  let* vy := match y with
             | Some y => let* v := load y in ret (Some v)
             | None => ret None
             end in
  ret {| view_x := vx; view_x_old := vx_old; view_gradient_update := vg;
         view_y := vy; view_t := t_; view_loss := loss self |}.

(** [preconditioner.apply(self, self.gradient_update,
    out=self.gradient_update)], when there is a preconditioner. *)
Definition precondition (self : t) (y : option loc) (t_ : option F)
  : M (gmap loc (list F)) unit :=
  match preconditioner self with
  | Some P =>
      let* v := look self y t_ in
      let* grad := load (gradient_update self) in
      store (gradient_update self) (P v grad)
  | None => ret tt
  end.

Definition update : M state unit :=
  let* self := get_self in
  on_store (gradient (f self) (x_old self) (gradient_update self)) ;;
  on_store (precondition self None None) ;;
  let* v := on_store (look self None None) in
  let step_size := get_step_size (step_size_rule self) v in
  on_store (sapyb (x_old self) (Number (lit 1%Q)) (gradient_update self)
                  (Number (fneg step_size)) (x_old self)) ;;
  on_store (proximal (g self) (x_old self) (Number step_size) (x self)).

Definition _update_previous_solution : M state unit :=
  let* self := get_self in
  let tmp := x_old self in
  set_self (set_x_x_old tmp (x self)).

Definition get_output : M state loc :=
  let* self := get_self in ret (x_old self).

Definition update_objective : M state unit :=
  let* self := get_self in
  let* fx := on_store (evaluate (f self) (x_old self)) in
  let* gx := on_store (evaluate (g self) (x_old self)) in
  set_self (set_loss (loss self ++ [fadd fx gx])).


(** What the driver of the base class may call on a configured instance,
    in any order. *)
Inductive call : Type := Update | UpdatePreviousSolution | UpdateObjective.

Definition do_call (c : call) : M state unit :=
  match c with
  | Update => update
  | UpdatePreviousSolution => _update_previous_solution
  | UpdateObjective => update_objective
  end.

(** The state after a sequence of calls; a call that raises leaves the
    state it raised in. *)
Definition run (calls : list call) (st : state) : state :=
  fold_left (fun st c => snd (do_call c st)) calls st.

(** No buffer of the instance is the object at [l0]. *)
Definition apart (l0 : loc) (self : t) : Prop :=
  x self <> l0 /\ x_old self <> l0 /\ gradient_update self <> l0.

End ISTA.
End ISTA.

Arguments ISTA.t : clear implicits.
Arguments ISTA.state : clear implicits.
Arguments ISTA.StepSizeRule : clear implicits.
Arguments ISTA.Preconditioner : clear implicits.
Arguments ISTA.view : clear implicits.

Module FISTA.
Section FISTA.
Context {F : Type} `{Scalar F}.
Import Container.

(** A FISTA instance: the attributes of ISTA, the extrapolation point [y]
    and the momentum [t]; [t_old] exists once [update] has run. *)
Record t : Type := mk {
  base : ISTA.t F;
  y : loc;
  t_ : F;
  t_old : option F
}.

Definition state : Type := gmap loc (list F) * t.

Definition set_base (b : ISTA.t F) (s : t) : t := mk b (y s) (t_ s) (t_old s).
Definition set_t (v : F) (s : t) : t := mk (base s) (y s) v (t_old s).
Definition set_t_old (v : F) (s : t) : t := mk (base s) (y s) (t_ s) (Some v).

(** A method inherited from ISTA, run on the ISTA attributes. *)
Definition inherited {A} (m : M (ISTA.state F) A) : M state A :=
  fun st =>
    let '(r, (h, b)) := m (fst st, base (snd st)) in
    (r, (h, set_base b (snd st))).

Definition __init__ (initial : loc) (f g : option (Function F))
    (step_size : option F) (step_size_rule : option (ISTA.StepSizeRule F))
    (preconditioner : option (ISTA.Preconditioner F)) : M (gmap loc (list F)) t :=
  let* y := copy initial in
  let t := lit 1%Q in
  let* b := ISTA.set_up ISTA.FISTA_class [] initial f g step_size
                        step_size_rule preconditioner in
  ret (mk b y t None).

Definition update : M state unit :=
  let* self := get_self in
  set_self (set_t_old (t_ self)) ;;
  let t_old := t_ self in
  let b := base self in
  on_store (gradient (ISTA.f b) (y self) (ISTA.gradient_update b)) ;;
  on_store (ISTA.precondition b (Some (y self)) (Some (t_ self))) ;;
  let* v := on_store (ISTA.look b (Some (y self)) (Some (t_ self))) in
  let step_size := ISTA.get_step_size (ISTA.step_size_rule b) v in
  on_store (sapyb (y self) (Number (lit 1%Q)) (ISTA.gradient_update b)
                       (Number (fneg step_size)) (y self)) ;;
  on_store (proximal (ISTA.g b) (y self) (Number step_size) (ISTA.x b)) ;;
  let t := fmul (lit 0.5%Q)
             (fadd (lit 1%Q)
                (fsqrt (fadd (lit 1%Q) (fmul (lit 4%Q) (fsq t_old))))) in
  set_self (set_t t) ;;
  on_store (subtract (ISTA.x b) (ISTA.x_old b) (y self)) ;;
  on_store (sapyb (y self) (Number (fdiv (fsub t_old (lit 1%Q)) t))
                       (ISTA.x b) (Number (lit 1%Q)) (y self)).

Definition _update_previous_solution : M state unit :=
  inherited ISTA._update_previous_solution.

Definition update_objective : M state unit :=
  inherited ISTA.update_objective.


Definition do_call (c : ISTA.call) : M state unit :=
  match c with
  | ISTA.Update => update
  | ISTA.UpdatePreviousSolution => _update_previous_solution
  | ISTA.UpdateObjective => update_objective
  end.

Definition run (calls : list ISTA.call) (st : state) : state :=
  fold_left (fun st c => snd (do_call c st)) calls st.

Definition apart (l0 : loc) (self : t) : Prop :=
  ISTA.apart l0 (base self) /\ y self <> l0.

End FISTA.
End FISTA.

Arguments FISTA.t : clear implicits.
Arguments FISTA.state : clear implicits.

(** ** [class SPDHG] (cil/optimisation/algorithms/SPDHG.py) *)

Module SPDHG.
Section SPDHG.
Context {F : Type} `{Scalar F}.
Import Container.

(** The sampler: an instance of the Sampler class or of another class with
    [__next__]; [getattr_prob_weights] is
    [getattr(sampler, 'prob_weights', None)] and [random_with_replacement]
    the factory [set_up] calls when no sampler is passed. *)
Context {Smp : Type}.
Variable sampler_next : M Smp Z.
Variable getattr_prob_weights : Smp -> option (list F).
Variable random_with_replacement : Z -> list F -> Smp.

(** [operator.set_norms(norms)], a method of BlockOperator that [set_up]
    calls for the deprecated argument [norms]: whether it returns or
    raises, and the block operator as the call leaves it. *)
Variable set_norms : list F -> M (BlockOperator F) unit.

(** The attributes the step sizes are resolved from and into; [_sigma] and
    [_tau] are [None] until they are assigned. *)
Record step_sizes : Type := mk_steps {
  _ndual_subsets : Z;
  _norms : list F;
  _prob_weights : list F;
  _sigma : option (list (value F));
  _tau : option (value F)
}.

Definition set_sigma (v : list (value F)) (s : step_sizes) : step_sizes :=
  mk_steps (_ndual_subsets s) (_norms s) (_prob_weights s) (Some v) (_tau s).
Definition set_tau (v : value F) (s : step_sizes) : step_sizes :=
  mk_steps (_ndual_subsets s) (_norms s) (_prob_weights s) (_sigma s) (Some v).

(** [isinstance(x, Number) and x > 0] *)
Definition positive_Number (x : value F) : bool :=
  match x with
  | Number v => flt (lit 0%Q) v
  | ArrayLike _ => false
  end.

(** An attribute read before it was assigned. *)
Definition attribute {St A} (a : option A) : M St A :=
  match a with
  | Some v => ret v
  | None => raise AttributeError
  end.

(** A scalar where the code computes with one. *)
Definition as_Number (x : value F) : result F :=
  match x with
  | Number v => Ok v
  | ArrayLike _ => Raise TypeError
  end.

(** [gamma * rho*pi / (tau*ni**2)]; with an array for [tau] the arithmetic
    is numpy's, entry by entry. *)
Definition sigma_from_tau (gamma rho : F) (tau : value F) (ni pi : F)
  : result (value F) :=
  match tau with
  | Number t =>
      match truediv (fmul (fmul gamma rho) pi) (fmul t (fsq ni)) with
      | Ok s => Ok (Number s)
      | Raise e => Raise e
      end
  | ArrayLike w =>
      Ok (ArrayLike
            (map (fun t => fdiv (fmul (fmul gamma rho) pi) (fmul t (fsq ni))) w))
  end.

(** [pi / (si * ni**2)] *)
Definition tau_candidate (x : F * F * value F) : result F :=
  let '(pi, ni, si) := x in
  match as_Number si with
  | Ok s => truediv pi (fmul s (fsq ni))
  | Raise e => Raise e
  end.

Definition set_step_sizes (sigma : option (list (value F)))
    (tau : option (value F)) : M step_sizes unit :=
  let gamma := lit 1%Q in
  let rho := lit 0.99%Q in
  let* self := get in
  match sigma with
  | Some sigma =>
      (if len sigma =? _ndual_subsets self then
         if forallb positive_Number sigma then ret tt
         else raise (Exn ValueError "Sigma expected to be a positive number.")
       else
         raise (Exn ValueError
           "Please pass a list of floats to sigma with the same number of entries as number of operators")) ;;
      modify (set_sigma sigma)
  | None =>
      match tau with
      | None =>
          let* s := lift (map_result (fun ni => truediv (fmul gamma rho) ni)
                                     (_norms self)) in
          modify (set_sigma (map Number s))
      | Some tau =>
          let* s := lift (map_result
                            (fun '(ni, pi) => sigma_from_tau gamma rho tau ni pi)
                            (zip (_norms self) (_prob_weights self))) in
          modify (set_sigma s)
      end
  end ;;
  match tau with
  | None =>
      let* self := get in
      let* sigma := attribute (_sigma self) in
      let* values := lift (map_result tau_candidate
                             (zip (zip (_prob_weights self) (_norms self)) sigma)) in
      let* m := lift (min_ (filter (fun v => flt (lit (1 # 100000000)%Q) v) values)) in
      modify (set_tau (Number m)) ;;
      let* r := lift (truediv rho gamma) in
      modify (set_tau (Number (fmul m r)))
  | Some tau =>
      (if positive_Number tau then ret tt
       else raise (Exn ValueError
                     (format
                        "The step-sizes of SPDHG must be positive, passed tau = {}"
                        (str tau)))) ;;
      modify (set_tau tau)
  end.

(** [check_convergence]; [None] is Python's [None], returned when the loop
    body never runs. *)
Definition check_convergence : M step_sizes (option bool) :=
  let* self := get in
  for_return (range (_ndual_subsets self)) (fun i =>
    let* tau := attribute (_tau self) in
    let* sigma := attribute (_sigma self) in
    let* scalar :=
      if is_Number tau then
        let* sigma_i := lift (getitem sigma i) in ret (is_Number sigma_i)
      else ret false in
    if scalar then
      let* sigma_i := lift (getitem sigma i) in
      let* s := lift (as_Number sigma_i) in
      let* t := lift (as_Number tau) in
      let* ni := lift (getitem (_norms self) i) in
      let* pi := lift (getitem (_prob_weights self) i) in
      if flt pi (fmul (fmul s t) (fsq ni)) then ret (Some false)
      else ret (Some true)
    else ret (Some false)).

Record t : Type := mk {
  f : list (Function F);              (* the BlockFunction *)
  g : Function F;
  operator : BlockOperator F;
  _sampler : Smp;
  steps : step_sizes;
  x : loc;
  _x_tmp : loc;
  _y_old : list loc;                  (* the BlockDataContainer *)
  _z : loc;
  _zbar : loc;
  _theta : F;
  loss : list (list F);
  configured : bool
}.

Definition state : Type := gmap loc (list F) * t.

Definition set_sampler (s : Smp) (a : t) : t :=
  mk (f a) (g a) (operator a) s (steps a) (x a) (_x_tmp a) (_y_old a)
     (_z a) (_zbar a) (_theta a) (loss a) (configured a).
Definition set_loss (l : list (list F)) (a : t) : t :=
  mk (f a) (g a) (operator a) (_sampler a) (steps a) (x a) (_x_tmp a)
     (_y_old a) (_z a) (_zbar a) (_theta a) l (configured a).

(** [next(self._sampler)] *)
Definition next_sample : M state Z :=
  fun st =>
    let '(r, smp) := sampler_next (_sampler (snd st)) in
    (r, (fst st, set_sampler smp (snd st))).

(** [_deprecated_kwargs], on the block operator [self.operator]: the new
    [self._prob_weights].  [norms] and [prob] are the two arguments it pops
    from the dict, [other_kwargs] is what remains of the dict.  The module
    does not import [warnings], so both [warnings.warn] calls raise
    NameError; the one for [norms] comes after [set_norms] has run. *)
Definition _deprecated_kwargs (prob_weights : option (list F))
    (norms prob : option (list F)) (other_kwargs : kwargs)
  : M (BlockOperator F) (option (list F)) :=
  match prob with
  | Some _ =>
      match prob_weights with
      | None => raise NameError
      | Some _ =>
          raise (Exn ValueError
            "`prob` is being deprecated to be replaced with a sampler class and `prob_weights`. You passed  a `prob` argument, and either a `prob_weights` argument or a sampler with a `prob_weights` property. Please give only one of the three. ")
      end
  | None => ret tt
  end ;;
  match norms with
  | Some norms => set_norms norms ;; raise NameError
  | None => ret tt
  end ;;
  match other_kwargs with
  | _ :: _ =>
      raise (Exn ValueError
               (format "Additional keyword arguments passed but not used: {}"
                       (str_dict other_kwargs)))
  | [] => ret prob_weights
  end.

(** [set_up]; [operator] is [None] for an object that is not a
    BlockOperator, [loss] the history the base class created.  The block
    operator is the caller's object: after [_deprecated_kwargs] it is read
    as that call left it. *)
Definition set_up (loss : list (list F)) (f : list (Function F))
    (g : Function F) (operator : option (BlockOperator F))
    (sigma : option (list (value F))) (tau : option (value F))
    (initial : option loc) (sampler : option Smp)
    (prob_weights : option (list F))
    (norms prob : option (list F)) (other_kwargs : kwargs)
  : M (gmap loc (list F)) t :=
  match operator with
  | None => raise (Exn TypeError "operator should be a BlockOperator")
  | Some operator =>
      let _ndual_subsets := len (operators operator) in
      let _prob_weights :=
        match sampler with
        | Some s => getattr_prob_weights s
        | None => None
        end in
      let* _prob_weights :=
        lift match prob_weights with
             | Some p =>
                 match _prob_weights with
                 | None => Ok (Some p)
                 | Some _ =>
                     Raise (Exn ValueError
                       " You passed a `prob_weights` argument and a sampler with attribute `prob_weights`, please remove the `prob_weights` argument.")
                 end
             | None => Ok _prob_weights
             end in
      let '(r, operator) :=
        _deprecated_kwargs _prob_weights norms prob other_kwargs operator in
      let* _prob_weights := lift r in
      let* _prob_weights :=
        lift match _prob_weights with
             | Some p => Ok p
             | None =>
                 match int_truediv 1 _ndual_subsets with
                 | Ok u => Ok (repeat_list u _ndual_subsets)
                 | Raise e => Raise e
                 end
             end in
      let _sampler :=
        match sampler with
        | Some s => s
        | None => random_with_replacement (len (operators operator))
                                          _prob_weights
        end in
      let _norms := map norm (operators operator) in
      let '(r, st) :=
        set_step_sizes sigma tau
          (mk_steps _ndual_subsets _norms _prob_weights None None) in
      lift r ;;
      let* x :=
        match initial with
        | None => allocate (domain_size operator) (lit 0%Q)
        | Some initial => copy initial
        end in
      let* _x_tmp := allocate (domain_size operator) (lit 0%Q) in
      let* _y_old :=
        map_M (fun K => allocate (range_size K) (lit 0%Q))
              (operators operator) in
      let* _z := allocate (domain_size operator) (lit 0%Q) in
      let* _zbar := allocate (domain_size operator) (lit 0%Q) in
      let _theta := lit 1%Q in
      ret (mk f g operator _sampler st x _x_tmp _y_old _z _zbar _theta
              loss true)
  end.

(** The error [update] raises for an index the block operator rejects. *)
Definition index_out_of_range_error : exn :=
  Exn IndexError
    "The sampler has outputted an index larger than the number of operators to sample from. Please ensure your sampler samples from {1,2,...,len(operator)} only.".

Definition update : M state unit :=
  let* self := get_self in
  let* tau := attribute (_tau (steps self)) in
  on_store (sapyb (x self) (Number (lit 1%Q)) (_zbar self) (neg tau)
                       (_x_tmp self)) ;;
  on_store (proximal (g self) (_x_tmp self) tau (x self)) ;;
  let* i := next_sample in
  let* y_k :=
    match getitem (operators (operator self)) i with
    | Ok K => on_store (direct K (x self))
    | Raise _ =>                      (* except IndexError: *)
        raise index_out_of_range_error
    end in
  let* sigma := attribute (_sigma (steps self)) in
  let* sigma_i := lift (getitem sigma i) in
  let* y_old_i := lift (getitem (_y_old self) i) in
  on_store (sapyb y_k sigma_i y_old_i (Number (lit 1%Q)) y_k) ;;
  let* f_i := lift (getitem (f self) i) in
  let* sigma_i := lift (getitem sigma i) in
  let* y_k := on_store (proximal_conjugate f_i y_k sigma_i) in
  let* y_old_i := lift (getitem (_y_old self) i) in
  let* y_old_i' := lift (getitem (_y_old self) i) in
  on_store (subtract y_k y_old_i y_old_i') ;;
  let* K := lift (getitem (operators (operator self)) i) in
  let* y_old_i := lift (getitem (_y_old self) i) in
  on_store (adjoint_out K y_old_i (_x_tmp self)) ;;
  on_store (add (_z self) (_x_tmp self) (_z self)) ;;
  let* p_i := lift (getitem (_prob_weights (steps self)) i) in
  let* w := lift (truediv (_theta self) p_i) in
  on_store (sapyb (_z self) (Number (lit 1%Q)) (_x_tmp self) (Number w)
                       (_zbar self)) ;;
  (* _save_previous_iteration(i, y_k) *)
  let* y_old_i := lift (getitem (_y_old self) i) in
  on_store (fill y_old_i y_k).

(** Modelled from the spec: [BlockFunction.convex_conjugate], the sum of
    the blocks' conjugates, and [BlockOperator.adjoint], the sum of the
    blocks' back-projections, in a new container. *)
Definition block_convex_conjugate (f : list (Function F)) (y : list loc)
  : M (gmap loc (list F)) F :=
  let* terms := map_M (fun '(f_i, y_i) =>
                         let* v := load y_i in ret (convex_conjugate f_i v))
                      (zip f y) in
  ret (fold_left fadd terms (lit 0%Q)).

Definition block_adjoint (op : BlockOperator F) (y : list loc)
  : M (gmap loc (list F)) loc :=
  let* terms := map_M (fun '(K, y_i) =>
                         let* v := load y_i in ret (adjoint_entries K v))
                      (zip (operators op) y) in
  alloc (fold_left (zip_with fadd) terms
                   (replicate (domain_size op) (lit 0%Q))).

Definition update_objective : M state unit :=
  let* self := get_self in
  let* terms :=
    map_M (fun '(i, op) =>
             let* f_i := lift (getitem (f self) i) in
             let* Kx := on_store (direct op (x self)) in
             on_store (evaluate f_i Kx))
          (enumerate (operators (operator self))) in
  let p1 := fold_left fadd terms (lit 0%Q) in
  let* gx := on_store (evaluate (g self) (x self)) in
  let p1 := fadd p1 gx in
  let* c := on_store (block_convex_conjugate (f self) (_y_old self)) in
  let d1 := fneg c in
  let* tmp := on_store (block_adjoint (operator self) (_y_old self)) in
  let* v := on_store (load tmp) in
  on_store (store tmp (map (fun e => fmul e (lit (-1)%Q)) v)) ;;
  let* v := on_store (load tmp) in
  let c := convex_conjugate (g self) v in
  let d1 := fsub d1 c in
  set_self (set_loss (loss self ++ [[p1; d1; fsub p1 d1]])).


(** [set_step_sizes_from_ratio(gamma, rho)] *)
Definition set_step_sizes_from_ratio (gamma rho : value F)
  : M step_sizes unit :=
  let* gamma :=
    match gamma with
    | Number gamma =>
        if fle gamma (lit 0%Q) then
          raise (Exn ValueError
            "The step-sizes of SPDHG are positive, gamma should also be positive")
        else ret gamma
    | ArrayLike _ =>
        raise (Exn ValueError
                 "We currently only support scalar values of gamma")
    end in
  let* rho :=
    match rho with
    | Number rho =>
        if fle rho (lit 0%Q) then
          raise (Exn ValueError
            "The step-sizes of SPDHG are positive, rho should also be positive")
        else ret rho
    | ArrayLike _ =>
        raise (Exn ValueError
                 "We currently only support scalar values of gamma")
    end in
  let* self := get in
  let* s := lift (map_result (fun ni => truediv (fmul gamma rho) ni)
                             (_norms self)) in
  modify (set_sigma (map Number s)) ;;
  let* self := get in
  let* sigma := attribute (_sigma self) in
  let* values := lift (map_result tau_candidate
                         (zip (zip (_prob_weights self) (_norms self)) sigma)) in
  let* m := lift (min_ (filter (fun v => flt (lit (1 # 100000000)%Q) v) values)) in
  modify (set_tau (Number m)) ;;
  let* r := lift (truediv rho gamma) in
  modify (set_tau (Number (fmul m r))).

(** The properties [objective], [dual_objective] and [primal_dual_gap]:
    [[x[k] for x in self.loss]] for [k = 0, 1, 2]. *)
Definition objective (self : t) : result (list F) :=
  map_result (fun x => getitem x 0) (loss self).
Definition dual_objective (self : t) : result (list F) :=
  map_result (fun x => getitem x 1) (loss self).
Definition primal_dual_gap (self : t) : result (list F) :=
  map_result (fun x => getitem x 2) (loss self).

(** The buffers of a configured instance are live objects, no two the same. *)
Definition buffers (self : t) : list loc :=
  x self :: _x_tmp self :: _z self :: _zbar self :: _y_old self.

Definition configured_in (h : gmap loc (list F)) (self : t) : Prop :=
  NoDup (buffers self) /\ Forall (fun l => is_Some (h !! l)) (buffers self).

(** [self'] is [self] up to the sampler and the logged objective values:
    the same functions, operator, step sizes and relaxation parameter, and
    the same objects for buffers. *)
Definition same_configuration (self self' : t) : Prop :=
  self' = set_loss (loss self') (set_sampler (_sampler self') self).

Inductive call : Type := Update | UpdateObjective.

Definition do_call (c : call) : M state unit :=
  match c with
  | Update => update
  | UpdateObjective => update_objective
  end.

Definition run (calls : list call) (st : state) : state :=
  fold_left (fun st c => snd (do_call c st)) calls st.

Definition apart (l0 : loc) (self : t) : Prop :=
  x self <> l0 /\ _x_tmp self <> l0 /\ _z self <> l0 /\ _zbar self <> l0 /\
  Forall (fun l => l <> l0) (_y_old self).

End SPDHG.
End SPDHG.

Arguments SPDHG.t : clear implicits.
Arguments SPDHG.state : clear implicits.
Arguments SPDHG.step_sizes : clear implicits.

(** ** A concrete SPDHG problem

    Rational scalars, the toy generator, a sampler of [class Sampler], and
    one-entry containers: [scaling c] multiplies by [c], [plain] has the
    identity for every proximal map. *)
Module Toy.
Import Container.

Definition scaling (c : Q) : Operator Q := {|
  direct_entries := map (Qmult c);
  adjoint_entries := map (Qmult c);
  norm := c;
  range_size := 1
|}.

Definition plain : Function Q := {|
  is_ZeroFunction := false;
  call := fun _ => 0%Q;
  gradient_entries := fun x => x;
  proximal_entries := fun x _ => x;
  convex_conjugate := fun _ => 0%Q;
  proximal_conjugate_entries := fun x _ => x;
  L := Some 1%Q
|}.

Definition sampler : Type := @Sampler.state Q ToyGen.G.

Definition next : M sampler Z :=
  Sampler.next ToyGen.permutation ToyGen.choice.

(** The Sampler class of sampler.py has no [prob_weights] attribute. *)
Definition getattr_prob_weights (s : sampler) : option (list Q) := None.

Definition built (r : result (@Sampler.t Q) * gmap loc ToyGen.G) : sampler :=
  (snd r,
   match fst r with
   | Ok s => s
   | Raise _ =>
       Sampler.mk Sampler.sequential_type 0 0 1%positive None None None None
                  false 0
   end).

Definition random_with_replacement (n : Z) (p : list Q) : sampler :=
  built (Sampler.randomWithReplacement ToyGen.init 0 n (Some p) (Some 0) ∅).

(** [set_norms(norms)] as a block operator may do it: one norm for each
    sub-operator, ValueError for a list of another length. *)
Definition set_norms (norms : list Q) : M (BlockOperator Q) unit :=
  fun op =>
    if (length norms =? length (operators op))%nat then
      (Ok tt,
       {| operators :=
            zip_with (fun K n => {| direct_entries := direct_entries K;
                                    adjoint_entries := adjoint_entries K;
                                    norm := n;
                                    range_size := range_size K |})
                     (operators op) norms;
          domain_size := domain_size op |})
    else (Raise ValueError, op).

Definition set_up :=
  SPDHG.set_up (F:=Q) getattr_prob_weights random_with_replacement set_norms.
Definition update := SPDHG.update (F:=Q) next.

(** The store with one container, [initial], holding [[1]]. *)
Definition initial : loc := 1%positive.
Definition store0 : gmap loc (list Q) := {[initial := [1%Q]]}.

(** The dual ascent as the specification words it:
    [sigma[i]*y_old[i] + K_i(x)]. *)
Definition ascent_as_specified {F} `{Scalar F} (sigma_i : value F)
    (y_old_i Kx : list F) : list F :=
  sapyb_entries sigma_i y_old_i (Number (lit 1%Q)) Kx.

(** One block, the identity operator, [sigma = [2]], [tau = 1] and a
    sequential sampler. *)
Definition one_block : result (SPDHG.t Q sampler) * gmap loc (list Q) :=
  set_up [] [plain] plain
    (Some {| operators := [scaling 1]; domain_size := 1 |})
    (Some [Number 2%Q]) (Some (Number 1%Q)) (Some initial)
    (Some (built (Sampler.sequential ToyGen.init 0 1 ∅)))
    None None None [] store0.


(** The step-size attributes of two blocks with norms 1 and 2, drawn with
    probability 1/2 each, before [set_step_sizes]. *)
Definition two_block_steps : SPDHG.step_sizes Q :=
  SPDHG.mk_steps 2 [1%Q; 2%Q] [(1 # 2)%Q; (1 # 2)%Q] None None.

(** Step sizes as [set_step_sizes(sigma=[1/4, 1], tau=1)] leaves them, for
    two blocks with norms 1 drawn with probability 1/2 each: block 0 meets
    the convergence criterion, block 1 does not. *)
Definition block_1_violates : SPDHG.step_sizes Q :=
  SPDHG.mk_steps 2 [1%Q; 1%Q] [(1 # 2)%Q; (1 # 2)%Q]
    (Some [Number (1 # 4)%Q; Number 1%Q]) (Some (Number 1%Q)).

End Toy.

(** * Properties *)

(** ** Rational scalars satisfy the laws *)

Lemma Qmult_comm_eq (a b : Q) : Qmult a b = Qmult b a.
Proof.
  destruct a as [an ad], b as [bn bd]. unfold Qmult. cbn [Qnum Qden].
  f_equal; [apply Z.mul_comm | apply Pos.mul_comm].
Qed.

#[global] Instance Q_scalar_laws : ScalarLaws Q.
Proof. split; [exact Qmult_comm_eq | reflexivity]. Qed.

(** ** Herman-Meyer order *)

Module HermanMeyerFacts.
Import HermanMeyer.

(** The trial-division loop started at some [i >= 2] ends within
    [n_variable - i + 1] iterations, and never takes [n_variable] below 2. *)
Lemma factor_loop_terminates (fuel : nat) :
  forall i n_variable factors,
    2 <= i -> (Z.to_nat (n_variable - i) < fuel)%nat ->
    exists n_variable' factors',
      factor_loop fuel i n_variable factors = Some (n_variable', factors') /\
      (2 <= n_variable -> 2 <= n_variable').
Proof.
  induction fuel as [|fuel IH]; intros i nv fs Hi Hfuel; [lia|].
  cbn [factor_loop].
  destruct (Z.leb_spec (i * i) nv) as [Hsq|Hsq]; [|eauto].
  assert (i < nv) by nia.
  destruct (Z.eqb_spec (nv mod i) 0) as [Hdiv|Hdiv]; cbn [negb].
  - assert (Hq : nv = i * (nv / i)).
    { rewrite (Z.div_mod nv i) at 1 by lia. lia. }
    assert (i <= nv / i) by nia.
    destruct (IH i (nv / i) (fs ++ [i])) as (nv' & fs' & -> & Hnv'); [lia|nia|].
    exists nv', fs'. split; [done|]. intros _. apply Hnv'. lia.
  - destruct (IH (i + 1) nv fs) as (nv' & fs' & -> & Hnv'); [lia|lia|].
    eauto.
Qed.

Lemma factor_loop_from_2 (n : Z) :
  exists n_variable' factors',
    factor_loop (factor_fuel n) 2 n [] = Some (n_variable', factors') /\
    (2 <= n -> 2 <= n_variable').
Proof. apply factor_loop_terminates; unfold factor_fuel; lia. Qed.

(** From 2 on there is always at least one factor. *)
Lemma factorise_nonempty (n : Z) : 2 <= n -> factorise n <> [].
Proof.
  intros Hn. unfold factorise.
  destruct (factor_loop_from_2 n) as (nv & fs & -> & Hnv). cbn.
  specialize (Hnv Hn).
  destruct (Z.ltb_spec 1 nv); [|lia]. by destruct fs.
Qed.

Lemma herman_meyer_order_from_2 (n : Z) :
  2 <= n -> exists order, _herman_meyer_order n = Ok order.
Proof.
  intros Hn. unfold _herman_meyer_order.
  pose proof (factorise_nonempty n Hn) as Hne.
  destruct (factorise n); [done|]. cbn [length Nat.eqb]. eauto.
Qed.

(** A prime has no divisor to find: the loop only counts [i] up. *)
Lemma factor_loop_prime (p : Z) (fuel : nat) :
  prime p ->
  forall i, 2 <= i -> (Z.to_nat (p - i) < fuel)%nat ->
    factor_loop fuel i p [] = Some (p, []).
Proof.
  intros Hp. induction fuel as [|fuel IH]; intros i Hi Hfuel; [lia|].
  cbn [factor_loop].
  destruct (Z.leb_spec (i * i) p) as [Hsq|Hsq]; [|done].
  assert (i < p) by nia.
  destruct (Z.eqb_spec (p mod i) 0) as [Hdiv|Hdiv]; cbn [negb].
  - exfalso. destruct Hp as [_ Hrel].
    destruct (Hrel i ltac:(lia)) as [_ _ Hone].
    assert (Hi1 : (i | 1)).
    { apply Hone; [apply Z.divide_refl|]. apply Z.mod_divide; [lia|done]. }
    apply Z.divide_1_r_nonneg in Hi1; lia.
  - apply IH; lia.
Qed.

Lemma factorise_prime (p : Z) : prime p -> factorise p = [p].
Proof.
  intros Hp. assert (1 < p) by (by destruct Hp). unfold factorise.
  rewrite (factor_loop_prime p) by (done || unfold factor_fuel; lia).
  cbn. destruct (Z.ltb_spec 1 p); [done|lia].
Qed.

(** With the single factor [p], the inner loop writes [element] at
    position [element]: after [k] elements the order is [0 .. k-1]
    followed by zeros. *)
Lemma element_loop_single_factor (p : Z) (k : nat) :
  (k <= Z.to_nat p)%nat ->
  fold_left (element_step p 1 1) (map Z.of_nat (seq 0 k))
            (0, 0, replicate (Z.to_nat p) 0)
  = (if Z.of_nat k =? p then 0 else Z.of_nat k, 0,
     map Z.of_nat (seq 0 k) ++ replicate (Z.to_nat p - k) 0).
Proof.
  induction k as [|k IH]; intros Hk.
  - cbn. rewrite Nat.sub_0_r. change (Z.of_nat 0) with 0. by destruct (0 =? p).
  - rewrite seq_S, map_app, fold_left_app, IH by lia. cbn [seq map fold_left Nat.add].
    destruct (Z.eqb_spec (Z.of_nat k) p); [lia|].
    unfold element_step. rewrite Nat2Z.id.
    replace (1 <=? 0 + 1) with true by done.
    replace (Z.of_nat k + 1) with (Z.of_nat (S k)) by lia.
    f_equal.
    replace (Z.to_nat p - k)%nat with (S (Z.to_nat p - S k)) by lia.
    cbn [replicate].
    pose proof (alter_app_r (fun o => o + 1 * Z.of_nat k)
                  (map Z.of_nat (seq 0 k))
                  (0 :: replicate (Z.to_nat p - S k) 0) 0) as Halter.
    rewrite Nat.add_0_r, length_map, length_seq in Halter.
    rewrite Halter. cbn. rewrite <- app_assoc. cbn. do 2 f_equal. lia.
Qed.

(** For a prime the factor list is [[p]], not empty: no error is raised
    and the order is the sequential one. *)
Lemma herman_meyer_order_prime (p : Z) :
  prime p -> _herman_meyer_order p = Ok (range p).
Proof.
  intros Hp. assert (1 < p) by (by destruct Hp).
  unfold _herman_meyer_order. rewrite (factorise_prime p Hp).
  cbn [length Nat.eqb seq fold_left]. f_equal.
  unfold factor_step. cbn [Nat.eqb take drop prod fold_left lookup_total].
  replace ([p] !!! 0%nat) with p by done.
  assert (Hzeros : forall l : list Z,
             map (fun _ => 0) l = replicate (length l) 0)
    by (induction l; cbn; congruence).
  rewrite Hzeros. unfold range. rewrite length_map, length_seq.
  rewrite element_loop_single_factor by lia.
  cbn [snd]. rewrite Nat.sub_diag. cbn [replicate]. by rewrite app_nil_r.
Qed.

End HermanMeyerFacts.

(** ** The sampler *)

Module SamplerFacts.
Section SamplerFacts.
Context {F : Type} `{Scalar F} {G : Type}.
Variable gen_init : Z -> G.
Variable gen_permutation : G -> list Z -> list Z * G.
Variable gen_choice : G -> Z -> list F -> result Z * G.

Import Sampler.
Local Abbreviation t := (@Sampler.t F).
Local Abbreviation state := (@Sampler.state F G).
Local Abbreviation next := (Sampler.next gen_permutation gen_choice).
Local Abbreviation next_on := (Sampler.next_on gen_permutation gen_choice).
Local Abbreviation draws_on := (Sampler.draws_on gen_permutation gen_choice).
Local Abbreviation get_samples :=
  (Sampler.get_samples gen_init gen_permutation gen_choice).
Local Abbreviation draws n := (Sampler.repeat_call n next).


(** [next] never rebinds [self.generator], nor any attribute but the cursor
    and the working order. *)
Lemma next_on_frame g (self : t) r g' self' :
  next_on g self = (r, (g', self')) ->
  exists o c, self' = set_order o (set_last_subset c self).
Proof.
  destruct self as [ty n sd l o io it p sh c].
  unfold Sampler.next_on, _next_order_on, _next_prob_on, mod_.
  cbn. intros Hn.
  repeat case_match; simplify_eq; cbn in *;
    unfold set_order, set_last_subset; cbn; eexists _, _; reflexivity.
Qed.

Lemma next_next_on h (self : t) g :
  h !! generator self = Some g ->
  next (h, self) = in_store h (next_on g self).
Proof.
  destruct self as [ty n sd l o io it p sh c]. cbn. intros Hg.
  unfold Sampler.next, Sampler.next_on, _next_order, _next_order_on,
    _next_prob, _next_prob_on, permutation, choice, on_store,
    get_self, set_self, load, store, bind, ret, raise, lift, in_store, mod_.
  cbn.
  repeat (case_match; simplify_eq; cbn in * ); rewrite ?Hg in *; simplify_eq;
    cbn; rewrite ?insert_id by done; try done.
Qed.


Lemma moved_refl (self : t) : moved self self.
Proof. exists (order self), (last_subset self). by destruct self. Qed.

Lemma moved_trans (s1 s2 s3 : t) : moved s1 s2 -> moved s2 s3 -> moved s1 s3.
Proof. intros (o & c & ->) (o' & c' & ->). exists o', c'. by destruct s1. Qed.

Lemma moved_generator (s1 s2 : t) : moved s1 s2 -> generator s2 = generator s1.
Proof. by intros (o & c & ->). Qed.

Lemma draws_on_frame n : forall g (self : t) r g' self',
  draws_on n g self = (r, (g', self')) -> moved self self'.
Proof.
  induction n as [|n IH]; intros g self r g' self'; cbn.
  - intros [= _ _ ->]. apply moved_refl.
  - destruct (next_on g self) as [[a|e] [g1 s1]] eqn:Hnext.
    + apply next_on_frame in Hnext.
      destruct (draws_on n g1 s1) as [[l|e] [g2 s2]] eqn:Hrest;
        intros [= _ _ ->]; apply IH in Hrest;
        (eapply moved_trans; [exact Hnext|exact Hrest]).
    + intros [= _ _ ->]. by apply next_on_frame in Hnext.
Qed.

Lemma draws_draws_on n : forall h (self : t) g,
  h !! generator self = Some g ->
  repeat_call n next (h, self) = in_store h (draws_on n g self).
Proof.
  induction n as [|n IH]; intros h self g Hg.
  - cbn. unfold ret, in_store. cbn. by rewrite insert_id.
  - cbn [repeat_call draws_on]. unfold bind at 1.
    rewrite (next_next_on h self g Hg).
    destruct (next_on g self) as [[a|e] [g1 s1]] eqn:Hnext; [|done].
    pose proof (moved_generator _ _ (next_on_frame _ _ _ _ _ Hnext)) as Hl.
    unfold in_store at 1. cbn [fst snd]. unfold bind at 1.
    rewrite (IH _ s1 g1) by (rewrite Hl; apply lookup_insert_eq).
    destruct (draws_on n g1 s1) as [[l|e] [g2 s2]] eqn:Hrest;
      pose proof (moved_generator _ _ (draws_on_frame _ _ _ _ _ _ Hrest)) as Hl2;
      unfold in_store, ret; cbn [fst snd];
      rewrite Hl2, Hl, insert_insert_eq; done.
Qed.


(** Which object is the generator does not matter to a draw. *)
Lemma next_on_set_generator l g (self : t) :
  next_on g (set_generator l self) =
  (fst (next_on g self),
   (fst (snd (next_on g self)), set_generator l (snd (snd (next_on g self))))).
Proof.
  destruct self as [ty n sd l0 o io it p sh c].
  unfold Sampler.next_on, _next_order_on, _next_prob_on, mod_. cbn.
  repeat (case_match; simplify_eq; cbn in * ); done.
Qed.

Lemma draws_on_set_generator l n : forall g (self : t),
  draws_on n g (set_generator l self) =
  (fst (draws_on n g self),
   (fst (snd (draws_on n g self)),
    set_generator l (snd (snd (draws_on n g self))))).
Proof.
  induction n as [|n IH]; intros g self; [done|].
  cbn [draws_on]. rewrite next_on_set_generator.
  destruct (next_on g self) as [[a|e] [g1 s1]]; cbn [fst snd]; [|done].
  rewrite IH. by destruct (draws_on n g1 s1) as [[out|e] [g2 s2]].
Qed.

(** [get_samples] in one step: a new generator object at a location no
    live object has, the draws replayed on it, and [self] put back. *)
Lemma get_samples_unfold k h (self : t) :
  0 <= seed self < 2 ^ 32 ->
  get_samples k (h, self) =
  let l := fresh (dom h) in
  match draws_on (Z.to_nat k) (gen_init (seed self)) (as_constructed self) with
  | (Ok out, (g', _)) => (Ok out, (<[l := g']> h, self))
  | (Raise e, (g', self')) => (Raise e, (<[l := g']> h, set_generator l self'))
  end.
Proof.
  intros Hseed. unfold Sampler.get_samples, RandomState.
  unfold bind, get_self, set_self, on_store, alloc, ret. cbn [fst snd].
  replace ((0 <=? seed self) && (seed self <? 2 ^ 32)) with true
    by (symmetry; apply andb_true_iff; split; [apply Z.leb_le|apply Z.ltb_lt]; lia).
  cbn [fst snd].
  match goal with
  | |- context [repeat_call _ _ (?h', ?s')] =>
      rewrite (draws_draws_on (Z.to_nat k) h' s' (gen_init (seed self)))
        by (destruct self; apply lookup_insert_eq)
  end.
  change (set_generator ?l (set_order ?o (set_last_subset ?c self)))
    with (set_generator l (as_constructed self)).
  rewrite draws_on_set_generator.
  destruct (draws_on (Z.to_nat k) (gen_init (seed self)) (as_constructed self))
    as [[out|e] [g2 s2]] eqn:Hd; unfold in_store; cbn [fst snd];
    rewrite insert_insert_eq.
  - apply draws_on_frame in Hd. destruct Hd as (o & c & ->).
    by destruct self.
  - by destruct s2.
Qed.


Local Abbreviation ready := (Sampler.ready gen_choice).
Local Abbreviation can_draw := (Sampler.can_draw gen_choice).
Local Abbreviation constructed := (Sampler.constructed gen_init).
Local Abbreviation factory_built := (Sampler.factory_built gen_init).
Local Abbreviation reachable :=
  (Sampler.reachable gen_init gen_permutation gen_choice).

Lemma init_inv now n ty sh o p sd h (self : t) h' :
  __init__ gen_init now n ty sh o p sd h = (Ok self, h') ->
  0 <= (if sd is Some x then x else now) < 2 ^ 32 /\
  self = mk ty n (if sd is Some x then x else now) (fresh (dom h)) o o
            (if p is Some _ then Some next_prob_method
             else if o is Some _ then Some next_order_method else None)
            p sh (n - 1) /\
  h' = <[fresh (dom h) := gen_init (if sd is Some x then x else now)]> h.
Proof.
  unfold Sampler.__init__, RandomState, bind, alloc, ret, raise.
  destruct (Z.leb_spec 0 (if sd is Some x then x else now)) as [H0|];
    [|cbn; by destruct sd].
  destruct (Z.ltb_spec (if sd is Some x then x else now) (2 ^ 32)) as [H1|];
    [|cbn; by destruct sd].
  cbn. intros [= <- <-]. split_and!; done.
Qed.

Lemma init_constructed now n ty sh o p sd h (self : t) h' :
  __init__ gen_init now n ty sh o p sd h = (Ok self, h') ->
  constructed (h', self).
Proof.
  intros (Hsd & -> & ->)%init_inv. unfold Sampler.constructed. cbn.
  rewrite lookup_insert_eq. split_and!; done || lia.
Qed.

Lemma factory_built_constructed st : factory_built st -> constructed st.
Proof.
  destruct 1 as [now n h h' s Hb|now l h h' s Hb|now n h h' s Hb
                |now n off h h' s Hb|now n p sd h h' s Hb|now n sd sh h h' s Hb].
  - by apply init_constructed in Hb.
  - by apply init_constructed in Hb.
  - unfold Sampler.hermanMeyer, bind, lift in Hb.
    destruct (HermanMeyer._herman_meyer_order n); [|done].
    by apply init_constructed in Hb.
  - unfold Sampler.staggered in Hb. destruct (n <=? off); [done|].
    by apply init_constructed in Hb.
  - unfold Sampler.randomWithReplacement, bind, lift, ret in Hb.
    destruct p as [p|]; [by apply init_constructed in Hb|].
    destruct (int_truediv 1 n); [|done].
    by apply init_constructed in Hb.
  - by apply init_constructed in Hb.
Qed.


Lemma getitem_in_range {A} (l : list A) (i : Z) :
  0 <= i < len l -> exists a, getitem l i = Ok a /\ l !! Z.to_nat i = Some a.
Proof.
  unfold getitem, len. intros Hi.
  destruct (Z.ltb_spec i 0); [lia|]. destruct (Z.ltb_spec i 0); [lia|].
  destruct (lookup_lt_is_Some_2 l (Z.to_nat i)) as [a Ha]; [lia|].
  rewrite Ha. eauto.
Qed.

Lemma moved_as_constructed (s1 s2 : t) :
  moved s1 s2 -> as_constructed s2 = as_constructed s1.
Proof. intros (o & c & ->). by destruct s1. Qed.

Lemma constructed_ready h (self : t) :
  constructed (h, self) -> can_draw self -> ready self.
Proof.
  intros (_ & _ & Hc & Hit). unfold Sampler.can_draw, Sampler.ready.
  cbn [fst snd] in *. destruct (prob self) as [p|]; [done|].
  intros (Hn & o & Ho & Hlen).
  assert (order self = Some o) as Hord.
  { rewrite <- Hc. destruct self. cbn in *. done. }
  rewrite Hord in Hit. eauto 6.
Qed.

(** *** Herman-Meyer samplers *)

Lemma herman_meyer_order_12 :
  HermanMeyer._herman_meyer_order 12 = Ok [0; 6; 3; 9; 1; 7; 4; 10; 2; 8; 5; 11].
Proof. reflexivity. Qed.

(** C7.  [Sampler.hermanMeyer(12).get_samples(16)] is
    [[0,6,3,9,1,7,4,10,2,8,5,11,0,6,3,9]]: the order built from
    12 = 2*2*3, cycled past one period.  ([now] is the clock reading that
    seeds the generator, [h] the store the sampler is built in.) *)
Theorem hermanMeyer_12_get_samples_16 now h :
  0 <= now < 2 ^ 32 ->
  exists (self : t) h' h'',
    hermanMeyer gen_init now 12 h = (Ok self, h') /\
    get_samples 16 (h', self)
    = (Ok [0; 6; 3; 9; 1; 7; 4; 10; 2; 8; 5; 11; 0; 6; 3; 9], (h'', self)).
Proof.
  intros Hnow. unfold Sampler.hermanMeyer, bind, lift.
  rewrite herman_meyer_order_12.
  destruct (__init__ gen_init now 12 herman_meyer_type false
              (Some [0; 6; 3; 9; 1; 7; 4; 10; 2; 8; 5; 11]) None None h)
    as [r h'] eqn:Hinit.
  assert (exists self, r = Ok self) as [self ->].
  { revert Hinit. unfold Sampler.__init__, RandomState, bind, alloc, ret.
    destruct (Z.leb_spec 0 now); [|lia].
    destruct (Z.ltb_spec now (2 ^ 32)); [|lia]. cbn. intros [= <- _]. eauto. }
  apply init_inv in Hinit as (_ & -> & ->).
  assert (forall l g, draws_on 16 g
            (as_constructed
               (mk herman_meyer_type 12 now l
                   (Some [0; 6; 3; 9; 1; 7; 4; 10; 2; 8; 5; 11])
                   (Some [0; 6; 3; 9; 1; 7; 4; 10; 2; 8; 5; 11])
                   (Some next_order_method) (@None (list F)) false (12 - 1)))
          = (Ok [0; 6; 3; 9; 1; 7; 4; 10; 2; 8; 5; 11; 0; 6; 3; 9],
             (g, mk herman_meyer_type 12 now l
                   (Some [0; 6; 3; 9; 1; 7; 4; 10; 2; 8; 5; 11])
                   (Some [0; 6; 3; 9; 1; 7; 4; 10; 2; 8; 5; 11])
                   (Some next_order_method) None false 3))) as Hdraws
    by reflexivity.
  eexists _, _, _. split; [done|].
  rewrite get_samples_unfold by done. cbn [seed]. by rewrite Hdraws.
Qed.

(** C8, what the code does.  For a prime [p] the factor list is [[p]],
    so the test [n_factors == 0] does not fire: [Sampler.hermanMeyer(p)]
    raises nothing and returns a sampler in sequential order. *)
Theorem hermanMeyer_prime_not_rejected now p h :
  prime p -> 0 <= now < 2 ^ 32 ->
  exists (self : t) h',
    hermanMeyer gen_init now p h = (Ok self, h') /\
    order self = Some (range p).
Proof.
  intros Hp Hnow. unfold Sampler.hermanMeyer, bind, lift.
  rewrite (HermanMeyerFacts.herman_meyer_order_prime p Hp).
  unfold Sampler.__init__, RandomState, bind, alloc, ret.
  destruct (Z.leb_spec 0 now); [|lia].
  destruct (Z.ltb_spec now (2 ^ 32)); [|lia]. cbn. eauto.
Qed.

(** From here on the generator's [permutation] is assumed to return a
    rearrangement of its argument, as numpy's does. *)
Hypothesis gen_permutation_perm :
  forall g l, fst (gen_permutation g l) ≡ₚ l.

Lemma next_on_ready g (self : t) :
  ready self ->
  exists i g' self', next_on g self = (Ok i, (g', self')) /\ ready self'.
Proof.
  destruct self as [ty n sd l o io it p sh c].
  unfold Sampler.ready, Sampler.next_on. cbn.
  destruct p as [p|].
  - intros [-> Hch]. unfold _next_prob_on. cbn.
    destruct (Hch g) as (i & g' & ->). eexists _, _, _. split; [done|].
    cbn. by split.
  - intros (-> & Hn & o' & -> & Hlen). unfold _next_order_on, mod_. cbn.
    assert ((n =? 0) = false) as Hn0 by (apply Z.eqb_neq; lia).
    assert (0 <= (c + 1) mod n < n) as Hc by (apply Z.mod_pos_bound; lia).
    rewrite ?Hn0. destruct (sh && (c =? n - 1)).
    + pose proof (gen_permutation_perm g o') as Hp.
      destruct (gen_permutation g o') as [o2 g2]. cbn in *.
      apply Permutation_length in Hp. rewrite Hn0.
      destruct (getitem_in_range o2 ((c + 1) mod n)) as (a & -> & _);
        [unfold len in *; lia|].
      eexists _, _, _. split; [done|]. cbn. unfold len in *.
      repeat split; try done; try lia. eexists. split; [done|lia].
    + cbn. rewrite ?Hn0.
      destruct (getitem_in_range o' ((c + 1) mod n)) as (a & -> & _); [lia|].
      eexists _, _, _. split; [done|]. cbn. eauto 6.
Qed.

Lemma draws_on_ready n : forall g (self : t),
  ready self ->
  exists out g' self', draws_on n g self = (Ok out, (g', self')) /\ ready self'.
Proof.
  induction n as [|n IH]; intros g self Hr; cbn; [eauto 6|].
  destruct (next_on_ready g self Hr) as (i & g1 & s1 & -> & Hr1).
  destruct (IH g1 s1 Hr1) as (out & g2 & s2 & -> & Hr2). eauto 6.
Qed.

(** The invariant of a usable sampler along any run. *)
Lemma reachable_invariant (st0 st : state) :
  constructed st0 -> can_draw (snd st0) -> reachable st0 st ->
  moved (snd st0) (snd st) /\ ready (snd st) /\
  exists g, fst st !! generator (snd st) = Some g.
Proof.
  intros Hc Hd Hreach.
  assert (ready (snd st0)) as Hr0
    by (destruct st0; by eapply constructed_ready).
  induction Hreach as [|[h s] r [h' s'] _ IH Hnext
                       |[h s] n r [h' s'] _ IH Hget].
  - split_and!; [apply moved_refl|done|]. destruct Hc as [Hg _]. eauto.
  - cbn [fst snd] in *. destruct IH as (Hm & Hr & g & Hg).
    rewrite (next_next_on h s g Hg) in Hnext.
    destruct (next_on_ready g s Hr) as (i & g1 & s1 & Hn & Hr1).
    pose proof (next_on_frame _ _ _ _ _ Hn) as Hm1.
    rewrite Hn in Hnext. unfold in_store in Hnext. cbn in Hnext.
    injection Hnext as <- <- <-.
    split_and!; [by eapply moved_trans|done|].
    exists g1. apply lookup_insert_eq.
  - cbn [fst snd] in *. destruct IH as (Hm & Hr & g & Hg).
    destruct Hc as (_ & Hseed & Hc0 & _).
    assert (seed s = seed (snd st0)) as Hsd
      by (destruct Hm as (o & c & ->); by destruct (snd st0)).
    rewrite get_samples_unfold in Hget by (rewrite Hsd; done).
    assert (ready (as_constructed s)) as Hrc
      by (rewrite (moved_as_constructed _ _ Hm), Hc0; done).
    destruct (draws_on_ready (Z.to_nat n) (gen_init (seed s)) _ Hrc)
      as (out & g2 & s2 & Hdr & _).
    rewrite Hdr in Hget. cbn in Hget. injection Hget as <- <- <-.
    split_and!; [done..|]. exists g.
    rewrite lookup_insert_ne; [done|].
    intros Heq. pose proof (is_fresh (dom h)) as Hfresh.
    rewrite Heq in Hfresh. apply Hfresh, elem_of_dom. eauto.
Qed.


(** *** Sampling without replacement *)

Lemma draws_on_app a b : forall g (self : t),
  draws_on (a + b) g self =
  match draws_on a g self with
  | (Ok l1, (g1, s1)) =>
      match draws_on b g1 s1 with
      | (Ok l2, st) => (Ok (l1 ++ l2), st)
      | (Raise e, st) => (Raise e, st)
      end
  | (Raise e, st) => (Raise e, st)
  end.
Proof.
  induction a as [|a IH]; intros g self; cbn.
  - by destruct (draws_on b g self) as [[l|e] st].
  - destruct (next_on g self) as [[i|e] [g1 s1]]; [|done].
    rewrite IH. destruct (draws_on a g1 s1) as [[l1|e] [g2 s2]]; [|done].
    by destruct (draws_on b g2 s2) as [[l2|e] st].
Qed.

(** Away from the end of the order, draws walk along it. *)
Lemma draws_on_walk j : forall g (self : t) o,
  prob self = None -> iterator self = Some next_order_method ->
  order self = Some o -> len o = num_subsets self ->
  0 <= last_subset self ->
  last_subset self + Z.of_nat j <= num_subsets self - 1 ->
  draws_on j g self =
  (Ok (take j (drop (Z.to_nat (last_subset self + 1)) o)),
   (g, set_last_subset (last_subset self + Z.of_nat j) self)).
Proof.
  induction j as [|j IH]; intros g self o Hp Hit Ho Hlen Hc Hj.
  - cbn. rewrite Z.add_0_r. by destruct self.
  - cbn [draws_on]. destruct self as [ty n sd l ord io it p sh c].
    cbn [prob iterator order num_subsets last_subset] in *. subst.
    assert ((c =? len o - 1) = false) as Hend by (apply Z.eqb_neq; lia).
    assert ((len o =? 0) = false) as Hn0 by (apply Z.eqb_neq; lia).
    unfold Sampler.next_on, _next_order_on, mod_. cbn.
    rewrite Hend, andb_false_r. cbn. rewrite Hn0, Z.mod_small by lia.
    destruct (getitem_in_range o (c + 1)) as (a & -> & Ha); [lia|].
    erewrite IH; cbn; try done; try lia.
    rewrite (drop_S _ _ _ Ha).
    replace (Z.to_nat (c + 1 + 1)) with (S (Z.to_nat (c + 1))) by lia.
    cbn. unfold set_last_subset. cbn. do 3 f_equal. lia.
Qed.

(** At the end of the order a shuffling sampler draws a new permutation
    and walks through all of it. *)
Lemma draws_on_cycle g (self : t) o :
  prob self = None -> iterator self = Some next_order_method ->
  shuffle self = true ->
  order self = Some o -> len o = num_subsets self -> 1 <= num_subsets self ->
  last_subset self = num_subsets self - 1 ->
  draws_on (Z.to_nat (num_subsets self)) g self =
  (Ok (fst (gen_permutation g o)),
   (snd (gen_permutation g o),
    set_order (Some (fst (gen_permutation g o))) self)).
Proof.
  intros Hp Hit Hsh Ho Hlen Hn Hc.
  replace (Z.to_nat (num_subsets self))
    with (S (Z.to_nat (num_subsets self - 1))) by lia.
  cbn [draws_on]. pose proof (gen_permutation_perm g o) as Hperm.
  apply Permutation_length in Hperm.
  destruct self as [ty n sd l ord io it p sh c]. cbn in *. subst.
  unfold Sampler.next_on, _next_order_on, mod_. cbn.
  assert ((len o =? 0) = false) as Hn0 by (apply Z.eqb_neq; lia).
  rewrite Z.eqb_refl. destruct (gen_permutation g o) as [o2 g2]. cbn in *.
  rewrite Hn0.
  replace (len o - 1 + 1) with (len o) by lia. rewrite Z.mod_same by lia.
  destruct (getitem_in_range o2 0) as (a & -> & Ha); [unfold len in *; lia|].
  erewrite draws_on_walk; cbn; try done; try (unfold len in *; lia).
  change (Z.to_nat (0 + 1)) with 1%nat.
  rewrite take_ge by (rewrite length_drop; unfold len in *; lia).
  change (Z.to_nat 0) with 0%nat in Ha.
  rewrite <- (drop_S _ _ _ Ha), drop_0.
  unfold set_last_subset, set_order. cbn. do 3 f_equal. lia.
Qed.


Lemma len_range n : 0 <= n -> len (range n) = n.
Proof. intros Hn. unfold len, range. rewrite length_map, length_seq. lia. Qed.

Lemma cycles_on n k : forall g (self : t),
  1 <= n -> cycle_start n self ->
  exists out g' self',
    draws_on (k * Z.to_nat n) g self = (Ok out, (g', self')) /\
    cycle_start n self'.
Proof.
  induction k as [|k IH]; intros g self Hn Hs; [cbn; eauto 6|].
  destruct Hs as (Hp & Hit & Hsh & Hnum & Hc & o & Ho & Hperm).
  assert (len o = n) as Hlen.
  { rewrite <- (len_range n) by lia. unfold len.
    by rewrite (Permutation_length Hperm). }
  replace (S k * Z.to_nat n)%nat with (Z.to_nat n + k * Z.to_nat n)%nat by lia.
  rewrite draws_on_app. subst n.
  rewrite (draws_on_cycle g self o) by (done || lia).
  destruct (IH (snd (gen_permutation g o))
               (set_order (Some (fst (gen_permutation g o))) self) Hn)
    as (out & g' & self' & -> & Hs'); [|eauto 6].
  destruct self. cbn in *. split_and!; try done.
  eexists. split; [done|]. by rewrite gen_permutation_perm.
Qed.

Lemma randomWithoutReplacement_built now n sd sh h (self : t) h' :
  randomWithoutReplacement gen_init now n sd sh h = (Ok self, h') ->
  constructed (h', self) /\
  self = mk random_without_replacement_type n (if sd is Some x then x else now)
            (fresh (dom h)) (Some (range n)) (Some (range n))
            (Some next_order_method) None sh (n - 1).
Proof.
  intros Hb. split; [by eapply init_constructed|].
  by apply init_inv in Hb as (_ & -> & _).
Qed.

(** C6.  [Sampler.randomWithoutReplacement(n, seed=s)] with [shuffle=True]:
    for every [k], the draws [k*n .. k*n+n-1] of [next()] are a permutation
    of [0 .. n-1], and a second sampler built with the same seed (at any
    time, in any store) draws the same sequence. *)
Theorem randomWithoutReplacement_cycles now n s h (self : t) h' :
  randomWithoutReplacement gen_init now n (Some s) true h = (Ok self, h') ->
  (forall k : nat, exists before block st st',
      draws (k * Z.to_nat n) (h', self) = (Ok before, st) /\
      draws (Z.to_nat n) st = (Ok block, st') /\
      block ≡ₚ range n) /\
  (forall now2 h2 (self2 : t) h2',
      randomWithoutReplacement gen_init now2 n (Some s) true h2
        = (Ok self2, h2') ->
      forall m, fst (draws m (h2', self2)) = fst (draws m (h', self))).
Proof.
  intros Hb. apply randomWithoutReplacement_built in Hb as [Hc Hself].
  destruct Hc as (Hg & _). cbn [fst snd] in Hg. split.
  - intros k. destruct (Z.le_gt_cases n 0) as [Hn|Hn].
    { replace (Z.to_nat n) with 0%nat by lia. rewrite Nat.mul_0_r. cbn.
      unfold ret. eexists [], [], _, _. split_and!; try done.
      unfold range. by replace (Z.to_nat n) with 0%nat by lia. }
    assert (cycle_start n self) as Hs.
    { subst self. unfold Sampler.cycle_start. cbn. split_and!; try done.
      by eexists. }
    rewrite (draws_draws_on _ _ _ _ Hg).
    destruct (cycles_on n k (gen_init (seed self)) self ltac:(lia) Hs)
      as (before & g1 & s1 & Hd & Hs1).
    pose proof (moved_generator _ _ (draws_on_frame _ _ _ _ _ _ Hd)) as Hl.
    rewrite Hd. unfold in_store. cbn [fst snd].
    destruct Hs1 as (Hp & Hit & Hsh & Hnum & Hcur & o & Ho & Hperm).
    assert (len o = n) as Hlen.
    { rewrite <- (len_range n) by lia. unfold len.
      by rewrite (Permutation_length Hperm). }
    eexists before, _, _, _. split; [done|].
    rewrite (draws_draws_on _ _ _ g1) by apply lookup_insert_eq.
    rewrite <- Hnum in *.
    rewrite (draws_on_cycle g1 s1 o) by (done || lia).
    unfold in_store. cbn [fst snd]. split; [done|].
    by rewrite gen_permutation_perm.
  - intros now2 h2 self2 h2' Hb2 m.
    apply randomWithoutReplacement_built in Hb2 as [Hc2 Hself2].
    destruct Hc2 as (Hg2 & _). cbn [fst snd] in Hg2.
    rewrite (draws_draws_on _ _ _ _ Hg), (draws_draws_on _ _ _ _ Hg2).
    replace self2 with (set_generator (generator self2) self)
      by (by subst).
    rewrite draws_on_set_generator. unfold in_store. cbn [fst snd].
    by subst.
Qed.


(** *** [get_samples] *)

(** C4, as it holds.  For a factory-built sampler that can draw, in every
    state [st] it reaches through calls of [next] and [get_samples],
    [get_samples(n)] returns; what it returns is the first [n] draws of
    the sampler as constructed; [self] (cursor, working order, reference
    to the generator) is what it was and so is every object of the store,
    the generator among them; a second call returns the same; and the
    draws that [next] makes afterwards are those it would have made
    without the call. *)
Theorem get_samples_replays (st0 st : state) (n : Z) :
  factory_built st0 -> can_draw (snd st0) -> reachable st0 st ->
  exists out h',
    get_samples n st = (Ok out, (h', snd st)) /\
    (forall l g, fst st !! l = Some g -> h' !! l = Some g) /\
    fst (draws (Z.to_nat n) st0) = Ok out /\
    fst (get_samples n (h', snd st)) = Ok out /\
    (forall m, fst (draws m (h', snd st)) = fst (draws m st)).
Proof.
  intros Hb%factory_built_constructed Hd Hreach.
  destruct (reachable_invariant st0 st Hb Hd Hreach) as (Hm & Hr & g & Hg).
  destruct st0 as [h0 s0], st as [h s]. cbn [fst snd] in *.
  pose proof (constructed_ready h0 s0 Hb Hd) as Hr0.
  destruct Hb as (Hg0 & Hseed & Hc0 & _). cbn [fst snd] in *.
  assert (seed s = seed s0) as Hsd
    by (destruct Hm as (o & c & ->); by destruct s0).
  assert (as_constructed s = s0) as Hcs
    by (by rewrite (moved_as_constructed _ _ Hm)).
  assert (fresh (dom h) ≠ generator s) as Hne.
  { intros Heq. pose proof (is_fresh (dom h)) as Hfresh.
    rewrite Heq in Hfresh. apply Hfresh, elem_of_dom. eauto. }
  destruct (draws_on_ready (Z.to_nat n) (gen_init (seed s0)) s0 Hr0)
    as (out & g2 & s2 & Hdr & _).
  exists out, (<[fresh (dom h) := g2]> h).
  rewrite !get_samples_unfold by (rewrite Hsd; done).
  rewrite Hsd, Hcs, Hdr. cbn [fst snd]. split_and!.
  - done.
  - intros l g' Hl. rewrite lookup_insert_ne; [done|].
    intros <-. pose proof (is_fresh (dom h)) as Hfresh.
    apply Hfresh, elem_of_dom. eauto.
  - by rewrite (draws_draws_on _ _ _ _ Hg0), Hdr.
  - done.
  - intros m. rewrite (draws_draws_on m h s g Hg).
    by rewrite (draws_draws_on m _ s g)
      by (by rewrite lookup_insert_ne).
Qed.

End SamplerFacts.
End SamplerFacts.

(** ** Concrete runs, with the toy generator and rational scalars *)

Module SamplerRuns.
Import Sampler.

Lemma toy_permutation_perm (g : ToyGen.G) (l : list Z) :
  fst (ToyGen.permutation g l) ≡ₚ l.
Proof.
  unfold ToyGen.permutation. cbn. destruct (len l =? 0); [done|].
  unfold rotate. by rewrite Permutation_app_comm, take_drop.
Qed.

Lemma prime_7 : prime 7.
Proof.
  apply prime_intro; [lia|]. intros n Hn.
  assert (n = 1 \/ n = 2 \/ n = 3 \/ n = 4 \/ n = 5 \/ n = 6)
    as [->|[->|[->|[->|[->| ->]]]]] by lia;
    (constructor; [apply Z.divide_1_l..|];
     intros x Hx Hx7; exact (Z.gcd_greatest _ _ _ Hx Hx7)).
Qed.

Lemma hermanMeyer_12_get_samples_16_witness :
  0 <= 0 < 2 ^ 32 /\
  exists (self : @t Q) h' h'',
    hermanMeyer ToyGen.init 0 12 (∅ : gmap loc ToyGen.G) = (Ok self, h') /\
    get_samples ToyGen.init ToyGen.permutation ToyGen.choice 16 (h', self)
    = (Ok [0; 6; 3; 9; 1; 7; 4; 10; 2; 8; 5; 11; 0; 6; 3; 9], (h'', self)).
Proof.
  split; [lia|].
  apply (SamplerFacts.hermanMeyer_12_get_samples_16
           ToyGen.init ToyGen.permutation ToyGen.choice 0 ∅). lia.
Defined.

Lemma hermanMeyer_prime_not_rejected_witness :
  prime 7 /\
  exists (self : @t Q) h',
    hermanMeyer ToyGen.init 0 7 (∅ : gmap loc ToyGen.G) = (Ok self, h') /\
    order self = Some (range 7).
Proof.
  split; [exact prime_7|].
  apply (SamplerFacts.hermanMeyer_prime_not_rejected ToyGen.init 0 7 ∅);
    [exact prime_7|lia].
Defined.

Abbreviation toy_next := (next (F:=Q) ToyGen.permutation ToyGen.choice).
Abbreviation toy_get_samples :=
  (get_samples (F:=Q) ToyGen.init ToyGen.permutation ToyGen.choice).

(** C4 as stated fails.  [Sampler.staggered(5, 0)] is built without error,
    with an empty order and the cursor at 4; [get_samples(1)] raises
    IndexError inside the replay and the cursor is left at 0. *)
Lemma get_samples_staggered_5_0_moves_cursor :
  exists (self : @t Q) h,
    staggered ToyGen.init 0 5 0 (∅ : gmap loc ToyGen.G) = (Ok self, h) /\
    last_subset self = 4 /\
    fst (toy_get_samples 1 (h, self)) = Raise IndexError /\
    last_subset (snd (snd (toy_get_samples 1 (h, self)))) = 0.
Proof. eexists _, _. split; [vm_compute; reflexivity|]. by vm_compute. Qed.

Lemma get_samples_replays_witness :
  exists (self : @t Q) h st,
    randomWithoutReplacement ToyGen.init 0 5 (Some 7) true
      (∅ : gmap loc ToyGen.G) = (Ok self, h) /\
    toy_next (h, self) = (Ok 2, st) /\
    exists out h',
      toy_get_samples 7 st = (Ok out, (h', snd st)) /\
      (forall l g, fst st !! l = Some g -> h' !! l = Some g) /\
      fst (repeat_call (Z.to_nat 7) toy_next (h, self)) = Ok out /\
      fst (toy_get_samples 7 (h', snd st)) = Ok out /\
      (forall m, fst (repeat_call m toy_next (h', snd st))
                 = fst (repeat_call m toy_next st)).
Proof.
  eexists _, _, _. split; [vm_compute; reflexivity|].
  split; [vm_compute; reflexivity|].
  eapply (SamplerFacts.get_samples_replays
            ToyGen.init ToyGen.permutation ToyGen.choice toy_permutation_perm).
  - by eapply (built_randomWithoutReplacement ToyGen.init 0 5 (Some 7) true ∅).
  - cbn. split; [lia|]. by eexists.
  - eapply reach_next; [apply reach_start|vm_compute; reflexivity].
Defined.

Lemma randomWithoutReplacement_cycles_witness :
  exists (self : @t Q) h,
    randomWithoutReplacement ToyGen.init 0 5 (Some 7) true
      (∅ : gmap loc ToyGen.G) = (Ok self, h) /\
    (forall k : nat, exists before block st st',
        repeat_call (k * Z.to_nat 5) toy_next (h, self) = (Ok before, st) /\
        repeat_call (Z.to_nat 5) toy_next st = (Ok block, st') /\
        block ≡ₚ range 5) /\
    (forall now2 h2 (self2 : @t Q) h2',
        randomWithoutReplacement ToyGen.init now2 5 (Some 7) true h2
          = (Ok self2, h2') ->
        forall m, fst (repeat_call m toy_next (h2', self2))
                  = fst (repeat_call m toy_next (h, self))).
Proof.
  eexists _, _. split; [vm_compute; reflexivity|].
  by eapply (SamplerFacts.randomWithoutReplacement_cycles
               ToyGen.init ToyGen.permutation ToyGen.choice
               toy_permutation_perm 0 5 7 ∅).
Defined.

End SamplerRuns.

(** ** Stores *)

Module StoreFacts.
Section StoreFacts.
Context {V : Type}.
Implicit Types (h : gmap loc V) (l : loc) (v : V).

Lemma fresh_not_live h : h !! fresh (dom h) = None.
Proof. apply not_elem_of_dom, is_fresh. Qed.

Lemma live_not_fresh h l v : h !! l = Some v -> l <> fresh (dom h).
Proof. intros Hl ->. by rewrite fresh_not_live in Hl. Qed.

Lemma load_live h l v : h !! l = Some v -> load l h = (Ok v, h).
Proof. unfold load. by intros ->. Qed.

Lemma store_live h l v w :
  h !! l = Some v -> store l w h = (Ok tt, <[l := w]> h).
Proof. unfold store. by intros ->. Qed.

Lemma alloc_keeps h l v w :
  h !! l = Some v -> snd (alloc w h) !! l = Some v.
Proof.
  intros Hl. cbn. rewrite lookup_insert_ne; [done|].
  apply not_eq_sym. by eapply live_not_fresh.
Qed.
End StoreFacts.
End StoreFacts.

(** ** ISTA and FISTA: set-up *)

Module ISTAFacts.
Section ISTAFacts.
Context {F : Type} `{Scalar F}.
Import Container StoreFacts.

Lemma copy_live (h : gmap loc (list F)) l v :
  h !! l = Some v ->
  copy l h = (Ok (fresh (dom h)), <[fresh (dom h) := v]> h).
Proof. intros Hl. unfold copy, bind. by rewrite (load_live _ _ _ Hl). Qed.

(** C9.  [set_up], of an ISTA or a FISTA instance ([cls]), raises ValueError
    when [f] and [g] are both [None] or zero-function placeholders, whatever
    the other arguments; [ISTA.__init__] and [FISTA.__init__] raise it too,
    so no instance exists to iterate. *)
Theorem set_up_rejects_zero_f_and_g cls loss initial v0 (f g : option (Function F))
    step_size step_size_rule preconditioner (h : gmap loc (list F)) :
  h !! initial = Some v0 ->
  ISTA.absent_or_zero f -> ISTA.absent_or_zero g ->
  kind ISTA.zero_functions_error = ValueError /\
  fst (ISTA.set_up cls loss initial f g step_size step_size_rule
                   preconditioner h) = Raise ISTA.zero_functions_error /\
  fst (ISTA.__init__ initial f g step_size step_size_rule preconditioner h)
    = Raise ISTA.zero_functions_error /\
  fst (FISTA.__init__ initial f g step_size step_size_rule preconditioner h)
    = Raise ISTA.zero_functions_error.
Proof.
  intros Hinit Hf Hg.
  assert (is_ZeroFunction (match f with Some f => f | None => ZeroFunction end)
          && is_ZeroFunction (match g with Some g => g | None => ZeroFunction end)
          = true) as Hzero.
  { destruct f, g; cbn in *; by rewrite ?Hf, ?Hg. }
  assert (forall cls loss (h : gmap loc (list F)), h !! initial = Some v0 ->
            fst (ISTA.set_up cls loss initial f g step_size step_size_rule
                             preconditioner h)
            = Raise ISTA.zero_functions_error) as Hset.
  { clear h Hinit cls loss. intros cls loss h Hinit.
    unfold ISTA.set_up. unfold bind at 1.
    rewrite (copy_live _ _ _ Hinit). unfold bind at 1.
    pose proof (alloc_keeps h initial v0 v0 Hinit) as Hinit1. cbn in Hinit1.
    rewrite (copy_live _ _ _ Hinit1). unfold bind at 1.
    pose proof (alloc_keeps _ initial v0 v0 Hinit1) as Hinit2. cbn in Hinit2.
    rewrite (copy_live _ _ _ Hinit2). by rewrite Hzero. }
  split_and!.
  - done.
  - by apply Hset.
  - by apply Hset.
  - unfold FISTA.__init__. unfold bind at 1. rewrite (copy_live _ _ _ Hinit).
    unfold bind at 1.
    pose proof (alloc_keeps h initial v0 v0 Hinit) as Hinit1. cbn in Hinit1.
    specialize (Hset ISTA.FISTA_class [] _ Hinit1).
    destruct (ISTA.set_up _ _ _ _ _ _ _ _ _) as [[b|e] h']; cbn in *; congruence.
Qed.
End ISTAFacts.
End ISTAFacts.

(** ** SPDHG: step sizes *)

Module StepSizeFacts.
Section StepSizeFacts.
Context {F : Type} `{Scalar F}.
Import Container SPDHG.

Lemma map_result_ok {A B} (f : A -> result B) (g : A -> B) (l : list A) :
  Forall (fun a => f a = Ok (g a)) l -> map_result f l = Ok (map g l).
Proof. induction 1 as [|a l Ha _ IH]; cbn; [done|]. by rewrite Ha, IH. Qed.

Lemma truediv_ok (a b : F) : fis_zero b = false -> truediv a b = Ok (fdiv a b).
Proof. unfold truediv. by intros ->. Qed.

Lemma tau_candidates_ok (c : F) (pw : list F) : forall norms : list F,
  Forall (fun ni => fis_zero (fmul (fdiv c ni) (fsq ni)) = false) norms ->
  map_result tau_candidate
    (zip (zip pw norms) (map Number (map (fun ni => fdiv c ni) norms)))
  = Ok (map (fun '(pi, ni, si) => fdiv pi (fmul si (fsq ni)))
            (zip (zip pw norms) (map (fun ni => fdiv c ni) norms))).
Proof.
  induction pw as [|p pw IH]; intros [|ni norms] Hden; cbn; try done.
  inversion_clear Hden as [|? ? Hni Hns].
  rewrite (truediv_ok _ _ Hni). by rewrite (IH _ Hns).
Qed.

Lemma sigmas_from_tau_ok (gamma rho tau : F) (pw : list F) :
  forall norms : list F,
  Forall (fun ni => fis_zero (fmul tau (fsq ni)) = false) norms ->
  map_result (fun '(ni, pi) => sigma_from_tau gamma rho (Number tau) ni pi)
             (zip norms pw)
  = Ok (map (fun '(ni, pi) =>
               Number (fdiv (fmul (fmul gamma rho) pi) (fmul tau (fsq ni))))
            (zip norms pw)).
Proof.
  intros norms Hden. revert pw.
  induction Hden as [|ni norms Hni _ IH]; intros [|p pw]; cbn; try done.
  rewrite (truediv_ok _ _ Hni). by rewrite IH.
Qed.

Context `{!ScalarLaws F}.

(** C2.  With neither [sigma] nor [tau] given, [set_step_sizes] assigns
    [sigma[i] = gamma*rho/norms[i]] for every block and
    [tau = (rho/gamma) * min(values exceeding 1e-8)], the values being
    [prob_weights[i] / (sigma[i] * norms[i]**2)], with [gamma = 1] and
    [rho = 0.99]; with [tau] given and [sigma] not, it assigns
    [sigma[i] = gamma*rho*prob_weights[i] / (tau * norms[i]**2)] for every
    block and keeps [tau].  (One probability weight per block, and no
    division by zero.) *)
Theorem set_step_sizes_default_formulas (self : step_sizes F) :
  let gamma := lit 1%Q in
  let rho := lit 0.99%Q in
  let norms := _norms self in
  let prob_weights := _prob_weights self in
  length prob_weights = length norms ->
  (let sigma := map (fun ni => fdiv (fmul gamma rho) ni) norms in
   let values := map (fun '(pi, ni, si) => fdiv pi (fmul si (fsq ni)))
                     (zip (zip prob_weights norms) sigma) in
   forall m,
     Forall (fun ni => fis_zero ni = false) norms ->
     Forall (fun ni => fis_zero (fmul (fdiv (fmul gamma rho) ni) (fsq ni)) = false)
            norms ->
     min_ (filter (fun v => flt (lit (1 # 100000000)%Q) v) values) = Ok m ->
     set_step_sizes None None self
     = (Ok tt, set_tau (Number (fmul (fdiv rho gamma) m))
                       (set_sigma (map Number sigma) self)) /\
     length sigma = length norms) /\
  (forall tau,
     flt (lit 0%Q) tau = true ->
     Forall (fun ni => fis_zero (fmul tau (fsq ni)) = false) norms ->
     set_step_sizes None (Some (Number tau)) self
     = (Ok tt, set_tau (Number tau)
                 (set_sigma
                    (map (fun '(ni, pi) =>
                            Number (fdiv (fmul (fmul gamma rho) pi)
                                         (fmul tau (fsq ni))))
                         (zip norms prob_weights)) self)) /\
     length (zip norms prob_weights) = length norms).
Proof.
  destruct self as [nd norms pw sg ta]. cbv zeta. cbn [_norms _prob_weights].
  intros Hlen. split.
  - intros m Hnz Hden Hmin.
    unfold set_step_sizes, bind, get, modify, lift, attribute, ret. cbn.
    rewrite (map_result_ok _ (fun ni => fdiv (fmul (lit 1%Q) (lit 0.99%Q)) ni)).
    2:{ eapply Forall_impl; [exact Hnz|]. intros ni Hni. by apply truediv_ok. }
    cbn. rewrite (tau_candidates_ok _ _ _ Hden), Hmin. cbn.
    unfold truediv. rewrite one_not_zero. cbn.
    by rewrite (fmul_comm m), length_map.
  - intros tau Hpos Hden.
    unfold set_step_sizes, bind, get, modify, lift, attribute, ret.
    cbv zeta. cbn [_norms _prob_weights].
    rewrite (sigmas_from_tau_ok _ _ _ _ _ Hden). cbn. rewrite Hpos.
    split; [done|]. rewrite length_zip. lia.
Qed.

(** C3, what the code does.  With scalar [tau] and scalar [sigma[0]],
    [check_convergence()] returns [False] if
    [sigma[0]*tau*norms[0]**2 > prob_weights[0]] and [True] otherwise: the
    [return True] sits inside the loop, so block 0 decides and no other
    block is looked at. *)
Theorem check_convergence_first_block (self : step_sizes F) s t n0 p0
    sigma norms prob_weights :
  1 <= _ndual_subsets self ->
  _tau self = Some (Number t) -> _sigma self = Some (Number s :: sigma) ->
  _norms self = n0 :: norms -> _prob_weights self = p0 :: prob_weights ->
  check_convergence self
  = (Ok (Some (negb (flt p0 (fmul (fmul s t) (fsq n0))))), self).
Proof.
  intros Hn Ht Hs Hno Hp. unfold check_convergence, bind at 1. cbn [get].
  unfold range. replace (Z.to_nat (_ndual_subsets self))
    with (S (Z.to_nat (_ndual_subsets self - 1))) by lia.
  cbn [seq map for_return].
  rewrite Ht, Hs, Hno, Hp. unfold bind, attribute, ret, lift. cbn.
  change (Z.of_nat 0) with 0. unfold getitem. cbn.
  change (Z.to_nat 0) with 0%nat. cbn.
  by destruct (flt p0 _).
Qed.

End StepSizeFacts.
End StepSizeFacts.

Module StepSizeRuns.
Import Container SPDHG.

(** Two blocks with norms 1 and probability weights 1/2; [sigma = [1/4, 1]]
    and [tau = 1] as passed to [set_step_sizes].  Block 1 has
    [sigma*tau*norm**2 = 1 > 1/2], yet [check_convergence()] returns
    [True]. *)
Lemma check_convergence_misses_block_1 :
  set_step_sizes (Some [Number (1 # 4)%Q; Number 1%Q]) (Some (Number 1%Q))
    (mk_steps 2 [1%Q; 1%Q] [(1 # 2)%Q; (1 # 2)%Q] None None)
  = (Ok tt, Toy.block_1_violates) /\
  flt (1 # 2)%Q (fmul (fmul 1%Q 1%Q) (fsq 1%Q)) = true /\
  check_convergence Toy.block_1_violates
  = (Ok (Some true), Toy.block_1_violates).
Proof. by vm_compute. Qed.

Lemma check_convergence_first_block_witness :
  1 <= _ndual_subsets Toy.block_1_violates /\
  check_convergence Toy.block_1_violates
  = (Ok (Some true), Toy.block_1_violates).
Proof.
  assert (1 <= _ndual_subsets Toy.block_1_violates) as Hblocks
    by (by vm_compute).
  split; [exact Hblocks|].
  exact (StepSizeFacts.check_convergence_first_block Toy.block_1_violates
           (1 # 4)%Q 1%Q 1%Q (1 # 2)%Q [Number 1%Q] [1%Q] [(1 # 2)%Q]
           Hblocks eq_refl eq_refl eq_refl eq_refl).
Defined.

End StepSizeRuns.

(** ** Frame rules: what a computation leaves alone *)

Module FrameRules.
Section FrameRules.
Context {V : Type} (l0 : loc) (v0 : V).
Import StoreFacts.

Lemma keeps_weaken {A} (m : M (gmap loc V) A) (Q Q' : A -> Prop) :
  keeps l0 v0 m Q -> (forall a, Q a -> Q' a) -> keeps l0 v0 m Q'.
Proof. intros Hm HQ h Hh. destruct (Hm h Hh) as [? ?]. eauto. Qed.

Lemma keeps_ret {A} (a : A) (Q : A -> Prop) : Q a -> keeps l0 v0 (ret a) Q.
Proof. intros HQ h Hh. cbn. split; [done|]. by intros ? [= <-]. Qed.

Lemma keeps_raise {A} e (Q : A -> Prop) : keeps l0 v0 (raise e) Q.
Proof. by intros h Hh. Qed.

Lemma keeps_lift {A} (r : result A) (Q : A -> Prop) :
  (forall a, r = Ok a -> Q a) -> keeps l0 v0 (lift r) Q.
Proof. by intros HQ h Hh. Qed.

Lemma keeps_bind {A B} (m : M (gmap loc V) A) (k : A -> M (gmap loc V) B)
    (Q : A -> Prop) (R : B -> Prop) :
  keeps l0 v0 m Q -> (forall a, Q a -> keeps l0 v0 (k a) R) ->
  keeps l0 v0 (bind m k) R.
Proof.
  intros Hm Hk h Hh. unfold bind. destruct (Hm h Hh) as [Hh' HQ].
  destruct (m h) as [[a|e] h']; cbn in *; [|done].
  by apply Hk; [apply HQ|].
Qed.

Lemma keeps_load l : keeps l0 v0 (load l) (fun _ => True).
Proof. intros h Hh. unfold load. by destruct (h !! l). Qed.

Lemma keeps_store l w : l <> l0 -> keeps l0 v0 (store l w) (fun _ => True).
Proof.
  intros Hl h Hh. unfold store. destruct (h !! l); cbn; [|done].
  by rewrite lookup_insert_ne.
Qed.

Lemma keeps_alloc w : keeps l0 v0 (alloc w) (fun l => l <> l0).
Proof.
  intros h Hh. split; [by apply alloc_keeps|].
  intros l [= <-]. apply not_eq_sym. by eapply live_not_fresh.
Qed.

Lemma keeps_map_M {A B} (f : A -> M (gmap loc V) B) (Q : B -> Prop) (l : list A) :
  (forall a, keeps l0 v0 (f a) Q) -> keeps l0 v0 (map_M f l) (Forall Q).
Proof.
  intros Hf. induction l as [|a l IH]; cbn [map_M].
  - by apply keeps_ret.
  - eapply keeps_bind; [apply Hf|]. intros b Hb.
    eapply keeps_bind; [apply IH|]. intros bs Hbs.
    apply keeps_ret. by constructor.
Qed.

(** Methods. *)
Context {St : Type} (Inv : St -> Prop).

Lemma keeps_self_weaken {A} (m : M (gmap loc V * St) A) (Q Q' : A -> Prop) :
  keeps_self l0 v0 Inv m Q -> (forall a, Q a -> Q' a) ->
  keeps_self l0 v0 Inv m Q'.
Proof. intros Hm HQ h s Hh Hs. destruct (Hm h s Hh Hs) as (? & ? & ?). eauto. Qed.

Lemma keeps_self_ret {A} (a : A) (Q : A -> Prop) :
  Q a -> keeps_self l0 v0 Inv (ret a) Q.
Proof. intros HQ h s Hh Hs. cbn. split_and!; [done..|]. by intros ? [= <-]. Qed.

Lemma keeps_self_raise {A} e (Q : A -> Prop) : keeps_self l0 v0 Inv (raise e) Q.
Proof. by intros h s Hh Hs. Qed.

Lemma keeps_self_lift {A} (r : result A) (Q : A -> Prop) :
  (forall a, r = Ok a -> Q a) -> keeps_self l0 v0 Inv (lift r) Q.
Proof. by intros HQ h s Hh Hs. Qed.

Lemma keeps_self_bind {A B} (m : M (gmap loc V * St) A)
    (k : A -> M (gmap loc V * St) B) (Q : A -> Prop) (R : B -> Prop) :
  keeps_self l0 v0 Inv m Q -> (forall a, Q a -> keeps_self l0 v0 Inv (k a) R) ->
  keeps_self l0 v0 Inv (bind m k) R.
Proof.
  intros Hm Hk h s Hh Hs. unfold bind. destruct (Hm h s Hh Hs) as (Hh' & Hs' & HQ).
  destruct (m (h, s)) as [[a|e] [h' s']]; cbn in *; [|done].
  by apply Hk; [apply HQ|..].
Qed.

Lemma keeps_self_on_store {A} (m : M (gmap loc V) A) (Q : A -> Prop) :
  keeps l0 v0 m Q -> keeps_self l0 v0 Inv (on_store m) Q.
Proof.
  intros Hm h s Hh Hs. unfold on_store. cbn. destruct (Hm h Hh) as [Hh' HQ].
  destruct (m h) as [r h']. cbn in *. split_and!; try done.
Qed.

Lemma keeps_self_get_self : keeps_self l0 v0 Inv get_self Inv.
Proof. intros h s Hh Hs. cbn. split_and!; try done. by intros ? [= <-]. Qed.

Lemma keeps_self_set_self (f : St -> St) :
  (forall s, Inv s -> Inv (f s)) ->
  keeps_self l0 v0 Inv (set_self f) (fun _ => True).
Proof. intros Hf h s Hh Hs. cbn. split_and!; by auto. Qed.

Lemma keeps_self_map_M {A B} (f : A -> M (gmap loc V * St) B) (Q : B -> Prop)
    (l : list A) :
  (forall a, keeps_self l0 v0 Inv (f a) Q) ->
  keeps_self l0 v0 Inv (map_M f l) (Forall Q).
Proof.
  intros Hf. induction l as [|a l IH]; cbn [map_M].
  - by apply keeps_self_ret.
  - eapply keeps_self_bind; [apply Hf|]. intros b Hb.
    eapply keeps_self_bind; [apply IH|]. intros bs Hbs.
    apply keeps_self_ret. by constructor.
Qed.

End FrameRules.
End FrameRules.

Module ContainerFrame.
Section ContainerFrame.
Context {F : Type} `{Scalar F} (l0 : loc) (v0 : list F).
Import Container FrameRules.

Lemma keeps_copy l : keeps l0 v0 (copy l) (fun l' => l' <> l0).
Proof.
  unfold copy. eapply keeps_bind; [apply keeps_load|]. intros v _.
  apply keeps_alloc.
Qed.

Lemma keeps_allocate n c : keeps l0 v0 (allocate n c) (fun l' => l' <> l0).
Proof. apply keeps_alloc. Qed.

Lemma keeps_fill self other :
  self <> l0 -> keeps l0 v0 (fill self other) (fun _ => True).
Proof.
  intros Hl. unfold fill. eapply keeps_bind; [apply keeps_load|]. intros v _.
  by apply keeps_store.
Qed.

Lemma keeps_sapyb self a other b out :
  out <> l0 -> keeps l0 v0 (sapyb self a other b out) (fun _ => True).
Proof.
  intros Hl. unfold sapyb. eapply keeps_bind; [apply keeps_load|]. intros x _.
  eapply keeps_bind; [apply keeps_load|]. intros y _. by apply keeps_store.
Qed.

Lemma keeps_subtract self other out :
  out <> l0 -> keeps l0 v0 (subtract self other out) (fun _ => True).
Proof.
  intros Hl. unfold subtract. eapply keeps_bind; [apply keeps_load|]. intros x _.
  eapply keeps_bind; [apply keeps_load|]. intros y _. by apply keeps_store.
Qed.

Lemma keeps_add self other out :
  out <> l0 -> keeps l0 v0 (add self other out) (fun _ => True).
Proof.
  intros Hl. unfold add. eapply keeps_bind; [apply keeps_load|]. intros x _.
  eapply keeps_bind; [apply keeps_load|]. intros y _. by apply keeps_store.
Qed.

Lemma keeps_gradient f x out :
  out <> l0 -> keeps l0 v0 (gradient f x out) (fun _ => True).
Proof.
  intros Hl. unfold gradient. eapply keeps_bind; [apply keeps_load|].
  intros v _. by apply keeps_store.
Qed.

Lemma keeps_proximal f x step out :
  out <> l0 -> keeps l0 v0 (proximal f x step out) (fun _ => True).
Proof.
  intros Hl. unfold proximal. eapply keeps_bind; [apply keeps_load|].
  intros v _. by apply keeps_store.
Qed.

Lemma keeps_proximal_conjugate f x step :
  keeps l0 v0 (proximal_conjugate f x step) (fun l' => l' <> l0).
Proof.
  unfold proximal_conjugate. eapply keeps_bind; [apply keeps_load|].
  intros v _. apply keeps_alloc.
Qed.

Lemma keeps_evaluate f x : keeps l0 v0 (evaluate f x) (fun _ => True).
Proof.
  unfold evaluate. eapply keeps_bind; [apply keeps_load|]. intros v _.
  by apply keeps_ret.
Qed.

Lemma keeps_direct K x : keeps l0 v0 (direct K x) (fun l' => l' <> l0).
Proof.
  unfold direct. eapply keeps_bind; [apply keeps_load|]. intros v _.
  apply keeps_alloc.
Qed.

Lemma keeps_adjoint_out K y out :
  out <> l0 -> keeps l0 v0 (adjoint_out K y out) (fun _ => True).
Proof.
  intros Hl. unfold adjoint_out. eapply keeps_bind; [apply keeps_load|].
  intros v _. by apply keeps_store.
Qed.

End ContainerFrame.
End ContainerFrame.

(** One step of a frame proof: the rule for the head of the computation. *)
Ltac frame_rule :=
  lazymatch goal with
  | |- keeps_self _ _ _ (bind _ _) _ =>
      eapply FrameRules.keeps_self_bind; [|intros ? ?]
  | |- keeps_self _ _ _ (on_store _) _ => apply FrameRules.keeps_self_on_store
  | |- keeps_self _ _ _ get_self _ => apply FrameRules.keeps_self_get_self
  | |- keeps_self _ _ _ (set_self _) _ => apply FrameRules.keeps_self_set_self
  | |- keeps_self _ _ _ (ret _) _ => apply FrameRules.keeps_self_ret
  | |- keeps_self _ _ _ (raise _) _ => apply FrameRules.keeps_self_raise
  | |- keeps_self _ _ _ (lift _) _ => apply FrameRules.keeps_self_lift
  | |- keeps _ _ (bind _ _) _ => eapply FrameRules.keeps_bind; [|intros ? ?]
  | |- keeps _ _ (ret _) _ => apply FrameRules.keeps_ret
  | |- keeps _ _ (raise _) _ => apply FrameRules.keeps_raise
  | |- keeps _ _ (lift _) _ => apply FrameRules.keeps_lift
  | |- keeps _ _ (load _) _ => apply FrameRules.keeps_load
  | |- keeps _ _ (store _ _) _ => apply FrameRules.keeps_store
  | |- keeps _ _ (alloc _) _ => apply FrameRules.keeps_alloc
  | |- keeps _ _ (Container.copy _) _ => apply ContainerFrame.keeps_copy
  | |- keeps _ _ (Container.allocate _ _) _ => apply ContainerFrame.keeps_allocate
  | |- keeps _ _ (Container.fill _ _) _ => apply ContainerFrame.keeps_fill
  | |- keeps _ _ (Container.sapyb _ _ _ _ _) _ => apply ContainerFrame.keeps_sapyb
  | |- keeps _ _ (Container.subtract _ _ _) _ => apply ContainerFrame.keeps_subtract
  | |- keeps _ _ (Container.add _ _ _) _ => apply ContainerFrame.keeps_add
  | |- keeps _ _ (Container.gradient _ _ _) _ => apply ContainerFrame.keeps_gradient
  | |- keeps _ _ (Container.proximal _ _ _ _) _ => apply ContainerFrame.keeps_proximal
  | |- keeps _ _ (Container.proximal_conjugate _ _ _) _ =>
      apply ContainerFrame.keeps_proximal_conjugate
  | |- keeps _ _ (Container.evaluate _ _) _ => apply ContainerFrame.keeps_evaluate
  | |- keeps _ _ (Container.direct _ _) _ => apply ContainerFrame.keeps_direct
  | |- keeps _ _ (Container.adjoint_out _ _ _) _ =>
      apply ContainerFrame.keeps_adjoint_out
  end.

(** The rule, or the rule under a weaker postcondition. *)
Ltac frame_step :=
  first
    [ frame_rule
    | eapply FrameRules.keeps_self_weaken; [frame_rule|]
    | eapply FrameRules.keeps_weaken; [frame_rule|] ].

Module ISTAFrame.
Section ISTAFrame.
Context {F : Type} `{Scalar F} (l0 : loc) (v0 : list F).
Import Container ISTA FrameRules ContainerFrame.

Lemma keeps_look (self : ISTA.t F) y t_ :
  keeps l0 v0 (look self y t_) (fun _ => True).
Proof.
  unfold look. do 3 (eapply keeps_bind; [apply keeps_load|intros ? _]).
  eapply (keeps_bind _ _ _ _ (fun _ => True)).
  - destruct y; [|by apply keeps_ret].
    eapply keeps_bind; [apply keeps_load|]. intros. by apply keeps_ret.
  - intros. by apply keeps_ret.
Qed.

Lemma keeps_precondition (self : ISTA.t F) y t_ :
  gradient_update self <> l0 ->
  keeps l0 v0 (precondition self y t_) (fun _ => True).
Proof.
  intros Hg. unfold precondition. destruct (preconditioner self).
  - eapply keeps_bind; [apply keeps_look|]. intros v _. repeat frame_step; done.
  - by frame_step.
Qed.

Lemma ista_keeps_update : keeps_self l0 v0 (apart l0) update (fun _ => True).
Proof.
  unfold update. frame_step; [frame_step|].
  match goal with Hs : apart _ _ |- _ => destruct Hs as (Hx & Hxo & Hg) end.
  frame_step; [frame_step; frame_step; done|].
  frame_step; [frame_step; by apply keeps_precondition|].
  frame_step; [frame_step; apply keeps_look|].
  frame_step; [frame_step; frame_step; done|].
  frame_step; frame_step; done.
Qed.

Lemma ista_keeps_update_previous_solution :
  keeps_self l0 v0 (apart l0) _update_previous_solution (fun _ => True).
Proof.
  unfold _update_previous_solution. frame_step; [frame_step|].
  match goal with Hs : apart _ _ |- _ => destruct Hs as (Hx & Hxo & Hg) end.
  frame_step. intros s (Hx' & Hxo' & Hg'). by split_and!.
Qed.

Lemma ista_keeps_update_objective :
  keeps_self l0 v0 (apart l0) update_objective (fun _ => True).
Proof.
  unfold update_objective. frame_step; [frame_step|].
  frame_step; [frame_step; frame_step|].
  frame_step; [frame_step; frame_step|].
  frame_step. by intros s (Hx' & Hxo' & Hg').
Qed.

Lemma ista_keeps_do_call c : keeps_self l0 v0 (apart l0) (do_call c) (fun _ => True).
Proof.
  destruct c; [apply ista_keeps_update|apply ista_keeps_update_previous_solution
              |apply ista_keeps_update_objective].
Qed.

Lemma ista_run_keeps calls : forall (st : ISTA.state F),
  fst st !! l0 = Some v0 -> apart l0 (snd st) ->
  fst (run calls st) !! l0 = Some v0.
Proof.
  induction calls as [|c calls IH]; intros [h s] Hh Hs; [done|].
  cbn [run fold_left]. destruct (ista_keeps_do_call c h s Hh Hs) as (Hh' & Hs' & _).
  by apply IH.
Qed.

(** [set_up] leaves [initial] as it is, whatever it is, and its buffers are
    new objects: copies of [initial]. *)
Lemma ista_keeps_set_up cls loss initial f g step_size rule pc :
  keeps l0 v0 (set_up cls loss initial f g step_size rule pc)
        (fun self => apart l0 self /\ ISTA.initial self = initial).
Proof.
  unfold set_up. do 3 (eapply keeps_bind; [apply keeps_copy|intros ? ?]).
  destruct (is_ZeroFunction _ && is_ZeroFunction _); [apply keeps_raise|].
  eapply (keeps_bind _ _ _ _ (fun _ => True)).
  - destruct rule as [r|].
    + destruct step_size; [apply keeps_raise|by apply keeps_ret].
    + eapply (keeps_bind _ _ _ _ (fun _ => True)); [by apply keeps_lift|].
      intros. by apply keeps_ret.
  - intros r _. apply keeps_ret. by split.
Qed.

Lemma set_up_copies cls loss initial f g step_size rule pc
    (h h1 : gmap loc (list F)) v (self : ISTA.t F) :
  h !! initial = Some v ->
  set_up cls loss initial f g step_size rule pc h = (Ok self, h1) ->
  h1 !! x self = Some v /\ h1 !! x_old self = Some v /\
  h1 !! gradient_update self = Some v /\
  x self <> initial /\ x_old self <> initial /\ gradient_update self <> initial.
Proof.
  intros Hinit. unfold set_up. unfold bind at 1.
  rewrite (ISTAFacts.copy_live _ _ _ Hinit). unfold bind at 1.
  pose proof (StoreFacts.alloc_keeps h initial v v Hinit) as Hinit1.
  cbn in Hinit1. rewrite (ISTAFacts.copy_live _ _ _ Hinit1). unfold bind at 1.
  pose proof (StoreFacts.alloc_keeps _ initial v v Hinit1) as Hinit2.
  cbn in Hinit2. rewrite (ISTAFacts.copy_live _ _ _ Hinit2).
  set (l1 := fresh (dom h)) in *.
  set (h1' := <[l1 := v]> h) in *. set (l2 := fresh (dom h1')) in *.
  set (h2 := <[l2 := v]> h1') in *. set (l3 := fresh (dom h2)) in *.
  assert (l1 <> initial) by (apply not_eq_sym; by eapply StoreFacts.live_not_fresh).
  assert (l2 <> initial) by (apply not_eq_sym; by eapply StoreFacts.live_not_fresh).
  assert (l3 <> initial) by (apply not_eq_sym; by eapply StoreFacts.live_not_fresh).
  assert (h1' !! l1 = Some v) as Hl1 by apply lookup_insert_eq.
  assert (h2 !! l2 = Some v) as Hl2 by apply lookup_insert_eq.
  assert (l2 <> l1) by (apply not_eq_sym; by eapply StoreFacts.live_not_fresh).
  assert (h2 !! l1 = Some v) as Hl12 by (subst h2; by rewrite lookup_insert_ne).
  assert (l3 <> l1) by (apply not_eq_sym; by eapply StoreFacts.live_not_fresh).
  assert (l3 <> l2) by (apply not_eq_sym; by eapply StoreFacts.live_not_fresh).
  destruct (is_ZeroFunction _ && is_ZeroFunction _); [done|].
  unfold bind, ret, raise, lift.
  intros Heq.
  assert (h1 = <[l3 := v]> h2 /\ x self = l2 /\ x_old self = l1 /\
          gradient_update self = l3) as (-> & -> & -> & ->).
  { destruct rule as [r|]; [destruct step_size; [done|]|];
      [|destruct (_calculate_default_step_size _ _ _); [|done]];
      injection Heq as <- <-; done. }
  rewrite lookup_insert_eq, !lookup_insert_ne by done. by split_and!.
Qed.

End ISTAFrame.
End ISTAFrame.

Module FISTAFrame.
Section FISTAFrame.
Context {F : Type} `{Scalar F} (l0 : loc) (v0 : list F).
Import Container FrameRules ContainerFrame.

Lemma keeps_inherited {A} (m : M (ISTA.state F) A) (Q : A -> Prop) :
  keeps_self l0 v0 (ISTA.apart l0) m Q ->
  keeps_self l0 v0 (FISTA.apart l0) (FISTA.inherited m) Q.
Proof.
  intros Hm h s Hh [Hb Hy]. unfold FISTA.inherited. cbn [fst snd].
  destruct (Hm h (FISTA.base s) Hh Hb) as (Hh' & Hb' & HQ).
  destruct (m (h, FISTA.base s)) as [r [h' b']]. cbn in *.
  split_and!; try done.
Qed.

Lemma fista_keeps_update :
  keeps_self l0 v0 (FISTA.apart l0) FISTA.update (fun _ => True).
Proof.
  unfold FISTA.update. frame_step; [frame_step|].
  match goal with
  | Hs : FISTA.apart _ _ |- _ => destruct Hs as ((Hx & Hxo & Hg) & Hy)
  end.
  frame_step; [frame_step; by intros s Hs|].
  frame_step; [frame_step; frame_step; done|].
  frame_step; [frame_step; by apply ISTAFrame.keeps_precondition|].
  frame_step; [frame_step; apply ISTAFrame.keeps_look|].
  frame_step; [frame_step; frame_step; done|].
  frame_step; [frame_step; frame_step; done|].
  frame_step; [frame_step; by intros s Hs|].
  frame_step; [frame_step; frame_step; done|].
  frame_step; frame_step; done.
Qed.

Lemma fista_keeps_do_call c :
  keeps_self l0 v0 (FISTA.apart l0) (FISTA.do_call c) (fun _ => True).
Proof.
  destruct c; [apply fista_keeps_update|..]; apply keeps_inherited.
  - apply ISTAFrame.ista_keeps_update_previous_solution.
  - apply ISTAFrame.ista_keeps_update_objective.
Qed.

Lemma fista_run_keeps calls : forall (st : FISTA.state F),
  fst st !! l0 = Some v0 -> FISTA.apart l0 (snd st) ->
  fst (FISTA.run calls st) !! l0 = Some v0.
Proof.
  induction calls as [|c calls IH]; intros [h s] Hh Hs; [done|].
  cbn [FISTA.run fold_left].
  destruct (fista_keeps_do_call c h s Hh Hs) as (Hh' & Hs' & _). by apply IH.
Qed.

Lemma keeps_init initial f g step_size rule pc :
  keeps l0 v0 (FISTA.__init__ initial f g step_size rule pc)
        (fun self => FISTA.apart l0 self /\
                     ISTA.initial (FISTA.base self) = initial).
Proof.
  unfold FISTA.__init__. eapply keeps_bind; [apply keeps_copy|intros y Hy].
  eapply keeps_bind; [apply ISTAFrame.ista_keeps_set_up|intros b [Hb Hi]].
  apply keeps_ret. by split.
Qed.

End FISTAFrame.
End FISTAFrame.

Module SPDHGFrame.
Section SPDHGFrame.
Context {F : Type} `{Scalar F} (l0 : loc) (v0 : list F).
Context {Smp : Type}.
Variable sampler_next : M Smp Z.
Variable getattr_prob_weights : Smp -> option (list F).
Variable random_with_replacement : Z -> list F -> Smp.
Variable set_norms : list F -> M (Container.BlockOperator F) unit.
Import Container FrameRules ContainerFrame.

Local Abbreviation update := (SPDHG.update sampler_next).
Local Abbreviation apart := (@SPDHG.apart F Smp l0).

Lemma getitem_Forall {A} (P : A -> Prop) (l : list A) i a :
  Forall P l -> getitem l i = Ok a -> P a.
Proof.
  intros HP. unfold getitem. destruct (_ <? 0); [done|].
  destruct (l !! _) as [b|] eqn:Hb; [|done]. intros [= <-].
  by eapply Forall_lookup_1.
Qed.

Lemma keeps_attribute {A} (a : option A) :
  keeps_self l0 v0 apart (SPDHG.attribute a) (fun _ => True).
Proof. destruct a; [by apply keeps_self_ret|apply keeps_self_raise]. Qed.

Lemma keeps_next_sample :
  keeps_self l0 v0 apart (SPDHG.next_sample sampler_next) (fun _ => True).
Proof.
  intros h s Hh Hs. unfold SPDHG.next_sample. cbn [fst snd].
  by destruct (sampler_next (SPDHG._sampler s)) as [r smp].
Qed.

Lemma spdhg_keeps_update : keeps_self l0 v0 apart update (fun _ => True).
Proof.
  unfold SPDHG.update. frame_step; [frame_step|].
  match goal with
  | Hs : SPDHG.apart _ _ |- _ => destruct Hs as (Hx & Hxt & Hz & Hzb & Hy)
  end.
  frame_step; [apply keeps_attribute|].
  frame_step; [frame_step; frame_step; done|].
  frame_step; [frame_step; frame_step; done|].
  frame_step; [apply keeps_next_sample|].
  eapply (keeps_self_bind _ _ _ _ _ (fun l => l <> l0)).
  { destruct (getitem _ _); [|apply keeps_self_raise]. frame_step. frame_step. }
  intros y_k Hyk.
  frame_step; [apply keeps_attribute|].
  eapply (keeps_self_bind _ _ _ _ _ (fun _ => True));
    [by apply keeps_self_lift|intros sigma_i _].
  eapply (keeps_self_bind _ _ _ _ _ (fun l => l <> l0));
    [apply keeps_self_lift; intros l Hl;
     exact (getitem_Forall (fun l => l <> l0) _ _ _ Hy Hl)|intros y_old_i Hyi].
  frame_step; [frame_step; frame_step; done|].
  eapply (keeps_self_bind _ _ _ _ _ (fun _ => True));
    [by apply keeps_self_lift|intros f_i _].
  eapply (keeps_self_bind _ _ _ _ _ (fun _ => True));
    [by apply keeps_self_lift|intros sigma_i' _].
  frame_step; [frame_step; frame_step|].
  eapply (keeps_self_bind _ _ _ _ _ (fun l => l <> l0));
    [apply keeps_self_lift; intros l Hl;
     exact (getitem_Forall (fun l => l <> l0) _ _ _ Hy Hl)|intros y1 Hy1].
  eapply (keeps_self_bind _ _ _ _ _ (fun l => l <> l0));
    [apply keeps_self_lift; intros l Hl;
     exact (getitem_Forall (fun l => l <> l0) _ _ _ Hy Hl)|intros y2 Hy2].
  frame_step; [frame_step; frame_step; done|].
  eapply (keeps_self_bind _ _ _ _ _ (fun _ => True));
    [by apply keeps_self_lift|intros K _].
  eapply (keeps_self_bind _ _ _ _ _ (fun l => l <> l0));
    [apply keeps_self_lift; intros l Hl;
     exact (getitem_Forall (fun l => l <> l0) _ _ _ Hy Hl)|intros y3 Hy3].
  frame_step; [frame_step; frame_step; done|].
  frame_step; [frame_step; frame_step; done|].
  eapply (keeps_self_bind _ _ _ _ _ (fun _ => True));
    [by apply keeps_self_lift|intros p_i _].
  eapply (keeps_self_bind _ _ _ _ _ (fun _ => True));
    [by apply keeps_self_lift|intros w _].
  frame_step; [frame_step; frame_step; done|].
  eapply (keeps_self_bind _ _ _ _ _ (fun l => l <> l0));
    [apply keeps_self_lift; intros l Hl;
     exact (getitem_Forall (fun l => l <> l0) _ _ _ Hy Hl)|intros y4 Hy4].
  frame_step; frame_step; done.
Qed.

Lemma keeps_block_convex_conjugate f y :
  keeps l0 v0 (SPDHG.block_convex_conjugate f y) (fun _ => True).
Proof.
  unfold SPDHG.block_convex_conjugate.
  eapply (keeps_bind _ _ _ _ (Forall (fun _ => True))).
  - apply keeps_map_M. intros [f_i y_i].
    eapply keeps_bind; [apply keeps_load|]. intros. by apply keeps_ret.
  - intros. by apply keeps_ret.
Qed.

Lemma keeps_block_adjoint op y :
  keeps l0 v0 (SPDHG.block_adjoint op y) (fun l => l <> l0).
Proof.
  unfold SPDHG.block_adjoint.
  eapply (keeps_bind _ _ _ _ (Forall (fun _ => True))).
  - apply keeps_map_M. intros [K y_i].
    eapply keeps_bind; [apply keeps_load|]. intros. by apply keeps_ret.
  - intros. apply keeps_alloc.
Qed.

Lemma spdhg_keeps_update_objective :
  keeps_self l0 v0 apart SPDHG.update_objective (fun _ => True).
Proof.
  unfold SPDHG.update_objective. frame_step; [frame_step|].
  eapply (keeps_self_bind _ _ _ _ _ (Forall (fun _ => True))).
  { apply keeps_self_map_M. intros [i op].
    eapply (keeps_self_bind _ _ _ _ _ (fun _ => True));
      [by apply keeps_self_lift|intros f_i _].
    frame_step; [frame_step; frame_step|]. frame_step. frame_step. }
  intros terms _.
  frame_step; [frame_step; frame_step|].
  frame_step; [frame_step; apply keeps_block_convex_conjugate|].
  frame_step; [frame_step; apply keeps_block_adjoint|].
  frame_step; [frame_step; frame_step|].
  frame_step; [frame_step; frame_step; done|].
  frame_step; [frame_step; frame_step|].
  frame_step. by intros s Hs.
Qed.

Lemma spdhg_keeps_do_call c :
  keeps_self l0 v0 apart (SPDHG.do_call sampler_next c) (fun _ => True).
Proof. destruct c; [apply spdhg_keeps_update|apply spdhg_keeps_update_objective]. Qed.

Lemma spdhg_run_keeps calls : forall (st : SPDHG.state F Smp),
  fst st !! l0 = Some v0 -> apart (snd st) ->
  fst (SPDHG.run sampler_next calls st) !! l0 = Some v0.
Proof.
  induction calls as [|c calls IH]; intros [h s] Hh Hs; [done|].
  cbn [SPDHG.run fold_left].
  destruct (spdhg_keeps_do_call c h s Hh Hs) as (Hh' & Hs' & _). by apply IH.
Qed.

Local Abbreviation set_up :=
  (SPDHG.set_up getattr_prob_weights random_with_replacement set_norms).

(** The part of [set_up] after the primal variable [x] is there. *)
Lemma keeps_set_up_buffers (x : loc) (P : SPDHG.t F Smp -> Prop)
    (mk_self : loc -> list loc -> loc -> loc -> SPDHG.t F Smp)
    (op : BlockOperator F) :
  (forall a b c d, Forall (fun l => l <> l0) b ->
     a <> l0 -> c <> l0 -> d <> l0 -> P (mk_self a b c d)) ->
  keeps l0 v0
    (let* _x_tmp := allocate (domain_size op) (lit 0%Q) in
     let* _y_old := map_M (fun K => allocate (range_size K) (lit 0%Q))
                          (operators op) in
     let* _z := allocate (domain_size op) (lit 0%Q) in
     let* _zbar := allocate (domain_size op) (lit 0%Q) in
     ret (mk_self _x_tmp _y_old _z _zbar)) P.
Proof.
  intros HP.
  eapply keeps_bind; [apply keeps_allocate|intros a Ha].
  eapply keeps_bind; [apply keeps_map_M; intros K; apply keeps_allocate|].
  intros b Hb.
  eapply keeps_bind; [apply keeps_allocate|intros c Hc].
  eapply keeps_bind; [apply keeps_allocate|intros d Hd].
  apply keeps_ret. by apply HP.
Qed.

Lemma spdhg_keeps_set_up loss f g operator sigma tau initial sampler prob_weights
    norms prob other :
  keeps l0 v0
    (set_up loss f g operator sigma tau initial sampler prob_weights
            norms prob other)
    apart.
Proof.
  unfold SPDHG.set_up. destruct operator as [op|]; [|apply keeps_raise].
  eapply (keeps_bind _ _ _ _ (fun _ => True));
    [by apply keeps_lift|intros ? _].
  destruct (SPDHG._deprecated_kwargs _ _ _ _ _ _) as [r' op'].
  do 2 (eapply (keeps_bind _ _ _ _ (fun _ => True));
        [by apply keeps_lift|intros ? _]).
  destruct (SPDHG.set_step_sizes _ _ _) as [r st].
  eapply (keeps_bind _ _ _ _ (fun _ => True)); [by apply keeps_lift|].
  intros _ _.
  eapply (keeps_bind _ _ _ _ (fun l => l <> l0)).
  { destruct initial; [apply keeps_copy|apply keeps_allocate]. }
  intros x Hx.
  apply (keeps_set_up_buffers x apart
           (fun a b c d => SPDHG.mk _ _ _ _ _ x a b c d _ _ _)).
  intros xt yo z zb Hyo Hxt Hz Hzb. by split_and!.
Qed.

(** [set_up] makes [x] a new object: a copy of [initial], or a zero
    container when [initial] is [None]. *)
Lemma set_up_x loss f g operator sigma tau initial sampler prob_weights
    norms prob other (h h1 : gmap loc (list F)) (self : SPDHG.t F Smp) :
  (forall i, initial = Some i -> is_Some (h !! i)) ->
  set_up loss f g operator sigma tau initial sampler prob_weights
         norms prob other h = (Ok self, h1) ->
  h !! SPDHG.x self = None /\
  h1 !! SPDHG.x self =
    match initial with
    | Some i => h !! i
    | None => Some (replicate (domain_size (SPDHG.operator self)) (lit 0%Q))
    end.
Proof.
  intros Hinit. unfold SPDHG.set_up.
  destruct operator as [op0|]; [|done].
  unfold bind at 1, lift at 1.
  destruct (match prob_weights with Some _ => _ | None => _ end)
    as [pw|e]; [|done].
  destruct (SPDHG._deprecated_kwargs _ _ _ _ _ _) as [[pw'|e] op]; [|done].
  unfold bind at 1, lift at 1.
  unfold bind at 1, lift at 1.
  destruct (match pw' with Some _ => _ | None => _ end) as [pw''|e]; [|done].
  destruct (SPDHG.set_step_sizes _ _ _) as [[[]|e] st]; [|done].
  unfold bind at 1, lift at 1. unfold bind at 1.
  assert (exists v,
            match initial with
            | Some i => h !! i
            | None => Some (replicate (domain_size op) (lit 0%Q))
            end = Some v /\
            (match initial with
             | Some i => copy i
             | None => allocate (domain_size op) (lit 0%Q)
             end) h = (Ok (fresh (dom h)), <[fresh (dom h) := v]> h))
    as (v & Hv & ->).
  { destruct initial as [i|].
    - destruct (Hinit i eq_refl) as [v Hv]. exists v. split; [done|].
      by apply ISTAFacts.copy_live.
    - by eexists. }
  intros Heq.
  match type of Heq with
  | ?m ?h' = _ =>
      assert (keeps (fresh (dom h)) v m
                (fun self => SPDHG.x self = fresh (dom h) /\
                             SPDHG.operator self = op)) as Hk
  end.
  { apply (FrameRules.keeps_bind _ _ _ _ (fun _ => True));
      [eapply FrameRules.keeps_weaken; [apply FrameRules.keeps_alloc|done]
      |intros a _].
    apply (FrameRules.keeps_bind _ _ _ _ (fun _ => True)).
    { eapply FrameRules.keeps_weaken;
        [apply FrameRules.keeps_map_M; intros K; apply FrameRules.keeps_alloc|done]. }
    intros b _.
    apply (FrameRules.keeps_bind _ _ _ _ (fun _ => True));
      [eapply FrameRules.keeps_weaken; [apply FrameRules.keeps_alloc|done]|intros c _].
    apply (FrameRules.keeps_bind _ _ _ _ (fun _ => True));
      [eapply FrameRules.keeps_weaken; [apply FrameRules.keeps_alloc|done]|intros d _].
    by apply FrameRules.keeps_ret. }
  assert (<[fresh (dom h) := v]> h !! fresh (dom h) = Some v) as Hlive
    by apply lookup_insert_eq.
  destruct (Hk _ Hlive) as [Hx HP].
  rewrite Heq in Hx, HP. cbn in Hx. destruct (HP self eq_refl) as [-> ->].
  split; [apply StoreFacts.fresh_not_live|]. by rewrite Hx, Hv.
Qed.

End SPDHGFrame.
End SPDHGFrame.

Module InitialFrame.
Section InitialFrame.
Context {F : Type} `{Scalar F} {Smp : Type}.
Variable sampler_next : M Smp Z.
Variable getattr_prob_weights : Smp -> option (list F).
Variable random_with_replacement : Z -> list F -> Smp.
Variable set_norms : list F -> M (Container.BlockOperator F) unit.
Import Container.

Local Abbreviation set_up :=
  (SPDHG.set_up getattr_prob_weights random_with_replacement set_norms).

(** C10.  [initial] is a live container with entries [v0].
    - ISTA ([set_up], for an ISTA or a FISTA instance): [set_up] leaves
      [initial] as it is; when it returns, [x] and [x_old] are other objects
      than [initial], holding copies of its entries; and no sequence of
      [update], [_update_previous_solution] and [update_objective] calls
      changes [initial].
    - FISTA ([__init__], which copies [initial] into [y] and runs [set_up]):
      the same, with [y] a copy too.
    - SPDHG ([set_up]): with [initial] passed, [x] is another object holding
      a copy; with [initial=None], [x] is a new container of zeros; in both
      cases no sequence of [update] and [update_objective] calls changes
      [initial]. *)
Theorem initial_is_never_mutated (initial : loc) (v0 : list F)
    (h : gmap loc (list F)) :
  h !! initial = Some v0 ->
  (forall cls loss f g step_size rule pc,
     let r := ISTA.set_up cls loss initial f g step_size rule pc h in
     snd r !! initial = Some v0 /\
     forall self, fst r = Ok self ->
       ISTA.x self <> initial /\ ISTA.x_old self <> initial /\
       snd r !! ISTA.x self = Some v0 /\ snd r !! ISTA.x_old self = Some v0 /\
       forall calls, fst (ISTA.run calls (snd r, self)) !! initial = Some v0) /\
  (forall f g step_size rule pc,
     let r := FISTA.__init__ initial f g step_size rule pc h in
     snd r !! initial = Some v0 /\
     forall self, fst r = Ok self ->
       ISTA.x (FISTA.base self) <> initial /\
       ISTA.x_old (FISTA.base self) <> initial /\ FISTA.y self <> initial /\
       snd r !! ISTA.x (FISTA.base self) = Some v0 /\
       snd r !! ISTA.x_old (FISTA.base self) = Some v0 /\
       snd r !! FISTA.y self = Some v0 /\
       forall calls, fst (FISTA.run calls (snd r, self)) !! initial = Some v0) /\
  (forall loss f g operator sigma tau sampler prob_weights norms prob other,
     (let r := set_up loss f g operator sigma tau (Some initial) sampler
                      prob_weights norms prob other h in
      snd r !! initial = Some v0 /\
      forall self, fst r = Ok self ->
        SPDHG.x self <> initial /\ snd r !! SPDHG.x self = Some v0 /\
        forall calls,
          fst (SPDHG.run sampler_next calls (snd r, self)) !! initial = Some v0) /\
     (let r := set_up loss f g operator sigma tau None sampler
                      prob_weights norms prob other h in
      snd r !! initial = Some v0 /\
      forall self, fst r = Ok self ->
        h !! SPDHG.x self = None /\
        snd r !! SPDHG.x self
          = Some (replicate (domain_size (SPDHG.operator self)) (lit 0%Q)) /\
        forall calls,
          fst (SPDHG.run sampler_next calls (snd r, self)) !! initial = Some v0)).
Proof.
  intros Hinit. split_and!.
  - intros cls loss f g step_size rule pc r.
    destruct (ISTAFrame.ista_keeps_set_up initial v0 cls loss initial f g step_size
                rule pc h Hinit) as [Hkept Hapart].
    fold r in Hkept, Hapart. split; [done|]. intros self Hself.
    destruct (Hapart self Hself) as [Hs _].
    destruct (ISTAFrame.set_up_copies cls loss initial f g step_size rule
                pc h (snd r) v0 self Hinit) as (Hx & Hxo & _ & Hnx & Hnxo & _).
    { subst r. destruct (ISTA.set_up _ _ _ _ _ _ _ _ _); cbn in *. by subst. }
    split_and!; try done. intros calls. by apply ISTAFrame.ista_run_keeps.
  - intros f g step_size rule pc. cbv zeta.
    destruct (FISTAFrame.keeps_init initial v0 initial f g step_size rule pc h
                Hinit) as [Hkept Hapart].
    destruct (FISTA.__init__ initial f g step_size rule pc h)
      as [res h2] eqn:Hr. cbn [fst snd] in *.
    split; [done|]. intros self ->.
    destruct (Hapart self eq_refl) as [Hs _].
    unfold FISTA.__init__ in Hr. unfold bind at 1 in Hr.
    rewrite (ISTAFacts.copy_live _ _ _ Hinit) in Hr. unfold bind at 1 in Hr.
    pose proof (StoreFacts.alloc_keeps h initial v0 v0 Hinit) as Hinit1.
    cbn in Hinit1.
    set (ly := fresh (dom h)) in *. set (h1 := <[ly := v0]> h) in *.
    assert (h1 !! ly = Some v0) as Hly by apply lookup_insert_eq.
    destruct (ISTAFrame.ista_keeps_set_up ly v0 ISTA.FISTA_class [] initial f g
                step_size rule pc h1 Hly) as [Hykept _].
    destruct (ISTA.set_up ISTA.FISTA_class [] initial f g step_size rule pc h1)
      as [[b|e] h3] eqn:Hset; [|done].
    cbn in Hr, Hykept. injection Hr as <- <-.
    destruct (ISTAFrame.set_up_copies _ _ _ _ _ _ _ _ _ _ _ _ Hinit1 Hset)
      as (Hx & Hxo & _ & Hnx & Hnxo & _).
    assert (ly <> initial)
      by (apply not_eq_sym; by eapply StoreFacts.live_not_fresh).
    cbn. split_and!; try done. intros calls. by apply FISTAFrame.fista_run_keeps.
  - intros loss f g operator sigma tau sampler prob_weights norms prob other.
    split.
    + intros r.
      destruct (SPDHGFrame.spdhg_keeps_set_up initial v0 getattr_prob_weights
                  random_with_replacement set_norms loss f g operator sigma tau (Some initial) sampler
                  prob_weights norms prob other h Hinit) as [Hkept Hapart].
      fold r in Hkept, Hapart. split; [done|]. intros self Hself.
      pose proof (Hapart self Hself) as Hs.
      destruct (SPDHGFrame.set_up_x getattr_prob_weights random_with_replacement set_norms
                  loss f g operator sigma tau (Some initial) sampler
                  prob_weights norms prob other h (snd r) self) as [Hnew Hx].
      { intros i [= <-]. eauto. }
      { subst r. destruct (SPDHG.set_up _ _ _ _ _ _ _ _ _ _ _ _ _ _ _ _);
          cbn in *. by subst. }
      split_and!; [by destruct Hs|by rewrite Hx|].
      intros calls. by apply SPDHGFrame.spdhg_run_keeps.
    + intros r.
      destruct (SPDHGFrame.spdhg_keeps_set_up initial v0 getattr_prob_weights
                  random_with_replacement set_norms loss f g operator sigma tau None sampler
                  prob_weights norms prob other h Hinit) as [Hkept Hapart].
      fold r in Hkept, Hapart. split; [done|]. intros self Hself.
      pose proof (Hapart self Hself) as Hs.
      destruct (SPDHGFrame.set_up_x getattr_prob_weights random_with_replacement set_norms
                  loss f g operator sigma tau None sampler
                  prob_weights norms prob other h (snd r) self) as [Hnew Hx].
      { by intros i. }
      { subst r. destruct (SPDHG.set_up _ _ _ _ _ _ _ _ _ _ _ _ _ _ _ _);
          cbn in *. by subst. }
      split_and!; try done. intros calls. by apply SPDHGFrame.spdhg_run_keeps.
Qed.

End InitialFrame.
End InitialFrame.

Module ContainerRuns.
Section ContainerRuns.
Context {F : Type} `{Scalar F}.
Import Container StoreFacts.
Implicit Types (h : gmap loc (list F)).

Lemma on_store_run {St A} (m : M (gmap loc (list F)) A) h (s : St) r h' :
  m h = (r, h') -> on_store m (h, s) = (r, (h', s)).
Proof. unfold on_store. cbn. by intros ->. Qed.

Lemma sapyb_run h self a other b out xs ys vo :
  h !! self = Some xs -> h !! other = Some ys -> h !! out = Some vo ->
  sapyb self a other b out h = (Ok tt, <[out := sapyb_entries a xs b ys]> h).
Proof.
  intros Hx Hy Ho. unfold sapyb, bind.
  by rewrite (load_live _ _ _ Hx), (load_live _ _ _ Hy), (store_live _ _ _ _ Ho).
Qed.

Lemma subtract_run h self other out xs ys vo :
  h !! self = Some xs -> h !! other = Some ys -> h !! out = Some vo ->
  subtract self other out h = (Ok tt, <[out := zip_with fsub xs ys]> h).
Proof.
  intros Hx Hy Ho. unfold subtract, bind.
  by rewrite (load_live _ _ _ Hx), (load_live _ _ _ Hy), (store_live _ _ _ _ Ho).
Qed.

Lemma add_run h self other out xs ys vo :
  h !! self = Some xs -> h !! other = Some ys -> h !! out = Some vo ->
  add self other out h = (Ok tt, <[out := zip_with fadd xs ys]> h).
Proof.
  intros Hx Hy Ho. unfold add, bind.
  by rewrite (load_live _ _ _ Hx), (load_live _ _ _ Hy), (store_live _ _ _ _ Ho).
Qed.

Lemma fill_run h self other ys vo :
  h !! other = Some ys -> h !! self = Some vo ->
  fill self other h = (Ok tt, <[self := ys]> h).
Proof.
  intros Hy Ho. unfold fill, bind.
  by rewrite (load_live _ _ _ Hy), (store_live _ _ _ _ Ho).
Qed.

Lemma proximal_run h f x step out xs vo :
  h !! x = Some xs -> h !! out = Some vo ->
  proximal f x step out h = (Ok tt, <[out := proximal_entries f xs step]> h).
Proof.
  intros Hx Ho. unfold proximal, bind.
  by rewrite (load_live _ _ _ Hx), (store_live _ _ _ _ Ho).
Qed.

Lemma proximal_conjugate_run h f x step xs :
  h !! x = Some xs ->
  proximal_conjugate f x step h
  = (Ok (fresh (dom h)),
     <[fresh (dom h) := proximal_conjugate_entries f xs step]> h).
Proof. intros Hx. unfold proximal_conjugate, bind. by rewrite (load_live _ _ _ Hx). Qed.

Lemma direct_run h K x xs :
  h !! x = Some xs ->
  direct K x h = (Ok (fresh (dom h)), <[fresh (dom h) := direct_entries K xs]> h).
Proof. intros Hx. unfold direct, bind. by rewrite (load_live _ _ _ Hx). Qed.

Lemma adjoint_out_run h K y out ys vo :
  h !! y = Some ys -> h !! out = Some vo ->
  adjoint_out K y out h = (Ok tt, <[out := adjoint_entries K ys]> h).
Proof.
  intros Hy Ho. unfold adjoint_out, bind.
  by rewrite (load_live _ _ _ Hy), (store_live _ _ _ _ Ho).
Qed.

Lemma getitem_elem_of {A} (l : list A) i a : getitem l i = Ok a -> a ∈ l.
Proof.
  unfold getitem. destruct (_ <? 0); [done|].
  destruct (l !! _) as [b|] eqn:Hb; [|done]. intros [= <-].
  by eapply list_elem_of_lookup_2.
Qed.


End ContainerRuns.
End ContainerRuns.

(** Read a location through the writes made since. *)
Ltac look_up :=
  repeat first
    [ rewrite lookup_insert_eq
    | rewrite lookup_insert_ne by (done || (apply not_eq_sym; done)) ];
  first [done | eassumption | reflexivity].

Module StoreInsertFacts.
Section StoreInsertFacts.
Context {V : Type}.
Implicit Types (h : gmap loc V) (l : loc) (v : V).

Lemma live_insert h k w l : is_Some (h !! l) -> is_Some (<[k := w]> h !! l).
Proof.
  intros Hl. destruct (decide (k = l)) as [->|].
  - rewrite lookup_insert_eq. eauto.
  - by rewrite lookup_insert_ne.
Qed.

Lemma is_Some_not_fresh h l : is_Some (h !! l) -> l <> fresh (dom h).
Proof. intros [v Hv]. by eapply StoreFacts.live_not_fresh. Qed.
End StoreInsertFacts.
End StoreInsertFacts.

Module UpdateFacts.
Section UpdateFacts.
Context {F : Type} `{Scalar F} {Smp : Type}.
Variable sampler_next : M Smp Z.
Import Container StoreFacts StoreInsertFacts ContainerRuns.

Local Abbreviation update := (SPDHG.update sampler_next).

Lemma configured_in_lookups (h : gmap loc (list F)) (self : SPDHG.t F Smp) :
  SPDHG.configured_in h self ->
  is_Some (h !! SPDHG.x self) /\ is_Some (h !! SPDHG._x_tmp self) /\
  is_Some (h !! SPDHG._z self) /\ is_Some (h !! SPDHG._zbar self) /\
  SPDHG.x self <> SPDHG._x_tmp self /\ SPDHG.x self <> SPDHG._z self /\
  SPDHG.x self <> SPDHG._zbar self /\ SPDHG._x_tmp self <> SPDHG._z self /\
  SPDHG._x_tmp self <> SPDHG._zbar self /\ SPDHG._z self <> SPDHG._zbar self /\
  forall l, l ∈ SPDHG._y_old self ->
    is_Some (h !! l) /\ l <> SPDHG.x self /\ l <> SPDHG._x_tmp self /\
    l <> SPDHG._z self /\ l <> SPDHG._zbar self.
Proof.
  intros [Hnd Hlive]. unfold SPDHG.buffers in *.
  rewrite !NoDup_cons in Hnd. rewrite !Forall_cons in Hlive.
  destruct Hnd as (Hx & Hxt & Hz & Hzb & Hy).
  destruct Hlive as (Lx & Lxt & Lz & Lzb & Ly).
  repeat rewrite not_elem_of_cons in Hx. repeat rewrite not_elem_of_cons in Hxt.
  repeat rewrite not_elem_of_cons in Hz.
  split_and!; try tauto.
  intros l Hl. rewrite Forall_forall in Ly.
  split_and!; [by apply Ly|intros ->; tauto..].
Qed.


(** C1, as it holds.  On a configured instance, in an [update] call that
    samples index [i] (block data: [K], [sigma_i], [f_i], [p_i], and the dual
    variable [y_old_i] with entries [yo]): with [x1] the new primal iterate,
    the dual ascent forms [y_k = sigma[i]*K_i(x1) + 1*y_old[i]] (it is [K_i(x)]
    that [sigma[i]] multiplies), block [i]'s proximal of the conjugate is
    applied to it with parameter [sigma[i]], and the result becomes the dual
    variable of block [i]; the other dual blocks are as they were. *)
Theorem update_dual_ascent (h : gmap loc (list F)) (self : SPDHG.t F Smp)
    tau sigma i smp' K sigma_i f_i p_i y_old_i xv zbv yo :
  SPDHG.configured_in h self ->
  SPDHG._tau (SPDHG.steps self) = Some tau ->
  SPDHG._sigma (SPDHG.steps self) = Some sigma ->
  sampler_next (SPDHG._sampler self) = (Ok i, smp') ->
  getitem (operators (SPDHG.operator self)) i = Ok K ->
  getitem sigma i = Ok sigma_i ->
  getitem (SPDHG._y_old self) i = Ok y_old_i ->
  getitem (SPDHG.f self) i = Ok f_i ->
  getitem (SPDHG._prob_weights (SPDHG.steps self)) i = Ok p_i ->
  fis_zero p_i = false ->
  h !! SPDHG.x self = Some xv -> h !! SPDHG._zbar self = Some zbv ->
  h !! y_old_i = Some yo ->
  let x1 := proximal_entries (SPDHG.g self)
              (sapyb_entries (Number (lit 1%Q)) xv (neg tau) zbv) tau in
  let y_k := sapyb_entries sigma_i (direct_entries K x1) (Number (lit 1%Q)) yo in
  exists h',
    update (h, self) = (Ok tt, (h', SPDHG.set_sampler smp' self)) /\
    h' !! SPDHG.x self = Some x1 /\
    h' !! y_old_i = Some (proximal_conjugate_entries f_i y_k sigma_i) /\
    forall l, l ∈ SPDHG._y_old self -> l <> y_old_i -> h' !! l = h !! l.
Proof.
  intros Hc Htau Hsigma Hnext HK Hsi Hyi Hfi Hpi Hp0 Hx Hzb Hyo x1 y_k.
  destruct (configured_in_lookups h self Hc)
    as (_ & [xt Hxt] & [zv Hz] & _ & Hn1 & Hn2 & Hn3 & Hn4 & Hn5 & Hn6 & Hy).
  destruct (Hy y_old_i (getitem_elem_of _ _ _ Hyi)) as (_ & Hm1 & Hm2 & Hm3 & Hm4).
  set (xt1 := sapyb_entries (Number (lit 1%Q)) xv (neg tau) zbv) in *.
  set (h2 := <[SPDHG.x self := x1]> (<[SPDHG._x_tmp self := xt1]> h)).
  set (ly := fresh (dom h2)).
  set (h4 := <[ly := y_k]> (<[ly := direct_entries K x1]> h2)).
  set (ly2 := fresh (dom h4)).
  set (y_new := proximal_conjugate_entries f_i y_k sigma_i).
  assert (forall l v, h !! l = Some v -> l <> ly) as Hly.
  { intros l v Hl. apply is_Some_not_fresh. subst h2.
    do 2 apply live_insert. eauto. }
  assert (forall l v, h !! l = Some v -> l <> ly2) as Hly2.
  { intros l v Hl. apply is_Some_not_fresh. subst h4 h2.
    do 4 apply live_insert. eauto. }
  assert (ly2 <> ly) as Hll.
  { apply not_eq_sym. eapply (live_not_fresh h4). subst h4.
    apply lookup_insert_eq. }
  pose proof (Hly _ _ Hx). pose proof (Hly _ _ Hxt). pose proof (Hly _ _ Hz).
  pose proof (Hly _ _ Hzb). pose proof (Hly _ _ Hyo).
  pose proof (Hly2 _ _ Hx). pose proof (Hly2 _ _ Hxt). pose proof (Hly2 _ _ Hz).
  pose proof (Hly2 _ _ Hzb). pose proof (Hly2 _ _ Hyo).
  eexists. split.
  - unfold SPDHG.update. unfold bind at 1. cbn [get_self fst snd].
    rewrite Htau, Hsigma. unfold bind at 1. cbn [SPDHG.attribute ret].
    unfold bind at 1.
    rewrite (on_store_run _ _ _ _ _ (sapyb_run _ _ _ _ _ _ _ _ _ Hx Hzb Hxt)).
    fold xt1. unfold bind at 1.
    erewrite on_store_run; [|eapply proximal_run; look_up].
    unfold bind at 1. unfold SPDHG.next_sample at 1. cbn [fst snd].
    rewrite Hnext. unfold bind at 1.
    cbn [SPDHG.operator SPDHG.set_sampler SPDHG.f SPDHG.g SPDHG.x SPDHG._x_tmp
         SPDHG._y_old SPDHG._z SPDHG._zbar SPDHG.steps SPDHG._theta].
    rewrite HK. unfold bind at 1.
    erewrite on_store_run; [|eapply direct_run; look_up].
    fold x1 h2 ly.
    unfold bind at 1. cbn [ret SPDHG.attribute]. rewrite Hsi, Hyi, Hfi, Hpi.
    unfold bind at 1. cbn [lift]. unfold bind at 1. cbn [lift].
    unfold bind at 1.
    erewrite on_store_run; [|eapply sapyb_run; subst h2; look_up].
    fold y_k h4.
    unfold bind at 1. cbn [lift]. unfold bind at 1. cbn [lift].
    unfold bind at 1.
    erewrite on_store_run; [|eapply proximal_conjugate_run; subst h4; look_up].
    fold y_k y_new ly2.
    unfold bind at 1. cbn [lift]. unfold bind at 1. cbn [lift].
    unfold bind at 1.
    erewrite on_store_run; [|eapply subtract_run; subst h4 h2; look_up].
    unfold bind at 1. cbn [lift]. unfold bind at 1. cbn [lift].
    unfold bind at 1.
    erewrite on_store_run; [|eapply adjoint_out_run; subst h4 h2; look_up].
    unfold bind at 1.
    erewrite on_store_run; [|eapply add_run; subst h4 h2; look_up].
    unfold bind at 1. cbn [lift]. unfold truediv. rewrite Hp0.
    unfold bind at 1. cbn [lift]. unfold bind at 1.
    erewrite on_store_run; [|eapply sapyb_run; subst h4 h2; look_up].
    unfold bind. cbn [lift].
    erewrite on_store_run; [|eapply fill_run; subst h4 h2; look_up].
    reflexivity.
  - subst h4 h2. split_and!; [look_up..|].
    intros l Hl Hne. destruct (Hy l Hl) as ([v Hv] & ? & ? & ? & ?).
    pose proof (Hly _ _ Hv). pose proof (Hly2 _ _ Hv). look_up.
Qed.

End UpdateFacts.
End UpdateFacts.

Module SPDHGRuns.
Import Container.

(** C1 as stated fails.  After [set_up], [x = [1]] and [y_old[0] = [0]];
    [update] leaves [y_old[0] = [2] = 2*K(x) + y_old[0]], where the
    specification's [sigma*y_old[0] + K(x)] is [[1]]. *)
Lemma update_ascent_not_as_specified :
  exists self h h' s',
    Toy.one_block = (Ok self, h) /\
    SPDHG._y_old self = [4%positive] /\
    h !! SPDHG.x self = Some [1%Q] /\ h !! 4%positive = Some [0%Q] /\
    Toy.update (h, self) = (Ok tt, (h', s')) /\
    h' !! 4%positive = Some [2%Q] /\
    proximal_conjugate_entries Toy.plain
      (Toy.ascent_as_specified (Number 2%Q) [0%Q]
         (direct_entries (Toy.scaling 1) [1%Q])) (Number 2%Q) = [1%Q].
Proof.
  eexists _, _, _, _. split; [vm_compute; reflexivity|].
  split; [vm_compute; reflexivity|].
  split; [vm_compute; reflexivity|].
  split; [vm_compute; reflexivity|].
  split; [vm_compute; reflexivity|].
  split; vm_compute; reflexivity.
Qed.


Lemma update_dual_ascent_witness :
  exists self h,
    Toy.one_block = (Ok self, h) /\
    let x1 := proximal_entries Toy.plain
                (sapyb_entries (Number (lit 1%Q)) [1%Q] (neg (Number 1%Q)) [0%Q])
                (Number 1%Q) in
    let y_k := sapyb_entries (Number 2%Q) (direct_entries (Toy.scaling 1) x1)
                 (Number (lit 1%Q)) [0%Q] in
    exists h',
      Toy.update (h, self)
      = (Ok tt, (h', SPDHG.set_sampler (snd (Toy.next (SPDHG._sampler self)))
                       self)) /\
      h' !! SPDHG.x self = Some x1 /\
      h' !! 4%positive
      = Some (proximal_conjugate_entries Toy.plain y_k (Number 2%Q)) /\
      forall l, l ∈ SPDHG._y_old self -> l <> 4%positive -> h' !! l = h !! l.
Proof.
  eexists _, _. split; [vm_compute; reflexivity|].
  cbv zeta. unfold Toy.update.
  match goal with
  | |- exists h', SPDHG.update _ (?h, ?s) = _ /\ _ =>
      apply (UpdateFacts.update_dual_ascent Toy.next h s (Number 1%Q)
               [Number 2%Q] 0 (snd (Toy.next (SPDHG._sampler s)))
               (Toy.scaling 1) (Number 2%Q) Toy.plain 1%Q
               4%positive [1%Q] [0%Q] [0%Q])
  end.
  - split; [|by repeat constructor]. apply (bool_decide_unpack _); vm_compute; exact I.
  - reflexivity.
  - reflexivity.
  - vm_compute. reflexivity.
  - reflexivity.
  - reflexivity.
  - reflexivity.
  - reflexivity.
  - reflexivity.
  - reflexivity.
  - reflexivity.
  - reflexivity.
  - reflexivity.
Defined.


End SPDHGRuns.

Module InstanceRuns.
Import Container.

Lemma set_step_sizes_default_formulas_witness :
  length (SPDHG._prob_weights Toy.two_block_steps)
  = length (SPDHG._norms Toy.two_block_steps) /\
  SPDHG.set_step_sizes None None Toy.two_block_steps
  = (Ok tt, SPDHG.mk_steps 2 [1%Q; 2%Q] [(1 # 2)%Q; (1 # 2)%Q]
              (Some [Number 0.99%Q; Number (99 # 200)%Q])
              (Some (Number (19800 # 79200)%Q))) /\
  SPDHG.set_step_sizes None (Some (Number 1%Q)) Toy.two_block_steps
  = (Ok tt, SPDHG.mk_steps 2 [1%Q; 2%Q] [(1 # 2)%Q; (1 # 2)%Q]
              (Some [Number (99 # 200)%Q; Number (99 # 800)%Q])
              (Some (Number 1%Q))).
Proof.
  split; [reflexivity|].
  destruct (StepSizeFacts.set_step_sizes_default_formulas Toy.two_block_steps
              eq_refl) as [Hnone Htau].
  split.
  - destruct (Hnone (200 # 792)%Q) as [-> _].
    + repeat constructor.
    + repeat constructor.
    + vm_compute. reflexivity.
    + vm_compute. reflexivity.
  - destruct (Htau 1%Q) as [-> _].
    + reflexivity.
    + repeat constructor.
    + vm_compute. reflexivity.
Defined.

Lemma set_up_rejects_zero_f_and_g_witness :
  Toy.store0 !! Toy.initial = Some [1%Q] /\
  fst (ISTA.set_up ISTA.FISTA_class [] Toy.initial None (Some ZeroFunction)
         (Some 1%Q) None None Toy.store0) = Raise ISTA.zero_functions_error /\
  fst (ISTA.__init__ Toy.initial None (Some ZeroFunction) (Some 1%Q) None None
         Toy.store0) = Raise ISTA.zero_functions_error /\
  fst (FISTA.__init__ Toy.initial None (Some ZeroFunction) (Some 1%Q) None None
         Toy.store0) = Raise ISTA.zero_functions_error.
Proof.
  split; [reflexivity|].
  apply (ISTAFacts.set_up_rejects_zero_f_and_g ISTA.FISTA_class [] Toy.initial
           [1%Q] None (Some ZeroFunction) (Some 1%Q) None None Toy.store0).
  - reflexivity.
  - exact I.
  - reflexivity.
Defined.

Lemma initial_is_never_mutated_witness :
  Toy.store0 !! Toy.initial = Some [1%Q] /\
  exists self,
    fst Toy.one_block = Ok self /\
    fst (SPDHG.run Toy.next
           [SPDHG.Update; SPDHG.UpdateObjective; SPDHG.Update]
           (snd Toy.one_block, self)) !! Toy.initial = Some [1%Q].
Proof.
  split; [reflexivity|].
  destruct (InitialFrame.initial_is_never_mutated Toy.next
              Toy.getattr_prob_weights Toy.random_with_replacement
              Toy.set_norms
              Toy.initial [1%Q] Toy.store0 eq_refl) as (_ & _ & Hspdhg).
  destruct (Hspdhg [] [Toy.plain] Toy.plain
              (Some {| operators := [Toy.scaling 1]; domain_size := 1 |})
              (Some [Number 2%Q]) (Some (Number 1%Q))
              (Some (Toy.built (Sampler.sequential ToyGen.init 0 1 ∅)))
              None None None []) as [[_ Hrun] _].
  eexists. split; [vm_compute; reflexivity|].
  refine (proj2 (proj2 (Hrun _ _)) _). vm_compute. reflexivity.
Defined.

End InstanceRuns.

Module OrderSamplerFacts.
Section OrderSamplerFacts.
Context {F : Type} `{Scalar F} {G : Type}.
Variable gen_init : Z -> G.
Variable gen_permutation : G -> list Z -> list Z * G.
Variable gen_choice : G -> Z -> list F -> result Z * G.

Import Sampler SamplerFacts.
Local Abbreviation t := (@Sampler.t F).
Local Abbreviation state := (@Sampler.state F G).
Local Abbreviation next := (Sampler.next gen_permutation gen_choice).
Local Abbreviation next_on := (Sampler.next_on gen_permutation gen_choice).
Local Abbreviation draws_on := (Sampler.draws_on gen_permutation gen_choice).
Local Abbreviation get_samples :=
  (Sampler.get_samples gen_init gen_permutation gen_choice).
Local Abbreviation draws n := (Sampler.repeat_call n next).

(** One draw of a sampler that walks a fixed order. *)
Lemma next_on_fixed_order g (self : t) o :
  prob self = None -> iterator self = Some next_order_method ->
  shuffle self = false -> order self = Some o ->
  len o = num_subsets self -> 1 <= num_subsets self ->
  next_on g self =
  (Ok (o !!! Z.to_nat ((last_subset self + 1) mod num_subsets self)),
   (g, set_last_subset ((last_subset self + 1) mod num_subsets self) self)).
Proof.
  intros Hp Hit Hsh Ho Hlen Hn.
  unfold Sampler.next_on, _next_order_on. rewrite Hit, Hsh, Ho. cbn.
  unfold mod_. replace (num_subsets self =? 0) with false by lia.
  rewrite Ho.
  pose proof (Z.mod_pos_bound (last_subset self + 1) (num_subsets self)) as Hb.
  destruct (getitem_in_range o ((last_subset self + 1) mod num_subsets self))
    as (a & -> & Ha); [lia|].
  by rewrite (list_lookup_total_correct _ _ _ Ha).
Qed.

Lemma draws_on_fixed_order m : forall g (self : t) o,
  prob self = None -> iterator self = Some next_order_method ->
  shuffle self = false -> order self = Some o ->
  len o = num_subsets self -> 1 <= num_subsets self ->
  fst (draws_on m g self)
  = Ok (map (fun k => o !!! Z.to_nat ((last_subset self + 1 + Z.of_nat k)
                                       mod num_subsets self))
            (seq 0 m)) /\
  fst (snd (draws_on m g self)) = g.
Proof.
  induction m as [|m IH]; intros g self o Hp Hit Hsh Ho Hlen Hn; [done|].
  cbn [Sampler.draws_on].
  rewrite (next_on_fixed_order g self o) by done.
  set (c := (last_subset self + 1) mod num_subsets self).
  destruct (IH g (set_last_subset c self) o) as [Hout Hg];
    try (by destruct self).
  destruct (draws_on m g (set_last_subset c self)) as [[l|e] [g2 s2]];
    cbn [fst snd] in *; [|done].
  split; [|done]. injection Hout as ->. f_equal. cbn [seq map]. f_equal.
  - by rewrite Z.add_0_r.
  - rewrite <- seq_shift, map_map. apply map_ext. intros k.
    replace (last_subset (set_last_subset c self)) with c by (by destruct self).
    replace (num_subsets (set_last_subset c self)) with (num_subsets self)
      by (by destruct self).
    subst c. f_equal. f_equal.
    rewrite <- Z.add_assoc, Zplus_mod_idemp_l. f_equal. lia.
Qed.

(** A sampler that [__init__] built around a fixed order [o] of [n >= 1]
    entries: [m] calls of [next] return [o[k % n]] for [k] in [range(m)]
    and leave every generator object as it is; [get_samples(m)] returns
    the same list. *)
Lemma init_fixed_order now n ty o sd h (self : t) h' (m : Z) :
  __init__ gen_init now n ty false (Some o) None sd h = (Ok self, h') ->
  len o = n -> 1 <= n ->
  let out := map (fun k => o !!! Z.to_nat (k mod n)) (range m) in
  fst (draws (Z.to_nat m) (h', self)) = Ok out /\
  fst (snd (draws (Z.to_nat m) (h', self))) = h' /\
  fst (get_samples m (h', self)) = Ok out.
Proof.
  intros Hinit Hlen Hn out.
  apply init_inv in Hinit. destruct Hinit as (Hseed & -> & ->).
  set (sd' := if sd is Some x then x else now) in *.
  set (self := mk ty n sd' (fresh (dom h)) (Some o) (Some o)
                  (Some next_order_method) None false (n - 1)).
  set (h' := <[fresh (dom h) := gen_init sd']> h).
  assert (h' !! generator self = Some (gen_init sd')) as Hg
    by apply lookup_insert_eq.
  destruct (draws_on_fixed_order (Z.to_nat m) (gen_init sd') self o)
    as [Hout Hgen]; try done.
  assert (map (fun k : nat =>
                 o !!! Z.to_nat ((last_subset self + 1 + Z.of_nat k)
                                  mod num_subsets self))
              (seq 0 (Z.to_nat m)) = out) as Hlist.
  { subst out. unfold range. rewrite map_map. apply map_ext. intros k.
    unfold self. cbn.
    replace (n - 1 + 1 + Z.of_nat k) with (Z.of_nat k + 1 * n) by lia.
    by rewrite Z_mod_plus_full. }
  rewrite Hlist in Hout. split_and!.
  - by rewrite (draws_draws_on _ _ _ _ _ _ Hg).
  - rewrite (draws_draws_on _ _ _ _ _ _ Hg). unfold in_store. cbn [fst snd].
    destruct (draws_on (Z.to_nat m) (gen_init sd') self)
      as [r [g2 s2]] eqn:Hd. cbn [fst snd] in *. subst g2.
    apply draws_on_frame in Hd. rewrite (moved_generator _ _ Hd).
    by apply insert_id.
  - rewrite get_samples_unfold by done. cbv zeta.
    change (as_constructed self) with self. change (seed self) with sd'.
    destruct (draws_on (Z.to_nat m) (gen_init sd') self)
      as [[l|e] [g2 s2]]; cbn [fst snd] in *; done.
Qed.

(** [Sampler.customOrder(l)] for a non-empty list: the draws are
    [l[k % len(l)]], [k = 0, 1, ...], whether drawn by [next()] or listed
    by [get_samples(m)], and no generator object is touched. *)
Theorem customOrder_draws now l h (self : t) h' (m : Z) :
  customOrder gen_init now l h = (Ok self, h') -> l <> [] ->
  let out := map (fun k => l !!! Z.to_nat (k mod len l)) (range m) in
  fst (draws (Z.to_nat m) (h', self)) = Ok out /\
  fst (snd (draws (Z.to_nat m) (h', self))) = h' /\
  fst (get_samples m (h', self)) = Ok out.
Proof.
  intros Hb Hl.
  refine (init_fixed_order now (len l) custom_order_type l None h self h' m
            Hb eq_refl _).
  destruct l; [done|]. unfold len. cbn [length]. lia.
Qed.

Lemma range_lookup_total (n k : Z) :
  0 <= k < n -> range n !!! Z.to_nat k = k.
Proof.
  intros Hk. apply list_lookup_total_correct. unfold range.
  rewrite list_lookup_fmap, lookup_seq_lt by lia. cbn. f_equal. lia.
Qed.

(** [Sampler.sequential(n)] for [n >= 1]: the draws are [k % n],
    [k = 0, 1, ...]. *)
Theorem sequential_draws now n h (self : t) h' (m : Z) :
  sequential gen_init now n h = (Ok self, h') -> 1 <= n ->
  let out := map (fun k => k mod n) (range m) in
  fst (draws (Z.to_nat m) (h', self)) = Ok out /\
  fst (snd (draws (Z.to_nat m) (h', self))) = h' /\
  fst (get_samples m (h', self)) = Ok out.
Proof.
  intros Hb Hn.
  destruct (init_fixed_order now n sequential_type (range n) None h self h' m Hb)
    as (Hd & Hh & Hg); [apply len_range; lia|done|].
  assert (map (fun k => range n !!! Z.to_nat (k mod n)) (range m)
          = map (fun k => k mod n) (range m)) as Heq.
  { apply map_ext. intros k. apply range_lookup_total.
    apply Z.mod_pos_bound. lia. }
  cbv zeta. by rewrite <- Heq.
Qed.

(** [Sampler.randomWithoutReplacement(n, seed, shuffle=False)] for
    [n >= 1]: the order is never permuted; whatever the seed, the draws
    are [k % n], those of [Sampler.sequential(n)], and the generator is
    never consulted. *)
Theorem randomWithoutReplacement_unshuffled_draws now n sd h (self : t) h'
    (m : Z) :
  randomWithoutReplacement gen_init now n sd false h = (Ok self, h') ->
  1 <= n ->
  let out := map (fun k => k mod n) (range m) in
  fst (draws (Z.to_nat m) (h', self)) = Ok out /\
  fst (snd (draws (Z.to_nat m) (h', self))) = h' /\
  fst (get_samples m (h', self)) = Ok out.
Proof.
  intros Hb Hn.
  destruct (init_fixed_order now n random_without_replacement_type (range n) sd h self h' m Hb)
    as (Hd & Hh & Hg); [apply len_range; lia|done|].
  assert (map (fun k => range n !!! Z.to_nat (k mod n)) (range m)
          = map (fun k => k mod n) (range m)) as Heq.
  { apply map_ext. intros k. apply range_lookup_total.
    apply Z.mod_pos_bound. lia. }
  cbv zeta. by rewrite <- Heq.
Qed.

End OrderSamplerFacts.
End OrderSamplerFacts.


(** ** Extended slices and the staggered order *)

Module SliceFacts.

Lemma stride_from_fmap {A B} (f : A -> B) (fuel : nat) : forall (l : list A) step,
  stride_from fuel (f <$> l) step = f <$> stride_from fuel l step.
Proof.
  induction fuel as [|fuel IH]; intros [|a l] step; try done.
  rewrite fmap_cons. cbn [stride_from].
  by rewrite <- (fmap_cons f a l), <- fmap_drop, IH, fmap_cons.
Qed.

(** The entries of [seq s len] that [[::step]] keeps: those at a multiple
    of [step] from the first. *)
Lemma elem_of_stride_from_seq (fuel : nat) : forall s len step x,
  (len <= fuel)%nat -> (1 <= step)%nat ->
  x ∈ stride_from fuel (seq s len) step <->
  (s <= x < s + len)%nat /\ ((x - s) mod step = 0)%nat.
Proof.
  induction fuel as [|fuel IH]; intros s len step x Hfuel Hstep.
  - cbn. rewrite elem_of_nil. lia.
  - destruct len as [|len]; [cbn; rewrite elem_of_nil; lia|].
    cbn [seq stride_from].
    change (s :: seq (S s) len) with (seq s (S len)).
    rewrite drop_seq, elem_of_cons, IH by lia. split.
    + intros [->|[Hx Hm]].
      * split; [lia|]. by rewrite Nat.sub_diag, Nat.Div0.mod_0_l.
      * split; [lia|].
        replace (x - s)%nat with ((x - (s + step)) + 1 * step)%nat by lia.
        by rewrite Nat.Div0.mod_add.
    + intros [Hx Hm]. destruct (decide (x = s)) as [|Hne]; [by left|right].
      apply Nat.Div0.mod_divides in Hm. destruct Hm as [c Hc].
      assert (1 <= c)%nat by (destruct c; lia).
      split; [nia|]. apply Nat.Div0.mod_divides. exists (c - 1)%nat. nia.
Qed.

Lemma NoDup_stride_from_seq (fuel : nat) : forall s len step,
  (len <= fuel)%nat -> (1 <= step)%nat ->
  NoDup (stride_from fuel (seq s len) step).
Proof.
  induction fuel as [|fuel IH]; intros s len step Hfuel Hstep;
    [constructor|].
  destruct len as [|len]; [constructor|].
  cbn [seq stride_from].
  change (s :: seq (S s) len) with (seq s (S len)).
  rewrite drop_seq. constructor; [|apply IH; lia].
  rewrite elem_of_stride_from_seq by lia. lia.
Qed.

Lemma concat_map_bind {A B} (f : A -> list B) (l : list A) :
  concat (map f l) = l ≫= f.
Proof. induction l; [done|]. cbn. by f_equal. Qed.

Lemma concat_map_fmap {A B C} (f : B -> C) (g : A -> list B) (l : list A) :
  concat (map (fun i => f <$> g i) l) = f <$> concat (map g l).
Proof. induction l; [done|]. cbn. by rewrite fmap_app, IHl. Qed.

Lemma mod_of_stride (x i a : nat) :
  (i <= x)%nat -> (i < a)%nat -> ((x - i) mod a = 0)%nat -> (x mod a = i)%nat.
Proof.
  intros Hix Hia Hm. apply Nat.Div0.mod_divides in Hm. destruct Hm as [c Hc].
  replace x with (i + c * a)%nat by lia.
  rewrite Nat.Div0.mod_add. by apply Nat.mod_small.
Qed.

(** [[indices[i::a] for i in range(a)]], concatenated, is a rearrangement
    of [indices = range(n)]. *)
Lemma staggered_order_perm (n a : Z) :
  1 <= a ->
  concat (map (fun i => slice_step (range n) i a) (range a)) ≡ₚ range n.
Proof.
  intros Ha. unfold range at 2 3.
  set (n' := Z.to_nat n). set (a' := Z.to_nat a).
  assert (forall i : nat,
            slice_step (range n) (Z.of_nat i) a
            = Z.of_nat <$> stride_from n' (seq i (n' - i)) a') as Hslice.
  { intros i. unfold slice_step, range. fold n'. fold a'.
    rewrite length_map, length_seq, Nat2Z.id.
    change (map Z.of_nat (seq 0 n')) with (Z.of_nat <$> seq 0 n').
    by rewrite <- fmap_drop, drop_seq, stride_from_fmap. }
  rewrite map_map, (map_ext _ _ Hslice), concat_map_fmap, concat_map_bind.
  apply fmap_Permutation.
  assert (1 <= a')%nat as Ha' by lia.
  apply NoDup_Permutation.
  - apply NoDup_bind; [| |apply NoDup_seq].
    + intros i j x Hi0%elem_of_seq Hj0%elem_of_seq.
      rewrite !elem_of_stride_from_seq by lia.
      intros [Hi Hmi] [Hj Hmj].
      rewrite <- (mod_of_stride x i a'), <- (mod_of_stride x j a'); lia.
    + intros i _. apply NoDup_stride_from_seq; lia.
  - apply NoDup_seq.
  - intros x. rewrite list_elem_of_bind, elem_of_seq. split.
    + intros (i & Hx & Hi). rewrite elem_of_stride_from_seq in Hx by lia. lia.
    + intros Hx. exists (x mod a')%nat. split.
      * rewrite elem_of_stride_from_seq by lia.
        pose proof (Nat.mod_upper_bound x a').
        pose proof (Nat.Div0.mod_le x a').
        split; [lia|]. apply Nat.Div0.mod_divides. exists (x / a')%nat.
        pose proof (Nat.div_mod_eq x a'). lia.
      * rewrite elem_of_seq. pose proof (Nat.mod_upper_bound x a'). lia.
Qed.

End SliceFacts.

Module StaggeredFacts.
Section StaggeredFacts.
Context {F : Type} `{Scalar F} {G : Type}.
Variable gen_init : Z -> G.
Variable gen_permutation : G -> list Z -> list Z * G.
Variable gen_choice : G -> Z -> list F -> result Z * G.

Import Sampler SamplerFacts OrderSamplerFacts SliceFacts.
Local Abbreviation t := (@Sampler.t F).
Local Abbreviation next := (Sampler.next gen_permutation gen_choice).
Local Abbreviation get_samples :=
  (Sampler.get_samples gen_init gen_permutation gen_choice).
Local Abbreviation draws n := (Sampler.repeat_call n next).

Lemma init_returns now n ty sh o p sd (h : gmap loc G) :
  0 <= (if sd is Some x then x else now) < 2 ^ 32 ->
  exists self : t,
    __init__ gen_init now n ty sh o p sd h
    = (Ok self, <[fresh (dom h) := gen_init (if sd is Some x then x else now)]> h).
Proof.
  intros Hseed. unfold __init__, RandomState, bind, alloc, ret.
  replace ((0 <=? _) && (_ <? 2 ^ 32)) with true
    by (symmetry; apply andb_true_iff; split; [apply Z.leb_le|apply Z.ltb_lt]; lia).
  by eexists.
Qed.

(** [Sampler.staggered(num_subsets, offset)] raises ValueError, and creates
    no generator, exactly when [offset >= num_subsets]; any smaller offset,
    zero and negative ones included, gives a sampler. *)
Theorem staggered_offset_check now n offset (h : gmap loc G) :
  0 <= now < 2 ^ 32 ->
  (n <= offset ->
   staggered (F:=F) gen_init now n offset h
   = (Raise (Exn ValueError
               "The offset should be less than the number of subsets"), h)) /\
  (offset < n ->
   exists self : t,
     staggered gen_init now n offset h
     = (Ok self, <[fresh (dom h) := gen_init now]> h)).
Proof.
  intros Hnow. unfold staggered. split; intros Hoff.
  - by replace (n <=? offset) with true by lia.
  - replace (n <=? offset) with false by lia.
    by apply (init_returns now n staggered_type false _ None None h).
Qed.

(** [Sampler.staggered(n, offset)] with [1 <= offset]: the order is a
    rearrangement of [range(n)], the draws go through it again and again
    ([order[k % n]] for [k = 0, 1, ...]), so every subset is drawn exactly
    once in each pass of [n] draws. *)
Theorem staggered_draws now n offset h (self : t) h' :
  staggered gen_init now n offset h = (Ok self, h') -> 1 <= offset ->
  exists o,
    order self = Some o /\ o ≡ₚ range n /\
    forall m : Z,
      fst (draws (Z.to_nat m) (h', self))
      = Ok (map (fun k => o !!! Z.to_nat (k mod n)) (range m)) /\
      fst (snd (draws (Z.to_nat m) (h', self))) = h' /\
      fst (get_samples m (h', self))
      = Ok (map (fun k => o !!! Z.to_nat (k mod n)) (range m)).
Proof.
  unfold staggered. intros Hb Hoff.
  destruct (n <=? offset) eqn:Hlt; [done|]. apply Z.leb_gt in Hlt.
  set (o := concat (map (fun i => slice_step (range n) i offset)
                        (range offset))) in *.
  pose proof (staggered_order_perm n offset Hoff) as Hperm. fold o in Hperm.
  exists o. split_and!.
  - apply init_inv in Hb. by destruct Hb as (_ & -> & _).
  - done.
  - intros m.
    apply (init_fixed_order gen_init gen_permutation gen_choice
             now n staggered_type o None h self h' m Hb); [|lia].
    unfold len. rewrite (Permutation_length Hperm).
    apply len_range. lia.
Qed.

(** [Sampler.staggered(n, offset)] with [offset <= 0]: the sampler is built
    with an empty order, and [next()] raises IndexError wherever the cursor
    is. *)
Theorem staggered_nonpositive_offset now n offset (h : gmap loc G) :
  0 <= now < 2 ^ 32 -> offset <= 0 -> 1 <= n ->
  exists self : t,
    staggered gen_init now n offset h
    = (Ok self, <[fresh (dom h) := gen_init now]> h) /\
    order self = Some [] /\
    forall c, fst (next (<[fresh (dom h) := gen_init now]> h,
                          set_last_subset c self)) = Raise IndexError.
Proof.
  intros Hnow Hoff Hn.
  assert (exists self : t,
            staggered gen_init now n offset h
            = (Ok self, <[fresh (dom h) := gen_init now]> h)) as [self Hself].
  { unfold staggered. replace (n <=? offset) with false by lia.
    by apply (init_returns now n staggered_type false _ None None h). }
  exists self. split; [done|].
  unfold staggered in Hself. replace (n <=? offset) with false in Hself by lia.
  unfold range at 2 in Hself.
  replace (Z.to_nat offset) with 0%nat in Hself by lia. cbn in Hself.
  apply init_inv in Hself. destruct Hself as (_ & -> & _).
  split; [done|]. intros c.
  rewrite (next_next_on _ _ _ _ (gen_init now)) by apply lookup_insert_eq.
  unfold in_store, Sampler.next_on, _next_order_on, mod_. cbn.
  replace (n =? 0) with false by lia. cbn.
  unfold getitem. cbn.
  pose proof (Z.mod_pos_bound (c + 1) n).
  replace ((c + 1) mod n <? 0) with false by lia.
  replace ((c + 1) mod n <? 0) with false by lia. done.
Qed.

End StaggeredFacts.
End StaggeredFacts.


Module FactoriseFacts.
Import HermanMeyer HermanMeyerFacts.

Lemma prod_snoc (l : list Z) (a : Z) : prod (l ++ [a]) = prod l * a.
Proof. unfold prod. by rewrite fold_left_app. Qed.

Lemma fold_left_mul (l : list Z) : forall a,
  fold_left Z.mul l a = a * fold_left Z.mul l 1.
Proof.
  induction l as [|q l IH]; intros a; cbn [fold_left]; [lia|].
  rewrite IH, (IH (1 * q)). lia.
Qed.

Lemma prod_cons (a : Z) (l : list Z) : prod (a :: l) = a * prod l.
Proof. unfold prod. cbn [fold_left]. rewrite fold_left_mul. lia. Qed.

(** No number of [[2, i)] divides [n]. *)
Local Abbreviation no_divisor_below i n :=
  (forall d, 2 <= d < i -> ~ (d | n)).

Lemma prime_no_divisor (p : Z) :
  1 < p -> no_divisor_below p p -> prime p.
Proof.
  intros Hp Hnd. apply prime_intro; [done|]. intros m Hm.
  pose proof (Z.gcd_nonneg m p) as Hg0.
  pose proof (Z.gcd_divide_l m p) as Hgl.
  pose proof (Z.gcd_divide_r m p) as Hgr.
  assert (Z.gcd m p <> 0) by (intros Hz; apply Z.gcd_eq_0_l in Hz; lia).
  assert (Z.gcd m p <= m) by (apply Z.divide_pos_le; [lia|done]).
  assert (Z.gcd m p = 1) as Hone.
  { destruct (decide (Z.gcd m p = 1)) as [|Hne]; [done|].
    exfalso. apply (Hnd (Z.gcd m p)); [lia|done]. }
  constructor; [apply Z.divide_1_l|apply Z.divide_1_l|].
  intros x Hxm Hxp. rewrite <- Hone. by apply Z.gcd_greatest.
Qed.

(** The invariant of the trial-division loop: the cofactor times the
    factors found is [n]; the factors found are primes; nothing below [i]
    divides the cofactor. *)
Lemma factor_loop_invariant (fuel : nat) : forall i n_variable factors n' factors',
  factor_loop fuel i n_variable factors = Some (n', factors') ->
  2 <= i -> 1 <= n_variable -> no_divisor_below i n_variable ->
  Forall prime factors ->
  n' * prod factors' = n_variable * prod factors /\
  Forall prime factors' /\ 1 <= n' /\ (1 < n' -> prime n').
Proof.
  induction fuel as [|fuel IH]; intros i nv fs n' fs'; [done|].
  cbn [factor_loop]. intros Hloop Hi Hnv Hnd Hfs.
  destruct (i * i <=? nv) eqn:Hsq.
  - apply Z.leb_le in Hsq.
    destruct (nv mod i =? 0) eqn:Hmod; cbn [negb] in Hloop.
    + apply Z.eqb_eq in Hmod.
      assert (nv = i * (nv / i)) as Hdiv by (apply Z_div_exact_full_2; lia).
      assert (1 <= nv / i) by nia.
      apply IH in Hloop; try done.
      * destruct Hloop as (Hprod & Hpr & Hn' & Hpn'). split_and!; try done.
        rewrite Hprod, prod_snoc. nia.
      * intros d Hd Hdiv'. apply (Hnd d Hd).
        rewrite Hdiv. by apply Z.divide_mul_r.
      * apply Forall_app. split; [done|]. constructor; [|done].
        apply prime_no_divisor; [lia|].
        intros d Hd Hdi. apply (Hnd d Hd).
        apply (Z.divide_trans _ i); [done|]. exists (nv / i). lia.
    + apply Z.eqb_neq in Hmod. apply IH in Hloop; try done; [lia|].
      intros d Hd Hdiv. destruct (decide (d = i)) as [->|Hne].
      * apply Hmod. by apply Z.mod_divide; [lia|].
      * apply (Hnd d); [lia|done].
  - apply Z.leb_gt in Hsq. injection Hloop as <- <-. split_and!; try done.
    intros Hnv1. apply prime_no_divisor; [done|].
    intros d Hd [c Hc].
    assert (1 <= c) by nia.
    destruct (decide (d < i)) as [Hlt|Hge]; [apply (Hnd d); [lia|by exists c]|].
    assert (c < i) by nia.
    assert (c <> 1) by nia.
    apply (Hnd c); [lia|]. exists d. lia.
Qed.

(** [factors], as [_herman_meyer_order] computes it for [n >= 1], is a
    factorisation of [n] into primes; it is empty for [n = 1] only. *)
Theorem factorise_prime_factorisation (n : Z) :
  1 <= n ->
  prod (factorise n) = n /\ Forall prime (factorise n) /\
  (factorise n = [] <-> n = 1).
Proof.
  intros Hn. unfold factorise.
  destruct (factor_loop_from_2 n) as (n' & fs' & Hloop & _).
  rewrite Hloop. cbn [default id]. cbv beta iota.
  destruct (factor_loop_invariant _ _ _ _ _ _ Hloop)
    as (Hprod & Hpr & Hn' & Hpn'); try done; [intros d Hd; lia|].
  change (prod []) with 1 in Hprod.
  destruct (1 <? n') eqn:Hlt.
  - apply Z.ltb_lt in Hlt. split_and!.
    + rewrite prod_snoc. lia.
    + apply Forall_app. split; [done|]. constructor; [by apply Hpn'|done].
    + split; [by destruct fs'|]. intros ->.
      rewrite Z.mul_1_l in Hprod. apply Z.eq_mul_1 in Hprod. lia.
  - apply Z.ltb_ge in Hlt. assert (n' = 1) as -> by lia. split_and!.
    + lia.
    + done.
    + split; [intros ->; cbn in Hprod; lia|].
      intros ->. destruct fs' as [|p fs']; [done|]. exfalso.
      apply Forall_cons in Hpr. destruct Hpr as [[Hp _] Hrest].
      assert (1 <= prod fs').
      { clear -Hrest. induction fs' as [|q fs' IH] using rev_ind; [done|].
        apply Forall_app in Hrest. destruct Hrest as [Hr1 Hr2].
        apply Forall_cons in Hr2. destruct Hr2 as [[Hq _] _].
        rewrite prod_snoc. specialize (IH Hr1). nia. }
      rewrite prod_cons in Hprod. nia.
Qed.

End FactoriseFacts.

Module HermanMeyerOrderFacts.
Import HermanMeyer HermanMeyerFacts.

Lemma factorise_below_2 (n : Z) : n <= 1 -> factorise n = [].
Proof.
  intros Hn. unfold factorise, factor_fuel. cbn [factor_loop].
  replace (2 * 2 <=? n) with false by lia. cbn.
  by replace (1 <? n) with false by lia.
Qed.

Lemma element_loop_length factor n_change_value weight (l : list Z) :
  forall st,
    length (snd (fold_left (element_step factor n_change_value weight) l st))
    = length (snd st).
Proof.
  induction l as [|e l IH]; intros [[value n_rep] order]; [done|].
  cbn [fold_left]. rewrite IH. unfold element_step.
  destruct (n_change_value <=? n_rep + 1); cbn [snd]; by rewrite length_alter.
Qed.

Lemma factor_loop_length n factors (l : list nat) : forall st,
  length (snd (fold_left (factor_step n factors) l st)) = length (snd st).
Proof.
  induction l as [|k l IH]; intros [value order]; [done|].
  cbn [fold_left]. rewrite IH. unfold factor_step.
  pose proof (element_loop_length (factors !!! k)
                (if (k =? 0)%nat then 1 else prod (take k factors))
                (prod (drop (S k) factors)) (range n) (value, 0, order)) as Hlen.
  destruct (fold_left _ (range n) (value, 0, order)) as [[v r] o].
  exact Hlen.
Qed.

(** [_herman_meyer_order(n)] raises ValueError exactly when [n <= 1]; for
    [n >= 2] it returns a list of [n] entries. *)
Lemma herman_meyer_order_length (n : Z) :
  (n <= 1 -> exists msg, _herman_meyer_order n = Raise (Exn ValueError msg)) /\
  (2 <= n -> exists order, _herman_meyer_order n = Ok order /\ len order = n).
Proof.
  unfold _herman_meyer_order. split; intros Hn.
  - rewrite (factorise_below_2 n Hn). cbn. by eexists.
  - pose proof (factorise_nonempty n Hn) as Hne.
    destruct (factorise n) as [|p fs] eqn:Hf; [done|]. cbn [length Nat.eqb].
    eexists. split; [done|]. unfold len.
    rewrite factor_loop_length. cbn [snd].
    rewrite length_map. apply SamplerFacts.len_range. lia.
Qed.

End HermanMeyerOrderFacts.


Module SamplerRangeFacts.
Section SamplerRangeFacts.
Context {F : Type} `{Scalar F} {G : Type}.
Variable gen_init : Z -> G.
Variable gen_permutation : G -> list Z -> list Z * G.
Variable gen_choice : G -> Z -> list F -> result Z * G.

Import Sampler SamplerFacts OrderSamplerFacts SliceFacts StaggeredFacts.
Local Abbreviation t := (@Sampler.t F).
Local Abbreviation state := (@Sampler.state F G).
Local Abbreviation next := (Sampler.next gen_permutation gen_choice).
Local Abbreviation next_on := (Sampler.next_on gen_permutation gen_choice).
Local Abbreviation draws_on := (Sampler.draws_on gen_permutation gen_choice).
Local Abbreviation get_samples :=
  (Sampler.get_samples gen_init gen_permutation gen_choice).
Local Abbreviation draws n := (Sampler.repeat_call n next).
Local Abbreviation reachable :=
  (Sampler.reachable gen_init gen_permutation gen_choice).

Hypothesis gen_permutation_perm :
  forall g l, fst (gen_permutation g l) ≡ₚ l.

(** The working order is a rearrangement of [range(n)]. *)
Local Abbreviation covers n self :=
  (prob self = None /\ iterator self = Some next_order_method /\
   num_subsets self = n%Z /\ exists o, order self = Some o /\ o ≡ₚ range n%Z).

Lemma elem_of_range (n i : Z) : i ∈ range n <-> 0 <= i < n.
Proof.
  unfold range. rewrite list_elem_of_fmap. split.
  - intros (k & -> & Hk%elem_of_seq). lia.
  - intros Hi. exists (Z.to_nat i). rewrite elem_of_seq. lia.
Qed.

Lemma next_on_covers n g (self : t) :
  1 <= n -> covers n self ->
  exists i g' self',
    next_on g self = (Ok i, (g', self')) /\ 0 <= i < n /\ covers n self'.
Proof.
  intros Hn (Hp & Hit & Hnum & o & Ho & Hperm).
  destruct self as [ty n0 sd l o0 io it p sh c]. cbn in *. subst.
  unfold Sampler.next_on, _next_order_on, mod_. cbn.
  assert ((n =? 0) = false) as Hn0 by lia.
  assert (0 <= (c + 1) mod n < n) as Hc by (apply Z.mod_pos_bound; lia).
  assert (forall o2, o2 ≡ₚ range n ->
            exists a, getitem o2 ((c + 1) mod n) = Ok a /\ 0 <= a < n) as Hget.
  { intros o2 Hp2.
    destruct (getitem_in_range o2 ((c + 1) mod n)) as (a & Ha & Hl).
    - unfold len. rewrite (Permutation_length Hp2).
      fold (len (range n)). rewrite len_range; lia.
    - exists a. split; [done|]. apply elem_of_range. rewrite <- Hp2.
      by eapply list_elem_of_lookup_2. }
  destruct (sh && (c =? n - 1)).
  - pose proof (gen_permutation_perm g o) as Hp.
    destruct (gen_permutation g o) as [o2 g2]. cbn in *. rewrite Hn0.
    destruct (Hget o2) as (a & -> & Ha); [by rewrite Hp|].
    eexists _, _, _. split; [done|]. split; [done|]. cbn.
    split_and!; try done. exists o2. split; [done|]. by rewrite Hp.
  - cbn. rewrite Hn0. destruct (Hget o Hperm) as (a & -> & Ha).
    eexists _, _, _. split; [done|]. split; [done|]. cbn.
    split_and!; try done. by exists o.
Qed.

Lemma covers_can_draw n (self : t) :
  1 <= n -> covers n self -> initial_order self = order self ->
  can_draw gen_choice self.
Proof.
  intros Hn (Hp & _ & Hnum & o & Ho & Hperm) Hio.
  unfold Sampler.can_draw. rewrite Hp. split; [lia|]. exists o.
  split; [congruence|]. unfold len. rewrite (Permutation_length Hperm).
  fold (len (range n)). rewrite len_range; lia.
Qed.

(** A sampler constructed around a rearrangement of [range(n)], in any
    state it reaches: [next] returns, and what it returns is in
    [[0, n)]. *)
Lemma reachable_in_range n (st0 st : state) :
  1 <= n -> constructed gen_init st0 -> covers n (snd st0) ->
  reachable st0 st ->
  covers n (snd st) /\
  exists i st', next st = (Ok i, st') /\ 0 <= i < n.
Proof.
  intros Hn Hc Hcov Hreach.
  assert (can_draw gen_choice (snd st0)) as Hd.
  { apply (covers_can_draw n); [done..|].
    destruct Hc as (_ & _ & Hc & _). rewrite <- Hc at 2. by destruct (snd st0). }
  assert (ready gen_choice (snd st0)) as Hr0
    by (destruct st0; by eapply constructed_ready).
  assert (covers n (snd st)) as Hcov'.
  { induction Hreach as [|[h s] r [h' s'] Hreach IH Hnext
                          |[h s] k r [h' s'] Hreach IH Hget]; [done| |].
    - destruct (reachable_invariant gen_init gen_permutation gen_choice
                  gen_permutation_perm _ _ Hc Hd Hreach) as (_ & _ & g & Hg).
      cbn [fst snd] in *.
      rewrite (next_next_on _ _ h s g Hg) in Hnext.
      destruct (next_on_covers n g s Hn IH) as (i & g1 & s1 & Hn1 & _ & Hc1).
      rewrite Hn1 in Hnext. unfold in_store in Hnext. cbn in Hnext.
      by injection Hnext as <- <- <-.
    - pose proof (reachable_invariant gen_init gen_permutation gen_choice
                    gen_permutation_perm _ _ Hc Hd
                    (reach_get_samples _ _ _ _ _ _ _ _ Hreach Hget)) as (Hm' & _).
      pose proof (reachable_invariant gen_init gen_permutation gen_choice
                    gen_permutation_perm _ _ Hc Hd Hreach) as (Hm & Hr & _).
      cbn [fst snd] in *.
      destruct Hc as (_ & Hseed & Hc0 & _).
      assert (seed s = seed (snd st0)) as Hsd
        by (destruct Hm as (o & c & ->); by destruct (snd st0)).
      rewrite get_samples_unfold in Hget by (rewrite Hsd; done).
      assert (ready gen_choice (as_constructed s)) as Hrc.
      { by rewrite (moved_as_constructed _ _ Hm), Hc0. }
      destruct (draws_on_ready gen_permutation gen_choice gen_permutation_perm
                  (Z.to_nat k) (gen_init (seed s)) _ Hrc)
        as (out & g2 & s2 & Hdr & _).
      rewrite Hdr in Hget. cbn in Hget. by injection Hget as <- <- <-. }
  split; [done|].
  destruct (reachable_invariant gen_init gen_permutation gen_choice
              gen_permutation_perm _ _ Hc Hd Hreach) as (_ & _ & g & Hg).
  destruct st as [h s]. cbn [fst snd] in *.
  destruct (next_on_covers n g s Hn Hcov') as (i & g1 & s1 & Hn1 & Hi & _).
  rewrite (next_next_on _ _ h s g Hg), Hn1. unfold in_store. cbn.
  by eexists _, _.
Qed.

(** [Sampler.sequential(n)], [Sampler.staggered(n, offset)] with
    [offset >= 1] and [Sampler.randomWithoutReplacement(n, seed, shuffle)],
    for [n >= 1]: whatever calls of [next] and [get_samples] came before,
    [next()] returns, and returns an index of [[0, n)]. *)
Theorem next_in_range now n offset sd sh h (s : t) h' (st : state) :
  sequential gen_init now n h = (Ok s, h') \/
  (1 <= offset /\ staggered gen_init now n offset h = (Ok s, h')) \/
  randomWithoutReplacement gen_init now n sd sh h = (Ok s, h') ->
  1 <= n -> reachable (h', s) st ->
  exists i st', next st = (Ok i, st') /\ 0 <= i < n.
Proof.
  intros Hb Hn Hreach.
  refine (proj2 (reachable_in_range n (h', s) st Hn _ _ Hreach)).
  - destruct Hb as [Hb|[[_ Hb]|Hb]].
    + by eapply init_constructed.
    + unfold staggered in Hb. destruct (n <=? offset); [done|].
      by eapply init_constructed.
    + by eapply init_constructed.
  - cbn [snd]. destruct Hb as [Hb|[[Hoff Hb]|Hb]].
    + apply init_inv in Hb. destruct Hb as (_ & -> & _). cbn.
      split_and!; try done. by exists (range n).
    + unfold staggered in Hb. destruct (n <=? offset); [done|].
      apply init_inv in Hb. destruct Hb as (_ & -> & _). cbn.
      split_and!; try done. eexists. split; [done|].
      by apply staggered_order_perm.
    + apply init_inv in Hb. destruct Hb as (_ & -> & _). cbn.
      split_and!; try done. by exists (range n).
Qed.

Lemma draws_on_length k : forall g (self : t) out st,
  draws_on k g self = (Ok out, st) -> length out = k.
Proof.
  induction k as [|k IH]; intros g self out st; cbn [Sampler.draws_on].
  - by intros [= <- _].
  - destruct (next_on g self) as [[a|e] [g1 s1]]; [|done].
    destruct (draws_on k g1 s1) as [[l|e] st2] eqn:Hd; [|done].
    intros [= <- _]. cbn. f_equal. by eapply IH.
Qed.

(** For a factory-built sampler that can draw, in any state it reaches:
    [get_samples(n)] returns [n] samples, and [get_samples(m)] for
    [m <= n] returns the first [m] of them. *)
Theorem get_samples_prefix (st0 st : state) (m n : Z) :
  factory_built gen_init st0 -> can_draw gen_choice (snd st0) ->
  reachable st0 st -> 0 <= m <= n ->
  exists out,
    fst (get_samples n st) = Ok out /\ len out = n /\
    fst (get_samples m st) = Ok (take (Z.to_nat m) out).
Proof.
  intros Hb%factory_built_constructed Hd Hreach Hmn.
  destruct (reachable_invariant gen_init gen_permutation gen_choice
              gen_permutation_perm st0 st Hb Hd Hreach) as (Hm & _ & _).
  destruct st0 as [h0 s0], st as [h s]. cbn [fst snd] in *.
  pose proof (constructed_ready _ _ h0 s0 Hb Hd) as Hr0.
  destruct Hb as (_ & Hseed & Hc0 & _). cbn [fst snd] in *.
  assert (seed s = seed s0) as Hsd
    by (destruct Hm as (o & c & ->); by destruct s0).
  assert (as_constructed s = s0) as Hcs
    by (by rewrite (moved_as_constructed _ _ Hm)).
  rewrite !get_samples_unfold by (rewrite Hsd; done).
  rewrite Hsd, Hcs. cbv zeta.
  replace (Z.to_nat n) with (Z.to_nat m + Z.to_nat (n - m))%nat by lia.
  rewrite draws_on_app.
  destruct (draws_on_ready gen_permutation gen_choice gen_permutation_perm
              (Z.to_nat m) (gen_init (seed s0)) s0 Hr0)
    as (out1 & g1 & s1 & Hd1 & Hr1).
  destruct (draws_on_ready gen_permutation gen_choice gen_permutation_perm
              (Z.to_nat (n - m)) g1 s1 Hr1)
    as (out2 & g2 & s2 & Hd2 & _).
  rewrite Hd1, Hd2. cbn [fst snd].
  apply draws_on_length in Hd1, Hd2.
  exists (out1 ++ out2). split_and!.
  - done.
  - unfold len. rewrite length_app. lia.
  - by rewrite <- Hd1 at 1; rewrite take_app_length.
Qed.

End SamplerRangeFacts.
End SamplerRangeFacts.


Module FactoryFacts.
Section FactoryFacts.
Context {F : Type} `{Scalar F} {G : Type}.
Variable gen_init : Z -> G.
Variable gen_permutation : G -> list Z -> list Z * G.
Variable gen_choice : G -> Z -> list F -> result Z * G.

Import Sampler SamplerFacts OrderSamplerFacts StaggeredFacts
       HermanMeyerOrderFacts.
Local Abbreviation t := (@Sampler.t F).
Local Abbreviation state := (@Sampler.state F G).
Local Abbreviation next := (Sampler.next gen_permutation gen_choice).
Local Abbreviation get_samples :=
  (Sampler.get_samples gen_init gen_permutation gen_choice).
Local Abbreviation draws n := (Sampler.repeat_call n next).

(** [Sampler.hermanMeyer(n)] raises ValueError, without creating a
    generator, exactly when [n <= 1]. *)
Theorem hermanMeyer_rejects_below_2 now n (h : gmap loc G) :
  0 <= now < 2 ^ 32 ->
  (n <= 1 ->
   exists msg, hermanMeyer (F:=F) gen_init now n h
               = (Raise (Exn ValueError msg), h)) /\
  (2 <= n ->
   exists self : t,
     hermanMeyer gen_init now n h
     = (Ok self, <[fresh (dom h) := gen_init now]> h)).
Proof.
  intros Hnow. unfold hermanMeyer, bind, lift.
  destruct (herman_meyer_order_length n) as [Hlow Hhigh].
  split; intros Hn.
  - destruct (Hlow Hn) as [msg ->]. by exists msg.
  - destruct (Hhigh Hn) as (o & -> & _).
    by apply (init_returns gen_init now n herman_meyer_type false _ None None h).
Qed.

(** [Sampler.hermanMeyer(n)], when it returns a sampler: the order has [n]
    entries, the draws go through it again and again ([order[k % n]] for
    [k = 0, 1, ...]) and never fail. *)
Theorem hermanMeyer_draws now n h (self : t) h' :
  hermanMeyer gen_init now n h = (Ok self, h') ->
  exists o,
    order self = Some o /\ len o = n /\
    forall m : Z,
      fst (draws (Z.to_nat m) (h', self))
      = Ok (map (fun k => o !!! Z.to_nat (k mod n)) (range m)) /\
      fst (snd (draws (Z.to_nat m) (h', self))) = h' /\
      fst (get_samples m (h', self))
      = Ok (map (fun k => o !!! Z.to_nat (k mod n)) (range m)).
Proof.
  unfold hermanMeyer, bind, lift. intros Hb.
  destruct (herman_meyer_order_length n) as [Hlow Hhigh].
  destruct (decide (n <= 1)) as [Hn|Hn].
  { destruct (Hlow Hn) as [msg Hmsg]. by rewrite Hmsg in Hb. }
  destruct Hhigh as (o & Ho & Hlen); [lia|]. rewrite Ho in Hb.
  exists o. split_and!.
  - apply init_inv in Hb. by destruct Hb as (_ & -> & _).
  - done.
  - intros m.
    apply (init_fixed_order gen_init gen_permutation gen_choice
             now n herman_meyer_type o None h self h' m Hb); [done|lia].
Qed.

(** [Sampler.randomWithReplacement(n, prob=None, seed)]: ZeroDivisionError
    for [n = 0], before any generator is created; otherwise the sampler
    draws with [generator.choice(n, p=[1/n]*n)], the generator being
    seeded with [seed], or with the clock when [seed] is [None]. *)
Theorem randomWithReplacement_uniform now n sd (h : gmap loc G) :
  (n = 0 ->
   randomWithReplacement (F:=F) gen_init now n None sd h
   = (Raise ZeroDivisionError, h)) /\
  (n <> 0 -> 0 <= (if sd is Some x then x else now) < 2 ^ 32 ->
   exists self : t,
     randomWithReplacement gen_init now n None sd h
     = (Ok self, <[fresh (dom h) := gen_init (if sd is Some x then x else now)]> h) /\
     prob self = Some (replicate (Z.to_nat n) (lit (1 / inject_Z n)%Q)) /\
     order self = None /\
     fst (next (<[fresh (dom h) := gen_init (if sd is Some x then x else now)]> h,
                self))
     = fst (gen_choice (gen_init (if sd is Some x then x else now)) n
                       (replicate (Z.to_nat n) (lit (1 / inject_Z n)%Q)))).
Proof.
  unfold randomWithReplacement, bind, lift, ret, int_truediv. split.
  - by intros ->.
  - intros Hn Hseed. replace (n =? 0) with false by lia.
    destruct (init_returns gen_init now n random_with_replacement_type false
                None (Some (repeat_list (lit (inject_Z 1 / inject_Z n)%Q) n))
                sd h Hseed) as [self Hself].
    exists self. split; [done|].
    apply init_inv in Hself. destruct Hself as (_ & -> & _).
    split_and!; [done|done|].
    rewrite (next_next_on _ _ _ _ (gen_init (if sd is Some x then x else now)))
      by apply lookup_insert_eq.
    unfold in_store, Sampler.next_on, _next_prob_on. cbn.
    unfold repeat_list.
    by destruct (gen_choice _ n _).
Qed.

(** Two samplers built by [Sampler.randomWithReplacement] with the same
    arguments and the same seed, at different times and among different
    objects, make the same draws. *)
Theorem randomWithReplacement_reproducible now1 now2 n p s (h1 h2 : gmap loc G)
    (self1 self2 : t) h1' h2' (m : nat) :
  randomWithReplacement gen_init now1 n p (Some s) h1 = (Ok self1, h1') ->
  randomWithReplacement gen_init now2 n p (Some s) h2 = (Ok self2, h2') ->
  fst (draws m (h1', self1)) = fst (draws m (h2', self2)).
Proof.
  unfold randomWithReplacement. intros Hb1 Hb2.
  assert (exists q,
            __init__ gen_init now1 n random_with_replacement_type false None
                     (Some q) (Some s) h1 = (Ok self1, h1') /\
            __init__ gen_init now2 n random_with_replacement_type false None
                     (Some q) (Some s) h2 = (Ok self2, h2')) as (q & Hi1 & Hi2).
  { destruct p as [p|]; unfold bind, ret, lift in Hb1, Hb2.
    - by exists p.
    - destruct (int_truediv 1 n) as [u|e]; [|done]. by eexists. }
  clear Hb1 Hb2. rename Hi1 into Hb1, Hi2 into Hb2.
  apply init_inv in Hb1, Hb2.
  destruct Hb1 as (_ & -> & ->), Hb2 as (_ & -> & ->).
  rewrite (draws_draws_on _ _ _ _ _ (gen_init s))
    by apply lookup_insert_eq.
  rewrite (draws_draws_on _ _ _ _ _ (gen_init s))
    by apply lookup_insert_eq.
  unfold in_store. cbn [fst].
  match goal with
  | |- fst (Sampler.draws_on _ _ _ _ ?a) = fst (Sampler.draws_on _ _ _ _ ?b) =>
      change b with (set_generator (fresh (dom h2)) a)
  end.
  by rewrite draws_on_set_generator.
Qed.

End FactoryFacts.
End FactoryFacts.


(** ** One iteration of ISTA and of FISTA *)

Module IterationFacts.
Section IterationFacts.
Context {F : Type} `{Scalar F}.
Import Container StoreFacts StoreInsertFacts ContainerRuns.
Implicit Types (h : gmap loc (list F)).

Lemma gradient_run h f x out xs vo :
  h !! x = Some xs -> h !! out = Some vo ->
  gradient f x out h = (Ok tt, <[out := gradient_entries f xs]> h).
Proof.
  intros Hx Ho. unfold gradient, bind.
  by rewrite (load_live _ _ _ Hx), (store_live _ _ _ _ Ho).
Qed.

Lemma look_run h (self : ISTA.t F) y t_ vx vxo vg vy :
  h !! ISTA.x self = Some vx -> h !! ISTA.x_old self = Some vxo ->
  h !! ISTA.gradient_update self = Some vg ->
  match y, vy with
  | Some y, Some v => h !! y = Some v
  | None, None => True
  | _, _ => False
  end ->
  ISTA.look self y t_ h
  = (Ok {| ISTA.view_x := vx; ISTA.view_x_old := vxo;
           ISTA.view_gradient_update := vg; ISTA.view_y := vy;
           ISTA.view_t := t_; ISTA.view_loss := ISTA.loss self |}, h).
Proof.
  intros Hx Hxo Hg Hy. unfold ISTA.look, bind.
  rewrite (load_live _ _ _ Hx), (load_live _ _ _ Hxo), (load_live _ _ _ Hg).
  destruct y as [y|], vy as [v|]; try done.
  unfold bind. by rewrite (load_live _ _ _ Hy).
Qed.

(** The gradient after the preconditioner, if there is one, has been
    applied to it. *)
Lemma precondition_run h (self : ISTA.t F) y t_ vx vxo vg vy :
  h !! ISTA.x self = Some vx -> h !! ISTA.x_old self = Some vxo ->
  h !! ISTA.gradient_update self = Some vg ->
  match y, vy with
  | Some y, Some v => h !! y = Some v
  | None, None => True
  | _, _ => False
  end ->
  ISTA.precondition self y t_ h
  = (Ok tt,
     match ISTA.preconditioner self with
     | Some P =>
         <[ISTA.gradient_update self :=
             P {| ISTA.view_x := vx; ISTA.view_x_old := vxo;
                  ISTA.view_gradient_update := vg; ISTA.view_y := vy;
                  ISTA.view_t := t_; ISTA.view_loss := ISTA.loss self |} vg]> h
     | None => h
     end).
Proof.
  intros Hx Hxo Hg Hy. unfold ISTA.precondition.
  destruct (ISTA.preconditioner self) as [P|]; [|done].
  unfold bind. rewrite (look_run h self y t_ vx vxo vg vy) by done.
  by rewrite (load_live _ _ _ Hg), (store_live _ _ _ _ Hg).
Qed.

(** [update()] of ISTA, on live and distinct buffers. *)
Lemma ista_update_run h (self : ISTA.t F) vx vxo vg :
  ISTA.x self <> ISTA.x_old self ->
  ISTA.x self <> ISTA.gradient_update self ->
  ISTA.x_old self <> ISTA.gradient_update self ->
  h !! ISTA.x self = Some vx -> h !! ISTA.x_old self = Some vxo ->
  h !! ISTA.gradient_update self = Some vg ->
  let view g := {| ISTA.view_x := vx; ISTA.view_x_old := vxo;
                   ISTA.view_gradient_update := g; ISTA.view_y := None;
                   ISTA.view_t := None; ISTA.view_loss := ISTA.loss self |} in
  let g0 := gradient_entries (ISTA.f self) vxo in
  let grad := match ISTA.preconditioner self with
              | Some P => P (view g0) g0
              | None => g0
              end in
  let s := ISTA.get_step_size (ISTA.step_size_rule self) (view grad) in
  let stepped := sapyb_entries (Number (lit 1%Q)) vxo (Number (fneg s)) grad in
  let x_new := proximal_entries (ISTA.g self) stepped (Number s) in
  ISTA.update (h, self)
  = (Ok tt, (<[ISTA.x self := x_new]>
               (<[ISTA.x_old self := stepped]>
                  (<[ISTA.gradient_update self := grad]> h)), self)).
Proof.
  intros Hxxo Hxg Hxog Hx Hxo Hg view g0 grad s stepped x_new.
  set (h1 := <[ISTA.gradient_update self := g0]> h).
  set (h2 := <[ISTA.gradient_update self := grad]> h).
  assert (ISTA.precondition self None None h1 = (Ok tt, h2)) as Hpre.
  { rewrite (precondition_run h1 self None None vx vxo g0 None)
      by (done || (subst h1; look_up)).
    subst h1 h2 grad. destruct (ISTA.preconditioner self); [|done].
    by rewrite insert_insert_eq. }
  unfold ISTA.update. unfold bind at 1. cbn [get_self fst snd].
  unfold bind at 1.
  rewrite (on_store_run _ _ _ _ _ (gradient_run _ _ _ _ _ _ Hxo Hg)).
  fold g0 h1. unfold bind at 1.
  rewrite (on_store_run _ _ _ _ _ Hpre). unfold bind at 1.
  erewrite on_store_run;
    [|apply (look_run h2 self None None vx vxo grad None);
      try (subst h2; look_up); done].
  fold (view grad). fold s. unfold bind at 1.
  erewrite on_store_run; [|eapply sapyb_run; subst h2; look_up].
  fold stepped.
  erewrite on_store_run; [|eapply proximal_run; subst h2; look_up].
  done.
Qed.

(** One iteration of ISTA, [update()] then [_update_previous_solution()],
    on an instance whose three buffers are live, distinct objects: with
    [grad] the (preconditioned) gradient of [f] at the current solution
    [x_old] and [s] the step size the rule gives, the buffer [x_old] is
    overwritten with [x_old - s*grad], [x] receives
    [prox_{s g}(x_old - s*grad)], and the swap makes that the current
    solution, which [get_output()] returns.  The three buffers are the same
    three objects afterwards, and no other object is written. *)
Theorem ista_iteration h (self : ISTA.t F) vx vxo vg :
  ISTA.x self <> ISTA.x_old self ->
  ISTA.x self <> ISTA.gradient_update self ->
  ISTA.x_old self <> ISTA.gradient_update self ->
  h !! ISTA.x self = Some vx -> h !! ISTA.x_old self = Some vxo ->
  h !! ISTA.gradient_update self = Some vg ->
  let view g := {| ISTA.view_x := vx; ISTA.view_x_old := vxo;
                   ISTA.view_gradient_update := g; ISTA.view_y := None;
                   ISTA.view_t := None; ISTA.view_loss := ISTA.loss self |} in
  let g0 := gradient_entries (ISTA.f self) vxo in
  let grad := match ISTA.preconditioner self with
              | Some P => P (view g0) g0
              | None => g0
              end in
  let s := ISTA.get_step_size (ISTA.step_size_rule self) (view grad) in
  let stepped := sapyb_entries (Number (lit 1%Q)) vxo (Number (fneg s)) grad in
  let x_new := proximal_entries (ISTA.g self) stepped (Number s) in
  let h' := <[ISTA.x self := x_new]>
              (<[ISTA.x_old self := stepped]>
                 (<[ISTA.gradient_update self := grad]> h)) in
  let self' := ISTA.set_x_x_old (ISTA.x_old self) (ISTA.x self) self in
  ISTA.update (h, self) = (Ok tt, (h', self)) /\
  ISTA._update_previous_solution (h', self) = (Ok tt, (h', self')) /\
  ISTA.get_output (h', self') = (Ok (ISTA.x self), (h', self')) /\
  h' !! ISTA.x_old self' = Some x_new /\
  h' !! ISTA.x self' = Some stepped /\
  ISTA.gradient_update self' = ISTA.gradient_update self /\
  forall l, l ∉ [ISTA.x self; ISTA.x_old self; ISTA.gradient_update self] ->
            h' !! l = h !! l.
Proof.
  intros Hxxo Hxg Hxog Hx Hxo Hg view g0 grad s stepped x_new h' self'.
  split_and!.
  - by apply (ista_update_run h self vx vxo vg).
  - done.
  - done.
  - subst h' self'. destruct self. cbn in *. look_up.
  - subst h' self'. destruct self. cbn in *. look_up.
  - by destruct self.
  - intros l Hl. repeat rewrite not_elem_of_cons in Hl.
    destruct Hl as (? & ? & ? & _). subst h'. look_up.
Qed.

(** [update()] of FISTA, on live and distinct buffers. *)
Lemma fista_update_run h (self : FISTA.t F) vx vxo vg vy :
  let b := FISTA.base self in
  let y := FISTA.y self in
  NoDup [ISTA.x b; ISTA.x_old b; ISTA.gradient_update b; y] ->
  h !! ISTA.x b = Some vx -> h !! ISTA.x_old b = Some vxo ->
  h !! ISTA.gradient_update b = Some vg -> h !! y = Some vy ->
  let t := FISTA.t_ self in
  let view g := {| ISTA.view_x := vx; ISTA.view_x_old := vxo;
                   ISTA.view_gradient_update := g; ISTA.view_y := Some vy;
                   ISTA.view_t := Some t; ISTA.view_loss := ISTA.loss b |} in
  let g0 := gradient_entries (ISTA.f b) vy in
  let grad := match ISTA.preconditioner b with
              | Some P => P (view g0) g0
              | None => g0
              end in
  let s := ISTA.get_step_size (ISTA.step_size_rule b) (view grad) in
  let stepped := sapyb_entries (Number (lit 1%Q)) vy (Number (fneg s)) grad in
  let x_new := proximal_entries (ISTA.g b) stepped (Number s) in
  let t' := fmul (lit 0.5%Q)
              (fadd (lit 1%Q)
                 (fsqrt (fadd (lit 1%Q) (fmul (lit 4%Q) (fsq t))))) in
  let y_new := sapyb_entries (Number (fdiv (fsub t (lit 1%Q)) t'))
                 (zip_with fsub x_new vxo) (Number (lit 1%Q)) x_new in
  FISTA.update (h, self)
  = (Ok tt,
     (<[y := y_new]>
        (<[y := zip_with fsub x_new vxo]>
           (<[ISTA.x b := x_new]>
              (<[y := stepped]> (<[ISTA.gradient_update b := grad]> h)))),
      FISTA.set_t t' (FISTA.set_t_old t self))).
Proof.
  intros b y Hnd Hx Hxo Hg Hy t view g0 grad s stepped x_new t' y_new.
  rewrite !NoDup_cons in Hnd. destruct Hnd as (Hn1 & Hn2 & Hn3 & _).
  repeat rewrite not_elem_of_cons in Hn1.
  repeat rewrite not_elem_of_cons in Hn2.
  repeat rewrite not_elem_of_cons in Hn3.
  destruct Hn1 as (? & ? & ? & _), Hn2 as (? & ? & _), Hn3 as (? & _).
  set (h1 := <[ISTA.gradient_update b := g0]> h).
  set (h2 := <[ISTA.gradient_update b := grad]> h).
  assert (ISTA.precondition b (Some y) (Some t) h1 = (Ok tt, h2)) as Hpre.
  { rewrite (precondition_run h1 b (Some y) (Some t) vx vxo g0 (Some vy))
      by (subst h1; look_up).
    subst h1 h2 grad. destruct (ISTA.preconditioner b); [|done].
    by rewrite insert_insert_eq. }
  unfold FISTA.update. unfold bind at 1. cbn [get_self fst snd].
  unfold bind at 1. cbn [set_self fst snd]. fold b y t.
  replace (FISTA.base (FISTA.set_t_old t self)) with b by (by destruct self).
  unfold bind at 1.
  rewrite (on_store_run _ _ _ _ _ (gradient_run _ _ _ _ _ _ Hy Hg)).
  fold g0 h1. unfold bind at 1.
  rewrite (on_store_run _ _ _ _ _ Hpre). unfold bind at 1.
  erewrite on_store_run;
    [|apply (look_run h2 b (Some y) (Some t) vx vxo grad (Some vy));
      subst h2; look_up].
  fold (view grad). fold s. unfold bind at 1.
  erewrite on_store_run; [|eapply sapyb_run; subst h2; look_up].
  fold stepped. unfold bind at 1.
  erewrite on_store_run; [|eapply proximal_run; subst h2; look_up].
  fold x_new. unfold bind at 1. cbn [set_self fst snd]. fold t'.
  unfold bind at 1.
  erewrite on_store_run; [|eapply subtract_run; subst h2; look_up].
  erewrite on_store_run; [|eapply sapyb_run; subst h2; look_up].
  reflexivity.
Qed.

(** One [update()] of FISTA on an instance whose four buffers are live,
    distinct objects: with [grad] the (preconditioned) gradient of [f] at
    the extrapolation point [y], [s] the step size and [t] the momentum,
    [x] receives [x_new = prox_{s g}(y - s*grad)], the momentum becomes
    [t' = 0.5*(1 + sqrt(1 + 4*t**2))] with [t_old = t], [y] receives
    [x_new + ((t - 1)/t')*(x_new - x_old)], and [x_old] is not written. *)
Theorem fista_update h (self : FISTA.t F) vx vxo vg vy :
  let b := FISTA.base self in
  let y := FISTA.y self in
  NoDup [ISTA.x b; ISTA.x_old b; ISTA.gradient_update b; y] ->
  h !! ISTA.x b = Some vx -> h !! ISTA.x_old b = Some vxo ->
  h !! ISTA.gradient_update b = Some vg -> h !! y = Some vy ->
  let t := FISTA.t_ self in
  let view g := {| ISTA.view_x := vx; ISTA.view_x_old := vxo;
                   ISTA.view_gradient_update := g; ISTA.view_y := Some vy;
                   ISTA.view_t := Some t; ISTA.view_loss := ISTA.loss b |} in
  let g0 := gradient_entries (ISTA.f b) vy in
  let grad := match ISTA.preconditioner b with
              | Some P => P (view g0) g0
              | None => g0
              end in
  let s := ISTA.get_step_size (ISTA.step_size_rule b) (view grad) in
  let stepped := sapyb_entries (Number (lit 1%Q)) vy (Number (fneg s)) grad in
  let x_new := proximal_entries (ISTA.g b) stepped (Number s) in
  let t' := fmul (lit 0.5%Q)
              (fadd (lit 1%Q)
                 (fsqrt (fadd (lit 1%Q) (fmul (lit 4%Q) (fsq t))))) in
  let y_new := sapyb_entries (Number (fdiv (fsub t (lit 1%Q)) t'))
                 (zip_with fsub x_new vxo) (Number (lit 1%Q)) x_new in
  exists h',
    FISTA.update (h, self)
    = (Ok tt, (h', FISTA.set_t t' (FISTA.set_t_old t self))) /\
    h' !! ISTA.x b = Some x_new /\ h' !! y = Some y_new /\
    h' !! ISTA.x_old b = Some vxo /\
    h' !! ISTA.gradient_update b = Some grad /\
    forall l, l ∉ [ISTA.x b; ISTA.gradient_update b; y] -> h' !! l = h !! l.
Proof.
  intros b y Hnd Hx Hxo Hg Hy t view g0 grad s stepped x_new t' y_new.
  pose proof (fista_update_run h self vx vxo vg vy Hnd Hx Hxo Hg Hy) as Hrun.
  rewrite !NoDup_cons in Hnd. destruct Hnd as (Hn1 & Hn2 & Hn3 & _).
  repeat rewrite not_elem_of_cons in Hn1.
  repeat rewrite not_elem_of_cons in Hn2.
  repeat rewrite not_elem_of_cons in Hn3.
  destruct Hn1 as (? & ? & ? & _), Hn2 as (? & ? & _), Hn3 as (? & _).
  eexists. split; [exact Hrun|].
  split_and!; [look_up..|].
  intros l Hl. repeat rewrite not_elem_of_cons in Hl.
  destruct Hl as (? & ? & ? & _). look_up.
Qed.

End IterationFacts.
End IterationFacts.


Module RunFacts.
Section RunFacts.
Context {F : Type} `{Scalar F}.
Import Container StoreFacts StoreInsertFacts ContainerRuns IterationFacts.
Implicit Types (h : gmap loc (list F)).

(** The buffers of an ISTA instance are live objects, no two the same. *)
Local Abbreviation ista_buffers b :=
  [ISTA.x b; ISTA.x_old b; ISTA.gradient_update b].
Local Abbreviation fista_buffers self :=
  (FISTA.y self :: ista_buffers (FISTA.base self)).
Local Abbreviation live_distinct h ls :=
  (NoDup ls /\ Forall (fun l => is_Some (h !! l)) ls).

Lemma evaluate_run h f x xs :
  h !! x = Some xs -> evaluate f x h = (Ok (call f xs), h).
Proof. intros Hx. unfold evaluate, bind. by rewrite (load_live _ _ _ Hx). Qed.

Lemma ista_call_safe h (b : ISTA.t F) (c : ISTA.call) :
  live_distinct h (ista_buffers b) ->
  exists h' b',
    ISTA.do_call c (h, b) = (Ok tt, (h', b')) /\
    live_distinct h' (ista_buffers b') /\
    (forall l, is_Some (h !! l) -> is_Some (h' !! l)).
Proof.
  intros [Hnd Hlive].
  rewrite !Forall_cons in Hlive.
  destruct Hlive as ([vx Hx] & [vxo Hxo] & [vg Hg] & _).
  pose proof Hnd as Hnd0.
  rewrite !NoDup_cons in Hnd. destruct Hnd as (Hn1 & Hn2 & _).
  repeat rewrite not_elem_of_cons in Hn1.
  repeat rewrite not_elem_of_cons in Hn2.
  destruct Hn1 as (? & ? & _), Hn2 as (? & _).
  destruct c; cbn [ISTA.do_call].
  - rewrite (ista_update_run h b vx vxo vg) by done. eexists _, _. split; [done|]. split.
    + split; [done|]. rewrite !Forall_cons. split_and!; try done;
        do 3 apply live_insert; eauto.
    + intros l Hl. by do 3 apply live_insert.
  - unfold ISTA._update_previous_solution, bind.
    cbn [get_self set_self fst snd].
    eexists _, _. split; [reflexivity|]. split.
    + destruct b. cbn in *. split.
      * rewrite !NoDup_cons. repeat rewrite not_elem_of_cons.
        split_and!; try done; try (by apply not_eq_sym);
          first [apply not_elem_of_nil | apply NoDup_nil_2].
      * rewrite !Forall_cons. split_and!; eauto.
    + done.
  - unfold ISTA.update_objective. unfold bind at 1. cbn [get_self fst snd].
    unfold bind at 1.
    rewrite (on_store_run _ _ _ _ _ (evaluate_run _ _ _ _ Hxo)).
    unfold bind at 1.
    rewrite (on_store_run _ _ _ _ _ (evaluate_run _ _ _ _ Hxo)).
    eexists _, _. split; [done|]. split; [|done].
    destruct b. cbn in *. split; [done|].
    rewrite !Forall_cons. split_and!; eauto.
Qed.

(** [set_up] makes three copies of [initial], at three new locations. *)
Lemma set_up_buffers cls loss initial f g step_size rule pc h h1 v
    (self : ISTA.t F) :
  h !! initial = Some v ->
  ISTA.set_up cls loss initial f g step_size rule pc h = (Ok self, h1) ->
  NoDup (ista_buffers self) /\
  Forall (fun l => h !! l = None /\ h1 !! l = Some v) (ista_buffers self) /\
  (forall l w, h !! l = Some w -> h1 !! l = Some w).
Proof.
  intros Hinit. unfold ISTA.set_up. unfold bind at 1.
  rewrite (ISTAFacts.copy_live _ _ _ Hinit). unfold bind at 1.
  pose proof (alloc_keeps h initial v v Hinit) as Hinit1.
  cbn in Hinit1. rewrite (ISTAFacts.copy_live _ _ _ Hinit1). unfold bind at 1.
  pose proof (alloc_keeps _ initial v v Hinit1) as Hinit2.
  cbn in Hinit2. rewrite (ISTAFacts.copy_live _ _ _ Hinit2).
  set (l1 := fresh (dom h)) in *.
  set (h1' := <[l1 := v]> h) in *. set (l2 := fresh (dom h1')) in *.
  set (h2 := <[l2 := v]> h1') in *. set (l3 := fresh (dom h2)) in *.
  assert (h !! l1 = None) as Hf1 by apply fresh_not_live.
  assert (h1' !! l2 = None) as Hf2 by apply fresh_not_live.
  assert (h2 !! l3 = None) as Hf3 by apply fresh_not_live.
  assert (l2 <> l1) by (intros Heq; subst h1'; rewrite Heq in Hf2;
                        by rewrite lookup_insert_eq in Hf2).
  assert (l3 <> l2) by (intros Heq; subst h2; rewrite Heq in Hf3;
                        by rewrite lookup_insert_eq in Hf3).
  assert (l3 <> l1).
  { intros Heq. subst h2 h1'. rewrite Heq in Hf3.
    by rewrite lookup_insert_ne, lookup_insert_eq in Hf3. }
  assert (h !! l2 = None) as Hf2'
    by (subst h1'; by rewrite lookup_insert_ne in Hf2).
  assert (h !! l3 = None) as Hf3'
    by (subst h2 h1'; by rewrite !lookup_insert_ne in Hf3).
  destruct (is_ZeroFunction _ && is_ZeroFunction _); [done|].
  unfold bind, ret, raise, lift. intros Heq.
  assert (h1 = <[l3 := v]> h2 /\ ISTA.x self = l2 /\ ISTA.x_old self = l1 /\
          ISTA.gradient_update self = l3) as (-> & -> & -> & ->).
  { destruct rule as [r|]; [destruct step_size; [done|]|];
      [|destruct (ISTA._calculate_default_step_size _ _ _); [|done]];
      injection Heq as <- <-; done. }
  split_and!.
  - rewrite !NoDup_cons. repeat rewrite not_elem_of_cons.
    split_and!; try done; first [apply not_elem_of_nil | apply NoDup_nil_2].
  - rewrite !Forall_cons. subst h2 h1'. split_and!; try done; look_up.
  - intros l w Hl. subst h2 h1'.
    assert (l <> l1 /\ l <> l2 /\ l <> l3) as (? & ? & ?)
      by (split_and!; intros ->; congruence).
    look_up.
Qed.

Lemma ista_run_snoc calls c (st : ISTA.state F) :
  ISTA.run (calls ++ [c]) st = snd (ISTA.do_call c (ISTA.run calls st)).
Proof. unfold ISTA.run. by rewrite fold_left_app. Qed.

(** ISTA after [set_up]: whatever sequence of [update],
    [_update_previous_solution] and [update_objective] calls has run, the
    three buffers are live objects, no two the same, and the next call
    returns without raising. *)
Theorem ista_run_safe cls loss initial f g step_size rule pc h v
    (self : ISTA.t F) h1 (calls : list ISTA.call) (c : ISTA.call) :
  h !! initial = Some v ->
  ISTA.set_up cls loss initial f g step_size rule pc h = (Ok self, h1) ->
  let st := ISTA.run calls (h1, self) in
  live_distinct (fst st) (ista_buffers (snd st)) /\
  fst (ISTA.do_call c st) = Ok tt.
Proof.
  intros Hinit Hset st.
  assert (live_distinct h1 (ista_buffers self)) as Hwf.
  { destruct (set_up_buffers _ _ _ _ _ _ _ _ _ _ _ _ Hinit Hset)
      as (Hnd & Hlive & _).
    split; [done|]. eapply Forall_impl; [exact Hlive|].
    intros l [_ Hl]. eauto. }
  assert (live_distinct (fst st) (ista_buffers (snd st))) as Hst.
  { subst st. induction calls as [|c' calls IH] using rev_ind; [done|].
    rewrite ista_run_snoc.
    destruct (ISTA.run calls (h1, self)) as [h2 b2]. cbn [fst snd] in IH.
    destruct (ista_call_safe h2 b2 c' IH) as (h3 & b3 & -> & Hwf3 & _).
    done. }
  split; [done|]. destruct st as [h2 b2].
  by destruct (ista_call_safe h2 b2 c Hst) as (h3 & b3 & -> & _).
Qed.

Lemma fista_call_safe h (self : FISTA.t F) (c : ISTA.call) :
  live_distinct h (fista_buffers self) ->
  exists h' self',
    FISTA.do_call c (h, self) = (Ok tt, (h', self')) /\
    live_distinct h' (fista_buffers self').
Proof.
  intros [Hnd Hlive].
  pose proof Hlive as Hlive0. rewrite !Forall_cons in Hlive.
  destruct Hlive as ([vy Hy] & [vx Hx] & [vxo Hxo] & [vg Hg] & _).
  pose proof Hnd as Hnd0. apply NoDup_cons in Hnd. destruct Hnd as [Hny Hnb].
  destruct c; cbn [FISTA.do_call].
  - assert (NoDup [ISTA.x (FISTA.base self); ISTA.x_old (FISTA.base self);
                   ISTA.gradient_update (FISTA.base self); FISTA.y self])
      as Hnd4.
    { rewrite !NoDup_cons in *. repeat rewrite not_elem_of_cons in *.
      repeat rewrite not_elem_of_cons in Hny.
      destruct Hnb as ((? & ? & _) & (? & _) & _), Hny as (? & ? & ? & _).
      split_and!; try done; try (by apply not_eq_sym);
        first [apply not_elem_of_nil | apply NoDup_nil_2]. }
    rewrite (fista_update_run h self vx vxo vg vy Hnd4 Hx Hxo Hg Hy).
    eexists _, _. split; [done|].
    replace (fista_buffers (FISTA.set_t _ (FISTA.set_t_old _ self)))
      with (fista_buffers self) by (by destruct self).
    split; [done|]. rewrite !Forall_cons.
    split_and!; try done; do 5 apply live_insert; eauto.
  - destruct (ista_call_safe h (FISTA.base self) ISTA.UpdatePreviousSolution)
      as (h' & b' & Hcall & _ & _).
    { split; [done|]. by apply Forall_cons in Hlive0 as [_ ?]. }
    cbn [ISTA.do_call] in Hcall.
    unfold FISTA._update_previous_solution, FISTA.inherited. cbn [fst snd].
    rewrite Hcall. eexists _, _. split; [done|].
    unfold ISTA._update_previous_solution, bind in Hcall.
    cbn [get_self set_self fst snd] in Hcall. injection Hcall as <- <-.
    destruct self as [b y t told]. destruct b. cbn in *. split.
    + rewrite !NoDup_cons in *. repeat rewrite not_elem_of_cons in *.
      repeat rewrite not_elem_of_cons in Hny.
      destruct Hnb as ((? & ? & _) & (? & _) & _), Hny as (? & ? & ? & _).
      split_and!; try done; try (by apply not_eq_sym);
        first [apply not_elem_of_nil | apply NoDup_nil_2].
    + rewrite !Forall_cons. split_and!; eauto.
  - destruct (ista_call_safe h (FISTA.base self) ISTA.UpdateObjective)
      as (h' & b' & Hcall & _ & _).
    { split; [done|]. by apply Forall_cons in Hlive0 as [_ ?]. }
    cbn [ISTA.do_call] in Hcall.
    unfold FISTA.update_objective, FISTA.inherited. cbn [fst snd].
    rewrite Hcall. eexists _, _. split; [done|].
    unfold ISTA.update_objective in Hcall. unfold bind at 1 in Hcall.
    cbn [get_self fst snd] in Hcall. unfold bind at 1 in Hcall.
    rewrite (on_store_run _ _ _ _ _ (evaluate_run _ _ _ _ Hxo)) in Hcall.
    unfold bind at 1 in Hcall.
    rewrite (on_store_run _ _ _ _ _ (evaluate_run _ _ _ _ Hxo)) in Hcall.
    cbn [set_self fst snd] in Hcall. injection Hcall as <- <-.
    destruct self as [b y t told]. destruct b. cbn in *. by split.
Qed.

Lemma fista_run_snoc calls c (st : FISTA.state F) :
  FISTA.run (calls ++ [c]) st = snd (FISTA.do_call c (FISTA.run calls st)).
Proof. unfold FISTA.run. by rewrite fold_left_app. Qed.

(** FISTA after [__init__]: the extrapolation point [y] and the three
    buffers of ISTA are four live objects, no two the same, whatever
    sequence of [update], [_update_previous_solution] and
    [update_objective] calls has run, and the next call returns without
    raising. *)
Theorem fista_run_safe initial f g step_size rule pc h v
    (self : FISTA.t F) h1 (calls : list ISTA.call) (c : ISTA.call) :
  h !! initial = Some v ->
  FISTA.__init__ initial f g step_size rule pc h = (Ok self, h1) ->
  let st := FISTA.run calls (h1, self) in
  live_distinct (fst st) (fista_buffers (snd st)) /\
  fst (FISTA.do_call c st) = Ok tt.
Proof.
  intros Hinit Hset st.
  assert (live_distinct h1 (fista_buffers self)) as Hwf.
  { unfold FISTA.__init__ in Hset. unfold bind at 1 in Hset.
    rewrite (ISTAFacts.copy_live _ _ _ Hinit) in Hset.
    unfold bind at 1 in Hset.
    pose proof (alloc_keeps h initial v v Hinit) as Hinit1. cbn in Hinit1.
    destruct (ISTA.set_up _ _ _ _ _ _ _ _ _) as [[b|e] h2] eqn:Hb; [|done].
    cbn in Hset. injection Hset as <- <-.
    destruct (set_up_buffers _ _ _ _ _ _ _ _ _ _ _ _ Hinit1 Hb)
      as (Hnd & Hlive & Hkeep).
    cbn [FISTA.y FISTA.base]. split.
    - apply NoDup_cons. split; [|done]. intros Hy.
      rewrite Forall_forall in Hlive. destruct (Hlive _ Hy) as [Hnone _].
      by rewrite lookup_insert_eq in Hnone.
    - apply Forall_cons. split.
      + exists v. apply Hkeep, lookup_insert_eq.
      + eapply Forall_impl; [exact Hlive|]. intros l [_ Hl]. eauto. }
  assert (live_distinct (fst st) (fista_buffers (snd st))) as Hst.
  { subst st. induction calls as [|c' calls IH] using rev_ind; [done|].
    rewrite fista_run_snoc.
    destruct (FISTA.run calls (h1, self)) as [h2 b2]. cbn [fst snd] in IH.
    by destruct (fista_call_safe h2 b2 c' IH) as (h3 & b3 & -> & Hwf3). }
  split; [done|]. destruct st as [h2 b2].
  by destruct (fista_call_safe h2 b2 c Hst) as (h3 & b3 & -> & _).
Qed.

End RunFacts.
End RunFacts.


Module StepSizeRuleFacts.
Section StepSizeRuleFacts.
Context {F : Type} `{Scalar F}.
Import Container StoreFacts.
Implicit Types (h : gmap loc (list F)).

Lemma set_up_result cls loss initial f g step_size rule pc h v :
  h !! initial = Some v ->
  let f' := match f with Some f => f | None => ZeroFunction end in
  let g' := match g with Some g => g | None => ZeroFunction end in
  is_ZeroFunction f' && is_ZeroFunction g' = false ->
  fst (ISTA.set_up cls loss initial f g step_size rule pc h)
  = match rule with
    | None =>
        match ISTA._calculate_default_step_size cls f' step_size with
        | Ok s =>
            Ok (ISTA.mk initial (fresh (dom h))
                  (fresh (dom (<[fresh (dom h) := v]> h)))
                  (fresh (dom (<[fresh (dom (<[fresh (dom h) := v]> h)) := v]>
                                 (<[fresh (dom h) := v]> h))))
                  f' g' (ISTA.ConstantStepSize s) pc loss true)
        | Raise e => Raise e
        end
    | Some r =>
        match step_size with
        | Some _ =>
            Raise (Exn TypeError
              "You have passed both a `step_size` and a `step_size_rule`, please pass one or the other")
        | None =>
            Ok (ISTA.mk initial (fresh (dom h))
                  (fresh (dom (<[fresh (dom h) := v]> h)))
                  (fresh (dom (<[fresh (dom (<[fresh (dom h) := v]> h)) := v]>
                                 (<[fresh (dom h) := v]> h))))
                  f' g' r pc loss true)
        end
    end.
Proof.
  intros Hinit f' g' Hnz. unfold ISTA.set_up. unfold bind at 1.
  rewrite (ISTAFacts.copy_live _ _ _ Hinit). unfold bind at 1.
  pose proof (alloc_keeps h initial v v Hinit) as Hinit1.
  cbn in Hinit1. rewrite (ISTAFacts.copy_live _ _ _ Hinit1). unfold bind at 1.
  pose proof (alloc_keeps _ initial v v Hinit1) as Hinit2.
  cbn in Hinit2. rewrite (ISTAFacts.copy_live _ _ _ Hinit2).
  fold f' g'. rewrite Hnz.
  destruct rule as [r|]; [destruct step_size; done|].
  unfold bind, lift, ret.
  by destruct (ISTA._calculate_default_step_size cls f' step_size).
Qed.

(** How [set_up] resolves the step size, for a problem it accepts ([f] and
    [g] not both zero functions).
    - A [step_size] and a [step_size_rule] together: TypeError.
    - A rule alone is kept; a [step_size] alone becomes a constant rule.
    - Neither: a differentiable [f] with Lipschitz constant [l] gets the
      constant step [0.99*2/l] from ISTA and [1/l] from FISTA, whose
      [_calculate_default_step_size] the inherited [set_up] calls; a zero
      [f] gets step [1]; an [f] without Lipschitz constant gives
      ValueError. *)
Theorem set_up_step_size_rule cls loss initial f g pc h v :
  h !! initial = Some v ->
  let f' := match f with Some f => f | None => ZeroFunction end in
  let g' := match g with Some g => g | None => ZeroFunction end in
  let set_up := ISTA.set_up cls loss initial f g in
  let rule_of r := match r with
                   | Ok self => Ok (ISTA.step_size_rule self)
                   | Raise e => Raise e
                   end in
  is_ZeroFunction f' && is_ZeroFunction g' = false ->
  (forall s r, fst (set_up (Some s) (Some r) pc h)
     = Raise (Exn TypeError
         "You have passed both a `step_size` and a `step_size_rule`, please pass one or the other")) /\
  (forall r, rule_of (fst (set_up None (Some r) pc h)) = Ok r) /\
  (forall s, rule_of (fst (set_up (Some s) None pc h))
             = Ok (ISTA.ConstantStepSize s)) /\
  (is_ZeroFunction f' = true ->
   rule_of (fst (set_up None None pc h))
   = Ok (ISTA.ConstantStepSize (lit 1%Q))) /\
  (is_ZeroFunction f' = false ->
   rule_of (fst (set_up None None pc h))
   = match L f' with
     | Some l =>
         if fis_zero l then Raise ZeroDivisionError
         else Ok (ISTA.ConstantStepSize
                    match cls with
                    | ISTA.ISTA_class => fdiv (fmul (lit 0.99%Q) (lit 2%Q)) l
                    | ISTA.FISTA_class => fdiv (lit 1%Q) l
                    end)
     | None => Raise (Exn ValueError "Function f is not differentiable")
     end).
Proof.
  intros Hinit f' g' set_up rule_of Hnz. subst set_up.
  split_and!; intros; rewrite (set_up_result _ _ _ _ _ _ _ _ _ v) by done;
    try done; fold f'; unfold ISTA._calculate_default_step_size.
  - by replace (is_ZeroFunction f') with true.
  - replace (is_ZeroFunction f') with false by done.
    destruct (L f') as [l|]; [|done]. unfold truediv.
    destruct cls; by destruct (fis_zero l).
Qed.

End StepSizeRuleFacts.
End StepSizeRuleFacts.


Module FormatFacts.

Lemma append_empty (s : string) : String.append s "" = s.
Proof.
  induction s as [|c s IH]; [reflexivity|].
  change (String c (String.append s "") = String c s). by rewrite IH.
Qed.

End FormatFacts.

Module StepSizeCases.
Section StepSizeCases.
Context {F : Type} `{Scalar F}.
Import Container SPDHG StepSizeFacts.

(** [set_step_sizes] with a [sigma] it rejects: ValueError, and neither
    [sigma] nor [tau] is assigned, whatever [tau] was passed.  The list
    must have one entry per block, each a positive number (an array entry
    is rejected too). *)
Theorem set_step_sizes_rejects_sigma (self : step_sizes F) sigma tau :
  (len sigma <> _ndual_subsets self ->
   set_step_sizes (Some sigma) tau self
   = (Raise (Exn ValueError
        "Please pass a list of floats to sigma with the same number of entries as number of operators"),
      self)) /\
  (len sigma = _ndual_subsets self ->
   Exists (fun s => positive_Number s = false) sigma ->
   set_step_sizes (Some sigma) tau self
   = (Raise (Exn ValueError "Sigma expected to be a positive number."), self)).
Proof.
  unfold set_step_sizes, bind, get, raise. cbn [fst snd]. split.
  - intros Hlen. by replace (len sigma =? _ndual_subsets self) with false by lia.
  - intros Hlen Hbad. replace (len sigma =? _ndual_subsets self) with true by lia.
    replace (forallb positive_Number sigma) with false; [done|].
    symmetry. apply not_true_is_false. intros Hall.
    rewrite forallb_forall in Hall. apply Exists_exists in Hbad.
    destruct Hbad as (s & Hs & Hneg). apply list_elem_of_In in Hs.
    rewrite (Hall s Hs) in Hneg. done.
Qed.

(** [set_step_sizes(sigma, tau)] with an acceptable [sigma] and a [tau]:
    both are stored as passed when [tau] is a positive number; otherwise
    ValueError is raised, its message ending with [str(tau)], after [sigma]
    has been assigned. *)
Theorem set_step_sizes_both_given (self : step_sizes F) sigma tau :
  len sigma = _ndual_subsets self ->
  Forall (fun s => positive_Number s = true) sigma ->
  set_step_sizes (Some sigma) (Some tau) self
  = if positive_Number tau
    then (Ok tt, set_tau tau (set_sigma sigma self))
    else (Raise (Exn ValueError
                   (String.append
                      "The step-sizes of SPDHG must be positive, passed tau = "
                      (str tau))),
          set_sigma sigma self).
Proof.
  intros Hlen Hpos. unfold set_step_sizes, bind, get, modify, ret, raise.
  cbn [fst snd].
  replace (len sigma =? _ndual_subsets self) with true by lia.
  replace (forallb positive_Number sigma) with true.
  - destruct (positive_Number tau); [done|].
    rewrite <- (FormatFacts.append_empty (str tau)) at 2. reflexivity.
  - symmetry. apply forallb_forall. intros s Hs%list_elem_of_In.
    by apply (proj1 (Forall_forall _ _) Hpos).
Qed.

Lemma tau_candidates_given (pn : list (F * F)) : forall ss : list F,
  Forall (fun '(_, ni, si) => fis_zero (fmul si (fsq ni)) = false) (zip pn ss) ->
  map_result tau_candidate (zip pn (map Number ss))
  = Ok (map (fun '(pi, ni, si) => fdiv pi (fmul si (fsq ni))) (zip pn ss)).
Proof.
  induction pn as [|[pi ni] pn IH]; intros [|si ss]; cbn; try done.
  intros [Hz Hrest]%Forall_cons. unfold truediv. rewrite Hz.
  by rewrite (IH ss Hrest).
Qed.

Context `{!ScalarLaws F}.

(** [set_step_sizes(sigma)] with an acceptable [sigma] (positive numbers
    [ss], one per block) and no [tau]: [sigma] is stored as passed and
    [tau = 0.99 * min(values exceeding 1e-8)], the values being
    [prob_weights[i] / (sigma[i] * norms[i]**2)].  (No division by zero,
    and some value exceeds 1e-8; otherwise the call raises.) *)
Theorem set_step_sizes_tau_from_sigma (self : step_sizes F) (ss : list F) m :
  let values := map (fun '(pi, ni, si) => fdiv pi (fmul si (fsq ni)))
                    (zip (zip (_prob_weights self) (_norms self)) ss) in
  len ss = _ndual_subsets self ->
  Forall (fun s => flt (lit 0%Q) s = true) ss ->
  Forall (fun '(_, ni, si) => fis_zero (fmul si (fsq ni)) = false)
         (zip (zip (_prob_weights self) (_norms self)) ss) ->
  min_ (filter (fun v => flt (lit (1 # 100000000)%Q) v) values) = Ok m ->
  set_step_sizes (Some (map Number ss)) None self
  = (Ok tt, set_tau (Number (fmul (fdiv (lit 0.99%Q) (lit 1%Q)) m))
              (set_sigma (map Number ss) self)).
Proof.
  intros values Hlen Hpos Hden Hmin.
  unfold set_step_sizes, bind, get, modify, ret, raise, lift, attribute.
  cbn [fst snd].
  replace (len (map Number ss) =? _ndual_subsets self) with true
    by (unfold len in *; rewrite length_map; lia).
  replace (forallb positive_Number (map Number ss)) with true.
  2:{ symmetry. apply forallb_forall. intros s Hs%list_elem_of_In.
      apply list_elem_of_fmap in Hs. destruct Hs as (v & -> & Hv). cbn.
      by apply (proj1 (Forall_forall _ _) Hpos). }
  destruct self as [n norms pw sg ta].
  cbn [_sigma _norms _prob_weights set_sigma] in *. unfold ret.
  rewrite (tau_candidates_given _ _ Hden). fold values. rewrite Hmin.
  cbn. unfold truediv. rewrite one_not_zero. cbn.
  by rewrite (fmul_comm m).
Qed.

(** [set_step_sizes_from_ratio(gamma, rho)] rejects, with ValueError and
    without assigning anything, a [gamma] or a [rho] that is an array or is
    not positive (the message for an array [rho] names gamma); and with its
    defaults, [gamma = 1.0] and [rho = 0.99], it does what
    [set_step_sizes()] does with neither [sigma] nor [tau]: the same step
    sizes or the same exception. *)
Theorem set_step_sizes_from_ratio_defaults (self : step_sizes F) :
  (forall w rho,
     set_step_sizes_from_ratio (ArrayLike w) rho self
     = (Raise (Exn ValueError
                 "We currently only support scalar values of gamma"), self)) /\
  (forall gamma rho, fle gamma (lit 0%Q) = true ->
     set_step_sizes_from_ratio (Number gamma) rho self
     = (Raise (Exn ValueError
          "The step-sizes of SPDHG are positive, gamma should also be positive"),
        self)) /\
  (forall gamma w, fle gamma (lit 0%Q) = false ->
     set_step_sizes_from_ratio (Number gamma) (ArrayLike w) self
     = (Raise (Exn ValueError
                 "We currently only support scalar values of gamma"), self)) /\
  (forall gamma rho, fle gamma (lit 0%Q) = false -> fle rho (lit 0%Q) = true ->
     set_step_sizes_from_ratio (Number gamma) (Number rho) self
     = (Raise (Exn ValueError
          "The step-sizes of SPDHG are positive, rho should also be positive"),
        self)) /\
  (fle (lit 1%Q) (lit 0%Q) = false -> fle (lit 0.99%Q) (lit 0%Q) = false ->
   set_step_sizes_from_ratio (Number (lit 1%Q)) (Number (lit 0.99%Q)) self
   = set_step_sizes None None self).
Proof.
  unfold set_step_sizes_from_ratio. split_and!.
  - done.
  - intros gamma rho Hg. unfold bind at 1. by rewrite Hg.
  - intros gamma w Hg. unfold bind at 1. by rewrite Hg.
  - intros gamma rho Hg Hr. unfold bind at 1. rewrite Hg. cbn [ret].
    unfold bind at 1. by rewrite Hr.
  - intros Hg Hr. unfold bind at 1. rewrite Hg. cbn [ret].
    unfold bind at 1. rewrite Hr. cbn [ret].
    unfold set_step_sizes, bind, get, modify, lift, attribute, ret.
    cbn [fst snd].
    destruct (map_result _ (_norms self)) as [s|e]; [|done]. cbn [fst snd].
    destruct self. cbn [_sigma set_sigma _prob_weights _norms].
    repeat (case_match; try done).
Qed.

End StepSizeCases.
End StepSizeCases.


Module SetUpFacts.
Section SetUpFacts.
Context {F : Type} `{Scalar F} {Smp : Type}.
Variable getattr_prob_weights : Smp -> option (list F).
Variable random_with_replacement : Z -> list F -> Smp.
Variable set_norms : list F -> M (Container.BlockOperator F) unit.
Import Container StoreFacts StoreInsertFacts ContainerRuns.
Implicit Types (h : gmap loc (list F)).

Local Abbreviation set_up :=
  (SPDHG.set_up getattr_prob_weights random_with_replacement set_norms).

Lemma allocations_return (ops : list (Operator F)) : forall h,
  exists ys h',
    map_M (fun K => allocate (range_size K) (lit 0%Q)) ops h = (Ok ys, h').
Proof.
  induction ops as [|K ops IH]; intros h; cbn [map_M]; [by eexists _, _|].
  unfold bind at 1. unfold allocate at 1, alloc at 1.
  destruct (IH (<[fresh (dom h) := replicate (range_size K) (lit 0%Q)]> h))
    as (ys & h' & Hys).
  unfold bind at 1. rewrite Hys. by eexists _, _.
Qed.

(** The probability weights [set_up] finds before it looks at the
    deprecated keyword arguments. *)
Local Abbreviation found_weights sampler prob_weights :=
  (match prob_weights with
   | Some p => Some p
   | None => match sampler with
             | Some s => getattr_prob_weights s
             | None => None
             end
   end).

(** [prob_weights] was passed although the sampler has the attribute. *)
Local Abbreviation clash sampler prob_weights :=
  (match prob_weights, sampler with
   | Some _, Some s => is_Some (getattr_prob_weights s)
   | _, _ => False
   end).

(** When [_deprecated_kwargs] returns, there was nothing for it to do:
    the probability weights and the block operator are as they were. *)
Lemma deprecated_kwargs_returns pw norms prob other (op : BlockOperator F)
    pw' op' :
  SPDHG._deprecated_kwargs set_norms pw norms prob other op = (Ok pw', op') ->
  pw' = pw /\ op' = op.
Proof.
  unfold SPDHG._deprecated_kwargs, bind, raise, ret.
  destruct prob as [p|]; [by destruct pw|].
  destruct norms as [n|].
  - by destruct (set_norms n op) as [[[]|e] op1].
  - destruct other; [|done]. by intros [= <- <-].
Qed.

(** The argument errors of [SPDHG.set_up], each raised before any container
    is allocated:
    - an [operator] that is not a BlockOperator: TypeError;
    - [prob_weights] passed with a sampler that has the attribute
      [prob_weights]: ValueError;
    - the deprecated [prob] passed when probability weights were found:
      ValueError; passed when none were found: NameError, for the module
      never imports [warnings], which the deprecation warning needs;
    - the deprecated [norms] passed (without [prob]): the block operator's
      [set_norms(norms)] is called first; the exception is its own if it
      raises and NameError if it returns, and either way the block
      operator is left as [set_norms] left it;
    - any other keyword argument: ValueError, the message ending with
      [str] of the dict of these arguments.
    And whatever makes [set_up] raise, the store of containers is as it
    was. *)
Theorem set_up_argument_errors loss f g sigma tau initial h :
  (forall sampler pw norms prob other,
     set_up loss f g None sigma tau initial sampler pw norms prob other h
     = (Raise (Exn TypeError "operator should be a BlockOperator"), h)) /\
  (forall op s p q norms prob other, getattr_prob_weights s = Some q ->
     set_up loss f g (Some op) sigma tau initial (Some s) (Some p) norms prob
            other h
     = (Raise (Exn ValueError
         " You passed a `prob_weights` argument and a sampler with attribute `prob_weights`, please remove the `prob_weights` argument."),
        h)) /\
  (forall op sampler pw, ~ clash sampler pw ->
     (forall norms prob other q, found_weights sampler pw = Some q ->
        set_up loss f g (Some op) sigma tau initial sampler pw norms
               (Some prob) other h
        = (Raise (Exn ValueError
            "`prob` is being deprecated to be replaced with a sampler class and `prob_weights`. You passed  a `prob` argument, and either a `prob_weights` argument or a sampler with a `prob_weights` property. Please give only one of the three. "),
           h)) /\
     (forall norms prob other, found_weights sampler pw = None ->
        set_up loss f g (Some op) sigma tau initial sampler pw norms
               (Some prob) other h
        = (Raise NameError, h)) /\
     (forall norms other,
        set_up loss f g (Some op) sigma tau initial sampler pw (Some norms)
               None other h
        = (Raise match fst (set_norms norms op) with
                 | Ok _ => builtin NameError
                 | Raise e => e
                 end, h) /\
        snd (SPDHG._deprecated_kwargs set_norms (found_weights sampler pw)
               (Some norms) None other op)
        = snd (set_norms norms op)) /\
     (forall kw other,
        set_up loss f g (Some op) sigma tau initial sampler pw None None
               (kw :: other) h
        = (Raise (Exn ValueError
                    (String.append
                       "Additional keyword arguments passed but not used: "
                       (str_dict (kw :: other)))), h))) /\
  (forall op sampler pw norms prob other e,
     fst (set_up loss f g op sigma tau initial sampler pw norms prob other h)
     = Raise e ->
     snd (set_up loss f g op sigma tau initial sampler pw norms prob other h)
     = h).
Proof.
  split_and!.
  - done.
  - intros op s p q norms prob other Hq. unfold SPDHG.set_up.
    unfold bind at 1, lift at 1. by rewrite Hq.
  - intros op sampler pw Hcompat.
    assert (match pw with
            | Some p =>
                match match sampler with
                      | Some s => getattr_prob_weights s
                      | None => None
                      end with
                | None => Ok (Some p)
                | Some _ =>
                    Raise (Exn ValueError
                      " You passed a `prob_weights` argument and a sampler with attribute `prob_weights`, please remove the `prob_weights` argument.")
                end
            | None => Ok match sampler with
                         | Some s => getattr_prob_weights s
                         | None => None
                         end
            end = Ok (found_weights sampler pw)) as Hfound.
    { destruct pw as [p|]; [|done]. destruct sampler as [s|]; [|done].
      destruct (getattr_prob_weights s) as [q|] eqn:Hq; [|done].
      exfalso. apply Hcompat. by exists q. }
    unfold SPDHG.set_up. split_and!.
    + intros norms prob other q Hq.
      unfold bind at 1, lift at 1. rewrite Hfound, Hq. done.
    + intros norms prob other Hq.
      unfold bind at 1, lift at 1. rewrite Hfound, Hq. done.
    + intros norms other. split.
      * unfold bind at 1, lift at 1. rewrite Hfound.
        unfold SPDHG._deprecated_kwargs, bind, raise, ret.
        by destruct (set_norms norms op) as [[[]|e] op1].
      * unfold SPDHG._deprecated_kwargs, bind, raise, ret.
        by destruct (set_norms norms op) as [[[]|e] op1].
    + intros kw other.
      unfold bind at 1, lift at 1. rewrite Hfound.
      unfold SPDHG._deprecated_kwargs, bind, raise, ret, lift.
      rewrite <- (FormatFacts.append_empty (str_dict (kw :: other))) at 2.
      reflexivity.
  - intros op0 sampler pw norms prob other e.
    destruct (set_up loss f g op0 sigma tau initial sampler pw norms prob
                     other h) as [r h'] eqn:Hrun.
    cbn [fst snd]. intros ->. revert Hrun. unfold SPDHG.set_up.
    destruct op0 as [op0|]; [|by intros [= _ <-]].
    unfold bind at 1, lift at 1.
    destruct (match pw with Some _ => _ | None => _ end) as [pw1|e1];
      [|by intros [= _ <-]].
    destruct (SPDHG._deprecated_kwargs _ _ _ _ _ _) as [[pw2|e2] op];
      [|by intros [= _ <-]].
    unfold bind at 1, lift at 1.
    unfold bind at 1, lift at 1.
    destruct (match pw2 with Some _ => _ | None => _ end) as [pw3|e3];
      [|by intros [= _ <-]].
    destruct (SPDHG.set_step_sizes _ _ _) as [[[]|e4] st];
      [|by intros [= _ <-]].
    unfold bind at 1, lift at 1. unfold bind at 1.
    assert (forall x h0, exists a h1,
              (let* _x_tmp := allocate (domain_size op) (lit 0%Q) in
               let* _y_old := map_M (fun K => allocate (range_size K) (lit 0%Q))
                                    (operators op) in
               let* _z := allocate (domain_size op) (lit 0%Q) in
               let* _zbar := allocate (domain_size op) (lit 0%Q) in
               ret (SPDHG.mk f g op
                      match sampler with
                      | Some s => s
                      | None => random_with_replacement (len (operators op)) pw3
                      end st x _x_tmp _y_old _z _zbar (lit 1%Q) loss true)) h0
              = (Ok a, h1)) as Hrest.
    { intros x h0. unfold bind at 1. unfold allocate at 1, alloc at 1.
      unfold bind at 1.
      destruct (allocations_return (operators op)
                  (<[fresh (dom h0) := replicate (domain_size op) (lit 0%Q)]> h0))
        as (ys & h2 & ->).
      unfold bind, allocate, alloc, ret. by eexists _, _. }
    destruct initial as [i|].
    + unfold copy. unfold bind at 1. unfold load.
      destruct (h !! i) as [v|]; [|by intros [= _ <-]].
      unfold alloc at 1.
      destruct (Hrest (fresh (dom h)) (<[fresh (dom h) := v]> h))
        as (a & h1 & ->). done.
    + unfold allocate at 1, alloc at 1.
      destruct (Hrest (fresh (dom h))
                  (<[fresh (dom h) := replicate (domain_size op) (lit 0%Q)]> h))
        as (a & h1 & ->). done.
Qed.


(** The dual variable [set_up] allocates: one new container of zeros per
    block, at new locations, nothing else touched. *)
Lemma allocations_spec (ops : list (Operator F)) : forall h,
  exists ys h',
    map_M (fun K => allocate (range_size K) (lit 0%Q)) ops h = (Ok ys, h') /\
    NoDup ys /\ Forall (fun l => h !! l = None) ys /\
    (forall l v, h !! l = Some v -> h' !! l = Some v) /\
    Forall2 (fun l K => h' !! l = Some (replicate (range_size K) (lit 0%Q)))
            ys ops.
Proof.
  induction ops as [|K ops IH]; intros h; cbn [map_M].
  - exists [], h. split_and!; [done|apply NoDup_nil_2|done|done|constructor].
  - unfold bind at 1. unfold allocate at 1, alloc at 1.
    set (l := fresh (dom h)).
    set (h1 := <[l := replicate (range_size K) (lit 0%Q)]> h).
    destruct (IH h1) as (ys & h' & Hys & Hnd & Hnew & Hkeep & Hzero).
    unfold bind at 1. rewrite Hys. cbn [ret].
    assert (h !! l = None) as Hl by apply fresh_not_live.
    assert (h1 !! l = Some (replicate (range_size K) (lit 0%Q))) as Hl1
      by apply lookup_insert_eq.
    exists (l :: ys), h'. split_and!.
    + done.
    + constructor; [|done]. intros Hin.
      rewrite Forall_forall in Hnew. specialize (Hnew l Hin). congruence.
    + constructor; [done|]. eapply Forall_impl; [exact Hnew|].
      intros l' Hl'. cbv beta in Hl'. subst h1.
      destruct (decide (l = l')) as [<-|Hne]; [done|].
      by rewrite lookup_insert_ne in Hl'.
    + intros l' v Hv. apply Hkeep. subst h1.
      rewrite lookup_insert_ne; [done|]. intros <-. congruence.
    + constructor; [by apply Hkeep|done].
Qed.

(** What [SPDHG.set_up] establishes when it returns: the primal iterate,
    the scratch container, [z], [zbar] and the blocks of the dual variable
    are objects that did not exist before, no two the same; [x] holds a
    copy of [initial] or zeros, all others hold zeros, the dual variable
    having one block per operator; the relaxation parameter is 1; and no
    object that existed before is changed. *)
Theorem set_up_configures loss f g op sigma tau initial sampler pw norms prob
    other h (self : SPDHG.t F Smp) h1 :
  set_up loss f g (Some op) sigma tau initial sampler pw norms prob other h
  = (Ok self, h1) ->
  let zeros := replicate (domain_size op) (lit 0%Q) in
  SPDHG.configured_in h1 self /\
  Forall (fun l => h !! l = None) (SPDHG.buffers self) /\
  (forall l v, h !! l = Some v -> h1 !! l = Some v) /\
  h1 !! SPDHG.x self = match initial with
                       | Some i => h !! i
                       | None => Some zeros
                       end /\
  h1 !! SPDHG._x_tmp self = Some zeros /\
  h1 !! SPDHG._z self = Some zeros /\ h1 !! SPDHG._zbar self = Some zeros /\
  Forall2 (fun l K => h1 !! l = Some (replicate (range_size K) (lit 0%Q)))
          (SPDHG._y_old self) (operators op) /\
  SPDHG.operator self = op /\ SPDHG._theta self = lit 1%Q /\
  SPDHG.loss self = loss.
Proof.
  unfold SPDHG.set_up.
  unfold bind at 1, lift at 1.
  destruct (match pw with Some _ => _ | None => _ end) as [pw1|e1]; [|done].
  destruct (SPDHG._deprecated_kwargs _ _ _ _ _ _) as [[pw2|e2] op'] eqn:Hdk;
    [|done].
  apply deprecated_kwargs_returns in Hdk as [-> ->].
  unfold bind at 1, lift at 1.
  unfold bind at 1, lift at 1.
  destruct (match pw1 with Some _ => _ | None => _ end) as [pw3|e3]; [|done].
  destruct (SPDHG.set_step_sizes _ _ _) as [[[]|e4] st]; [|done].
  unfold bind at 1, lift at 1. unfold bind at 1.
  assert ((exists v,
            match initial with
            | Some i => copy i
            | None => allocate (domain_size op) (lit 0%Q)
            end h = (Ok (fresh (dom h)), <[fresh (dom h) := v]> h) /\
            match initial with
            | Some i => h !! i
            | None => Some (replicate (domain_size op) (lit 0%Q))
            end = Some v) \/
          exists e, match initial with
                    | Some i => copy i
                    | None => allocate (domain_size op) (lit 0%Q)
                    end h = (Raise e, h)) as [(vx & -> & Hvx)|[e ->]];
    [| |done].
  { destruct initial as [i|]; [|left; by eexists].
    unfold copy, bind, load. destruct (h !! i) as [v|]; [left|right]; by eexists. }
  set (lx := fresh (dom h)). set (hx := <[lx := vx]> h).
  unfold bind at 1. unfold allocate at 1, alloc at 1.
  set (zeros := replicate (domain_size op) (lit 0%Q)).
  set (lt := fresh (dom hx)). set (ht := <[lt := zeros]> hx).
  unfold bind at 1.
  destruct (allocations_spec (operators op) ht)
    as (ys & hy & -> & Hnd & Hnew & Hkeep & Hzero).
  unfold bind at 1. unfold allocate at 1, alloc at 1.
  set (lz := fresh (dom hy)). set (hz := <[lz := zeros]> hy).
  unfold bind at 1. unfold allocate at 1, alloc at 1.
  set (lb := fresh (dom hz)). cbn [ret].
  intros [= <- <-]. cbv zeta. unfold SPDHG.configured_in, SPDHG.buffers.
  cbn [SPDHG.x SPDHG._x_tmp SPDHG._z SPDHG._zbar SPDHG._y_old
       SPDHG.operator SPDHG._theta SPDHG.loss].
  assert (h !! lx = None) as Hlx by apply fresh_not_live.
  assert (hx !! lt = None) as Hlt by apply fresh_not_live.
  assert (hy !! lz = None) as Hlz by apply fresh_not_live.
  assert (hz !! lb = None) as Hlb by apply fresh_not_live.
  assert (hx !! lx = Some vx) as Hx1 by apply lookup_insert_eq.
  assert (ht !! lt = Some zeros) as Ht1 by apply lookup_insert_eq.
  assert (hz !! lz = Some zeros) as Hz1 by apply lookup_insert_eq.
  assert (lt <> lx) as Ntx by (intros Heq; congruence).
  assert (ht !! lx = Some vx) as Hx2 by (subst ht; by rewrite lookup_insert_ne).
  assert (hy !! lx = Some vx) as Hx3 by (by apply Hkeep).
  assert (hy !! lt = Some zeros) as Ht3 by (by apply Hkeep).
  assert (lz <> lx) as Nzx by (intros Heq; congruence).
  assert (lz <> lt) as Nzt by (intros Heq; congruence).
  assert (hz !! lx = Some vx) as Hx4 by (subst hz; by rewrite lookup_insert_ne).
  assert (hz !! lt = Some zeros) as Ht4
    by (subst hz; by rewrite lookup_insert_ne).
  assert (lb <> lx) as Nbx by (intros Heq; congruence).
  assert (lb <> lt) as Nbt by (intros Heq; congruence).
  assert (lb <> lz) as Nbz by (intros Heq; congruence).
  assert (forall l, l ∈ ys ->
            l <> lx /\ l <> lt /\ l <> lz /\ l <> lb /\ h !! l = None /\
            is_Some (hy !! l)) as Hys.
  { intros l Hl.
    assert (is_Some (hy !! l)) as [w Hw].
    { apply list_elem_of_lookup in Hl. destruct Hl as [k Hk].
      destruct (Forall2_lookup_l _ _ _ _ _ Hzero Hk) as (K & _ & HK). eauto. }
    rewrite Forall_forall in Hnew. specialize (Hnew l Hl).
    assert (l <> lt) by (intros ->; congruence).
    assert (l <> lx).
    { intros ->. subst ht. rewrite lookup_insert_ne in Hnew by done. congruence. }
    assert (l <> lz) by (intros ->; congruence).
    assert (l <> lb).
    { intros ->. subst hz. rewrite lookup_insert_ne in Hlb by done. congruence. }
    split_and!; try done; try (by exists w).
    subst ht hx. by rewrite !lookup_insert_ne in Hnew. }
  split_and!.
  - rewrite !NoDup_cons. repeat rewrite not_elem_of_cons. split_and!; try done;
      try (by apply not_eq_sym); intros Hin; destruct (Hys _ Hin); tauto.
  - rewrite !Forall_cons. split_and!.
    + exists vx. subst hz. look_up.
    + exists zeros. subst hz. look_up.
    + exists zeros. subst hz. look_up.
    + exists zeros. look_up.
    + apply Forall_forall. intros l Hl.
      destruct (Hys l Hl) as (? & ? & ? & ? & ? & [w Hw]).
      exists w. subst hz. look_up.
  - rewrite !Forall_cons. split_and!.
    + done.
    + subst hx. by rewrite lookup_insert_ne in Hlt.
    + assert (ht !! lz = None) as Hn.
      { destruct (ht !! lz) as [w|] eqn:Hw; [|done].
        apply Hkeep in Hw. congruence. }
      subst ht hx. by rewrite !lookup_insert_ne in Hn.
    + assert (hy !! lb = None) as Hn
        by (subst hz; by rewrite lookup_insert_ne in Hlb).
      assert (ht !! lb = None) as Hn2.
      { destruct (ht !! lb) as [w|] eqn:Hw; [|done].
        apply Hkeep in Hw. congruence. }
      subst ht hx. by rewrite !lookup_insert_ne in Hn2.
    + apply Forall_forall. intros l Hl. by destruct (Hys l Hl) as (_&_&_&_&?&_).
  - intros l v Hv.
    assert (l <> lx) by (intros ->; congruence).
    assert (ht !! l = Some v) as Hv2.
    { subst ht hx. rewrite !lookup_insert_ne; try done.
      intros <-. rewrite lookup_insert_ne in Hlt by done. congruence. }
    apply Hkeep in Hv2.
    assert (l <> lz) by (intros ->; congruence).
    assert (l <> lb).
    { intros ->. subst hz. rewrite lookup_insert_ne in Hlb by done. congruence. }
    subst hz. look_up.
  - fold zeros in Hvx. rewrite Hvx. subst hz. look_up.
  - subst hz. look_up.
  - subst hz. look_up.
  - look_up.
  - eapply Forall2_impl; [exact Hzero|]. intros l K Hl. cbv beta in *.
    assert (l <> lz) by (intros ->; congruence).
    assert (l <> lb).
    { intros ->. subst hz. rewrite lookup_insert_ne in Hlb by done. congruence. }
    subst hz. look_up.
  - done.
  - done.
  - done.
Qed.

End SetUpFacts.
End SetUpFacts.


(** ** Liveness: no method deletes an object *)

Module GrowRules.
Section GrowRules.
Context {V : Type}.
Import StoreInsertFacts.

Lemma grows_ret {A} (a : A) : grows (V:=V) (ret a).
Proof. by intros h l Hl. Qed.

Lemma grows_raise {A} e : grows (V:=V) (A:=A) (raise e).
Proof. by intros h l Hl. Qed.

Lemma grows_lift {A} (r : result A) : grows (V:=V) (lift r).
Proof. by intros h l Hl. Qed.

Lemma grows_bind {A B} (m : M (gmap loc V) A) (k : A -> M (gmap loc V) B) :
  grows m -> (forall a, grows (k a)) -> grows (bind m k).
Proof.
  intros Hm Hk h l Hl. unfold bind. specialize (Hm h l Hl).
  destruct (m h) as [[a|e] h1]; [|done]. by apply Hk.
Qed.

Lemma grows_load l0 : grows (V:=V) (load l0).
Proof. intros h l Hl. unfold load. by destruct (h !! l0). Qed.

Lemma grows_store l0 (v : V) : grows (store l0 v).
Proof.
  intros h l Hl. unfold store. destruct (h !! l0); [|done].
  by apply live_insert.
Qed.

Lemma grows_alloc (v : V) : grows (alloc v).
Proof. intros h l Hl. by apply live_insert. Qed.

Lemma grows_map_M {A B} (f : A -> M (gmap loc V) B) (l : list A) :
  (forall a, grows (f a)) -> grows (map_M f l).
Proof.
  intros Hf. induction l as [|a l IH]; cbn [map_M]; [apply grows_ret|].
  apply grows_bind; [done|intros b].
  apply grows_bind; [done|intros bs]. apply grows_ret.
Qed.

Context {St : Type} (R : St -> St -> Prop).
Hypothesis R_refl : forall s, R s s.
Hypothesis R_trans : forall s1 s2 s3, R s1 s2 -> R s2 s3 -> R s1 s3.

Lemma grows_self_ret {A} (a : A) : grows_self (V:=V) R (ret a).
Proof. by intros h s. Qed.

Lemma grows_self_raise {A} e : grows_self (V:=V) (A:=A) R (raise e).
Proof. by intros h s. Qed.

Lemma grows_self_lift {A} (r : result A) : grows_self (V:=V) R (lift r).
Proof. by intros h s. Qed.

Lemma grows_self_bind {A B} (m : M (gmap loc V * St) A)
    (k : A -> M (gmap loc V * St) B) :
  grows_self R m -> (forall a, grows_self R (k a)) -> grows_self R (bind m k).
Proof.
  intros Hm Hk h s. unfold bind. destruct (Hm h s) as [Hl HR].
  destruct (m (h, s)) as [[a|e] [h1 s1]]; [|done]. cbn [fst snd] in *.
  destruct (Hk a h1 s1) as [Hl2 HR2]. split; [by auto|by eapply R_trans].
Qed.

Lemma grows_self_on_store {A} (m : M (gmap loc V) A) :
  grows m -> grows_self (St:=St) R (on_store m).
Proof.
  intros Hm h s. unfold on_store. cbn [fst snd]. specialize (Hm h).
  destruct (m h) as [r h1]. by split.
Qed.

Lemma grows_self_get_self : grows_self (V:=V) R get_self.
Proof. by intros h s. Qed.

Lemma grows_self_set_self (f : St -> St) :
  (forall s, R s (f s)) -> grows_self (V:=V) R (set_self f).
Proof. intros Hf h s. by split. Qed.

Lemma grows_self_map_M {A B} (f : A -> M (gmap loc V * St) B) (l : list A) :
  (forall a, grows_self R (f a)) -> grows_self R (map_M f l).
Proof.
  intros Hf. induction l as [|a l IH]; cbn [map_M]; [apply grows_self_ret|].
  apply grows_self_bind; [done|intros b].
  apply grows_self_bind; [done|intros bs]. apply grows_self_ret.
Qed.

End GrowRules.
End GrowRules.

(** One step of a liveness proof; [refl] and [trans] say that the relation
    on the attributes is a preorder. *)
Ltac grow_store_rule :=
  lazymatch goal with
  | |- grows (bind _ _) => apply GrowRules.grows_bind; [|intros ?]
  | |- grows (ret _) => apply GrowRules.grows_ret
  | |- grows (raise _) => apply GrowRules.grows_raise
  | |- grows (lift _) => apply GrowRules.grows_lift
  | |- grows (load _) => apply GrowRules.grows_load
  | |- grows (store _ _) => apply GrowRules.grows_store
  | |- grows (alloc _) => apply GrowRules.grows_alloc
  | |- grows (map_M _ _) => apply GrowRules.grows_map_M; intros ?
  | |- grows (match ?x with _ => _ end) => destruct x
  end.

Ltac grow_rule refl trans :=
  lazymatch goal with
  | |- grows_self _ (bind _ _) =>
      apply (GrowRules.grows_self_bind _ trans); [|intros ?]
  | |- grows_self _ (on_store _) =>
      apply (GrowRules.grows_self_on_store _ refl)
  | |- grows_self _ get_self => apply (GrowRules.grows_self_get_self _ refl)
  | |- grows_self _ (ret _) => apply (GrowRules.grows_self_ret _ refl)
  | |- grows_self _ (raise _) => apply (GrowRules.grows_self_raise _ refl)
  | |- grows_self _ (lift _) => apply (GrowRules.grows_self_lift _ refl)
  | |- grows_self _ (map_M _ _) =>
      apply (GrowRules.grows_self_map_M _ refl trans); intros ?
  | |- grows_self _ (match ?x with _ => _ end) => destruct x
  | |- grows _ => grow_store_rule
  end.

Module SPDHGLiveness.
Section SPDHGLiveness.
Context {F : Type} `{Scalar F} {Smp : Type}.
Variable sampler_next : M Smp Z.
Import Container StoreInsertFacts.

Local Abbreviation same := (SPDHG.same_configuration (F:=F) (Smp:=Smp)).

Lemma same_refl (s : SPDHG.t F Smp) : same s s.
Proof. by destruct s. Qed.

Lemma same_trans (s1 s2 s3 : SPDHG.t F Smp) :
  same s1 s2 -> same s2 s3 -> same s1 s3.
Proof.
  unfold SPDHG.same_configuration. intros H12 H23.
  rewrite H23. rewrite H12. by destruct s1.
Qed.

Lemma grows_container_ops :
  (forall x y : loc, grows (V:=list F) (fill x y)) /\
  (forall x a y b z, grows (V:=list F) (sapyb x a y b z)) /\
  (forall x y z, grows (V:=list F) (subtract x y z)) /\
  (forall x y z, grows (V:=list F) (add x y z)) /\
  (forall f x a z, grows (V:=list F) (proximal f x a z)) /\
  (forall f x a, grows (V:=list F) (proximal_conjugate f x a)) /\
  (forall f x, grows (V:=list F) (evaluate f x)) /\
  (forall K x, grows (V:=list F) (direct K x)) /\
  (forall K y out, grows (V:=list F) (adjoint_out K y out)).
Proof.
  unfold fill, sapyb, subtract, add, proximal, proximal_conjugate, evaluate,
    direct, adjoint_out.
  split_and!; intros; repeat grow_store_rule.
Qed.

Lemma grows_next_sample : grows_self same (SPDHG.next_sample sampler_next).
Proof.
  intros h s. unfold SPDHG.next_sample. cbn [fst snd].
  destruct (sampler_next (SPDHG._sampler s)) as [r smp]. cbn [fst snd].
  split; [done|]. by destruct s.
Qed.

Lemma grows_block_ops :
  (forall f y, grows (V:=list F) (SPDHG.block_convex_conjugate f y)) /\
  (forall op y, grows (V:=list F) (SPDHG.block_adjoint op y)).
Proof.
  unfold SPDHG.block_convex_conjugate, SPDHG.block_adjoint.
  split; intros; repeat grow_store_rule.
Qed.

Ltac grow :=
  first [ apply grows_next_sample
        | apply grows_container_ops
        | apply grows_block_ops
        | grow_rule same_refl same_trans ].

Lemma grows_update : grows_self same (SPDHG.update sampler_next).
Proof.
  unfold SPDHG.update, SPDHG.attribute. repeat grow.
Qed.

Lemma grows_update_objective : grows_self same SPDHG.update_objective.
Proof.
  unfold SPDHG.update_objective. repeat grow.
  apply GrowRules.grows_self_set_self. intros s. by destruct s.
Qed.

(** A configured SPDHG instance stays configured: through any sequence of
    [update] and [update_objective] calls, including calls that raise, its
    buffers remain the same live objects, no two the same, and nothing of
    the instance changes but the sampler and the logged objective
    values. *)
Theorem run_keeps_configuration (h : gmap loc (list F))
    (self : SPDHG.t F Smp) (calls : list SPDHG.call) :
  SPDHG.configured_in h self ->
  let st := SPDHG.run sampler_next calls (h, self) in
  SPDHG.configured_in (fst st) (snd st) /\
  SPDHG.same_configuration self (snd st) /\
  forall l, is_Some (h !! l) -> is_Some (fst st !! l).
Proof.
  intros Hc st. subst st.
  assert (forall c, grows_self same (SPDHG.do_call sampler_next c)) as Hcall
    by (intros []; [apply grows_update|apply grows_update_objective]).
  assert (forall st0 : SPDHG.state F Smp,
            same self (snd st0) ->
            (forall l, is_Some (h !! l) -> is_Some (fst st0 !! l)) ->
            same self (snd (SPDHG.run sampler_next calls st0)) /\
            forall l, is_Some (h !! l) ->
                      is_Some (fst (SPDHG.run sampler_next calls st0) !! l))
    as Hrun.
  { induction calls as [|c calls IH]; intros [h0 s0] Hs Hl; [done|].
    cbn [SPDHG.run fold_left]. destruct (Hcall c h0 s0) as [Hl1 Hs1].
    apply IH; [by eapply same_trans|].
    intros l Hlive. destruct (SPDHG.do_call _ _ _) as [r [h1 s1]]. auto. }
  destruct (Hrun (h, self) (same_refl self)) as [Hsame Hlive]; [done|].
  split_and!; [|done|done].
  destruct Hc as [Hnd Hl0].
  assert (SPDHG.buffers (snd (SPDHG.run sampler_next calls (h, self)))
          = SPDHG.buffers self) as Hb by (rewrite Hsame; by destruct self).
  split; rewrite Hb; [done|].
  eapply Forall_impl; [exact Hl0|]. intros l Hl. by apply Hlive.
Qed.

End SPDHGLiveness.
End SPDHGLiveness.


Module BackProjectionFacts.
Section BackProjectionFacts.
Context {F : Type} `{Scalar F} {Smp : Type}.
Variable sampler_next : M Smp Z.
Import Container StoreFacts StoreInsertFacts ContainerRuns UpdateFacts.

Local Abbreviation update := (SPDHG.update sampler_next).

(** The second half of an [update] call that samples index [i], on a
    configured instance: with [y_new] the new dual variable of block [i]
    and [yo] the old one, the scratch container receives the
    back-projection [bp = K_i^T(y_new - yo)], [z] becomes [z + bp] and
    [zbar] becomes [z + bp + (theta/p_i)*bp]; apart from these three, [x]
    and the dual block [i], no object that was live is changed. *)
Theorem update_back_projection (h : gmap loc (list F)) (self : SPDHG.t F Smp)
    tau sigma i smp' K sigma_i f_i p_i y_old_i xv zbv yo zv :
  SPDHG.configured_in h self ->
  SPDHG._tau (SPDHG.steps self) = Some tau ->
  SPDHG._sigma (SPDHG.steps self) = Some sigma ->
  sampler_next (SPDHG._sampler self) = (Ok i, smp') ->
  getitem (operators (SPDHG.operator self)) i = Ok K ->
  getitem sigma i = Ok sigma_i ->
  getitem (SPDHG._y_old self) i = Ok y_old_i ->
  getitem (SPDHG.f self) i = Ok f_i ->
  getitem (SPDHG._prob_weights (SPDHG.steps self)) i = Ok p_i ->
  fis_zero p_i = false ->
  h !! SPDHG.x self = Some xv -> h !! SPDHG._zbar self = Some zbv ->
  h !! y_old_i = Some yo -> h !! SPDHG._z self = Some zv ->
  let x1 := proximal_entries (SPDHG.g self)
              (sapyb_entries (Number (lit 1%Q)) xv (neg tau) zbv) tau in
  let y_k := sapyb_entries sigma_i (direct_entries K x1) (Number (lit 1%Q)) yo in
  let y_new := proximal_conjugate_entries f_i y_k sigma_i in
  let bp := adjoint_entries K (zip_with fsub y_new yo) in
  let z1 := zip_with fadd zv bp in
  exists h',
    update (h, self) = (Ok tt, (h', SPDHG.set_sampler smp' self)) /\
    h' !! SPDHG._x_tmp self = Some bp /\
    h' !! SPDHG._z self = Some z1 /\
    h' !! SPDHG._zbar self
    = Some (sapyb_entries (Number (lit 1%Q)) z1
              (Number (fdiv (SPDHG._theta self) p_i)) bp) /\
    forall l v,
      h !! l = Some v ->
      l ∉ [SPDHG.x self; SPDHG._x_tmp self; SPDHG._z self; SPDHG._zbar self;
           y_old_i] ->
      h' !! l = Some v.
Proof.
  intros Hc Htau Hsigma Hnext HK Hsi Hyi Hfi Hpi Hp0 Hx Hzb Hyo Hz0
    x1 y_k y_new bp z1.
  destruct (configured_in_lookups h self Hc)
    as (_ & [xt Hxt] & _ & _ & Hn1 & Hn2 & Hn3 & Hn4 & Hn5 & Hn6 & Hy).
  destruct (Hy y_old_i (getitem_elem_of _ _ _ Hyi)) as (_ & Hm1 & Hm2 & Hm3 & Hm4).
  pose proof Hz0 as Hz.
  set (xt1 := sapyb_entries (Number (lit 1%Q)) xv (neg tau) zbv) in *.
  set (h2 := <[SPDHG.x self := x1]> (<[SPDHG._x_tmp self := xt1]> h)).
  set (ly := fresh (dom h2)).
  set (h4 := <[ly := y_k]> (<[ly := direct_entries K x1]> h2)).
  set (ly2 := fresh (dom h4)).
  assert (forall l v, h !! l = Some v -> l <> ly) as Hly.
  { intros l v Hl. apply is_Some_not_fresh. subst h2.
    do 2 apply live_insert. eauto. }
  assert (forall l v, h !! l = Some v -> l <> ly2) as Hly2.
  { intros l v Hl. apply is_Some_not_fresh. subst h4 h2.
    do 4 apply live_insert. eauto. }
  assert (ly2 <> ly) as Hll.
  { apply not_eq_sym. eapply (live_not_fresh h4). subst h4.
    apply lookup_insert_eq. }
  pose proof (Hly _ _ Hx). pose proof (Hly _ _ Hxt). pose proof (Hly _ _ Hz).
  pose proof (Hly _ _ Hzb). pose proof (Hly _ _ Hyo).
  pose proof (Hly2 _ _ Hx). pose proof (Hly2 _ _ Hxt). pose proof (Hly2 _ _ Hz).
  pose proof (Hly2 _ _ Hzb). pose proof (Hly2 _ _ Hyo).
  eexists. split.
  - unfold SPDHG.update. unfold bind at 1. cbn [get_self fst snd].
    rewrite Htau, Hsigma. unfold bind at 1. cbn [SPDHG.attribute ret].
    unfold bind at 1.
    rewrite (on_store_run _ _ _ _ _ (sapyb_run _ _ _ _ _ _ _ _ _ Hx Hzb Hxt)).
    fold xt1. unfold bind at 1.
    erewrite on_store_run; [|eapply proximal_run; look_up].
    unfold bind at 1. unfold SPDHG.next_sample at 1. cbn [fst snd].
    rewrite Hnext. unfold bind at 1.
    cbn [SPDHG.operator SPDHG.set_sampler SPDHG.f SPDHG.g SPDHG.x SPDHG._x_tmp
         SPDHG._y_old SPDHG._z SPDHG._zbar SPDHG.steps SPDHG._theta].
    rewrite HK. unfold bind at 1.
    erewrite on_store_run; [|eapply direct_run; look_up].
    fold x1 h2 ly.
    unfold bind at 1. cbn [ret SPDHG.attribute]. rewrite Hsi, Hyi, Hfi, Hpi.
    unfold bind at 1. cbn [lift]. unfold bind at 1. cbn [lift].
    unfold bind at 1.
    erewrite on_store_run; [|eapply sapyb_run; subst h2; look_up].
    fold y_k h4.
    unfold bind at 1. cbn [lift]. unfold bind at 1. cbn [lift].
    unfold bind at 1.
    erewrite on_store_run; [|eapply proximal_conjugate_run; subst h4; look_up].
    fold y_k y_new ly2.
    unfold bind at 1. cbn [lift]. unfold bind at 1. cbn [lift].
    unfold bind at 1.
    erewrite on_store_run; [|eapply subtract_run; subst h4 h2; look_up].
    unfold bind at 1. cbn [lift]. unfold bind at 1. cbn [lift].
    unfold bind at 1.
    erewrite on_store_run; [|eapply adjoint_out_run; subst h4 h2; look_up].
    unfold bind at 1.
    erewrite on_store_run; [|eapply add_run; subst h4 h2; look_up].
    unfold bind at 1. cbn [lift]. unfold truediv. rewrite Hp0.
    unfold bind at 1. cbn [lift]. unfold bind at 1.
    erewrite on_store_run; [|eapply sapyb_run; subst h4 h2; look_up].
    unfold bind. cbn [lift].
    erewrite on_store_run; [|eapply fill_run; subst h4 h2; look_up].
    reflexivity.
  - subst h4 h2. split_and!; [look_up..|].
    intros l v Hv Hl. repeat rewrite not_elem_of_cons in Hl.
    destruct Hl as (? & ? & ? & ? & ? & _).
    pose proof (Hly _ _ Hv). pose proof (Hly2 _ _ Hv). look_up.
Qed.

End BackProjectionFacts.
End BackProjectionFacts.


Module ObjectiveLogFacts.
Section ObjectiveLogFacts.
Context {F : Type} `{Scalar F} {Smp : Type}.
Variable sampler_next : M Smp Z.
Import Container StoreInsertFacts SPDHGLiveness.

(** An entry of the log as [update_objective] writes it:
    [[primal, dual, primal - dual]]. *)
Local Abbreviation logged e := (exists p d : F, e = [p; d; fsub p d]).

Lemma eq_trans' (s1 s2 s3 : SPDHG.t F Smp) : s1 = s2 -> s2 = s3 -> s1 = s3.
Proof. congruence. Qed.

Ltac unchanged :=
  first [ apply grows_container_ops
        | apply grows_block_ops
        | grow_rule (@eq_refl (SPDHG.t F Smp)) eq_trans' ].

(** Run the head of the computation, which leaves [self] as it is. *)
Ltac run_head :=
  unfold bind at 1;
  match goal with
  | |- context [?m (?h, ?s)] =>
      let Hs := fresh "Hs" in
      assert (grows_self eq m) as Hs by (repeat unchanged);
      destruct (Hs h s) as [_ Hs'];
      destruct (m (h, s)) as [[?|?] [? ?]]; cbn [fst snd] in Hs'; subst;
      [|intros [= _ _ <-]; by left]
  end.

(** [update_objective] appends one entry, [[p, d, p - d]], to the log, or
    raises and leaves the instance as it is. *)
Lemma update_objective_log h (s : SPDHG.t F Smp) r h' s' :
  SPDHG.update_objective (h, s) = (r, (h', s')) ->
  s' = s \/
  exists p d, s' = SPDHG.set_loss (SPDHG.loss s ++ [[p; d; fsub p d]]) s.
Proof.
  unfold SPDHG.update_objective. unfold bind at 1. cbn [get_self fst snd].
  run_head. run_head. run_head. run_head. run_head. run_head. run_head.
  intros [= _ _ <-]. right. eexists _, _. reflexivity.
Qed.

(** The log only grows, by entries [[p, d, p - d]]. *)
Local Abbreviation extends s s' :=
  (exists entries : list (list F),
     SPDHG.loss s' = SPDHG.loss s ++ entries /\ Forall (fun e => logged e) entries).

Lemma extends_refl (s : SPDHG.t F Smp) : extends s s.
Proof. exists []. by rewrite app_nil_r. Qed.

Lemma extends_trans (s1 s2 s3 : SPDHG.t F Smp) :
  extends s1 s2 -> extends s2 s3 -> extends s1 s3.
Proof.
  intros (e1 & H1 & Hl1) (e2 & H2 & Hl2). exists (e1 ++ e2).
  rewrite H2, H1, app_assoc. split; [done|]. by apply Forall_app.
Qed.

Lemma next_sample_extends :
  grows_self (fun s s' : SPDHG.t F Smp => extends s s')
             (SPDHG.next_sample sampler_next).
Proof.
  intros h0 s0. unfold SPDHG.next_sample. cbn [fst snd].
  destruct (sampler_next (SPDHG._sampler s0)) as [r0 smp].
  split; [done|]. cbn [snd]. exists []. by rewrite app_nil_r.
Qed.

Lemma update_extends h (s : SPDHG.t F Smp) :
  extends s (snd (snd (SPDHG.update sampler_next (h, s)))).
Proof.
  assert (grows_self (fun s s' : SPDHG.t F Smp => extends s s')
            (SPDHG.update sampler_next)) as Hg.
  { unfold SPDHG.update, SPDHG.attribute.
    repeat first
      [ apply grows_container_ops
      | apply next_sample_extends
      | grow_rule extends_refl extends_trans ]. }
  apply Hg.
Qed.

Lemma do_call_extends c (st : SPDHG.state F Smp) :
  extends (snd st) (snd (snd (SPDHG.do_call sampler_next c st))).
Proof.
  destruct st as [h s]. destruct c; cbn [SPDHG.do_call snd].
  - apply update_extends.
  - destruct (SPDHG.update_objective (h, s)) as [r [h' s']] eqn:Hrun.
    destruct (update_objective_log _ _ _ _ _ Hrun) as [->|(p & d & ->)];
      [apply extends_refl|].
    exists [[p; d; fsub p d]]. split; [by destruct s|].
    constructor; [by eexists _, _|constructor].
Qed.

Lemma run_extends calls : forall st : SPDHG.state F Smp,
  extends (snd st) (snd (SPDHG.run sampler_next calls st)).
Proof.
  induction calls as [|c calls IH]; intros st; [apply extends_refl|].
  cbn [SPDHG.run fold_left].
  eapply extends_trans; [apply (do_call_extends c)|apply IH].
Qed.

Lemma logged_columns (log : list (list F)) :
  Forall (fun e => logged e) log ->
  exists ps ds,
    map_result (fun x => getitem x 0) log = Ok ps /\
    map_result (fun x => getitem x 1) log = Ok ds /\
    map_result (fun x => getitem x 2) log = Ok (zip_with fsub ps ds) /\
    length ps = length log /\ length ds = length log.
Proof.
  induction 1 as [|e log (p & d & ->) _ (ps & ds & Hp & Hd & Hg & Hlp & Hld)].
  - by exists [], [].
  - exists (p :: ps), (d :: ds). cbn [map_result].
    rewrite Hp, Hd, Hg. cbn. by rewrite Hlp, Hld.
Qed.

(** On an instance that starts with an empty log, after any sequence of
    [update] and [update_objective] calls: the properties [objective],
    [dual_objective] and [primal_dual_gap] return lists of the same
    length, one entry per logged value, and every gap is the primal value
    minus the dual value. *)
Theorem primal_dual_gap_is_difference (h : gmap loc (list F))
    (self : SPDHG.t F Smp) (calls : list SPDHG.call) :
  SPDHG.loss self = [] ->
  let self' := snd (SPDHG.run sampler_next calls (h, self)) in
  exists ps ds,
    SPDHG.objective self' = Ok ps /\
    SPDHG.dual_objective self' = Ok ds /\
    SPDHG.primal_dual_gap self' = Ok (zip_with fsub ps ds) /\
    length ps = length (SPDHG.loss self') /\
    length ds = length (SPDHG.loss self').
Proof.
  intros Hempty self'.
  destruct (run_extends calls (h, self)) as (entries & Hlog & Hentries).
  cbn [snd] in Hlog. fold self' in Hlog. rewrite Hempty in Hlog. cbn in Hlog.
  unfold SPDHG.objective, SPDHG.dual_objective, SPDHG.primal_dual_gap.
  rewrite Hlog. by apply logged_columns.
Qed.

End ObjectiveLogFacts.
End ObjectiveLogFacts.


Module ObjectiveValueFacts.
Section ObjectiveValueFacts.
Context {F : Type} `{Scalar F} {Smp : Type}.
Import Container StoreFacts StoreInsertFacts ContainerRuns.
Implicit Types (h : gmap loc (list F)) (s : SPDHG.t F Smp).

Lemma alloc_subseteq h (v : list F) : h ⊆ <[fresh (dom h) := v]> h.
Proof. apply insert_subseteq, fresh_not_live. Qed.

Lemma getitem_nat {A} (l : list A) (k : nat) a :
  l !! k = Some a -> getitem l (Z.of_nat k) = Ok a.
Proof.
  intros Hk. unfold getitem.
  destruct (Z.ltb_spec (Z.of_nat k) 0); [lia|].
  destruct (Z.ltb_spec (Z.of_nat k) 0); [lia|].
  by rewrite Nat2Z.id, Hk.
Qed.

(** The terms [f[i](op.direct(x))] of the primal value. *)
Lemma primal_terms_run (fs : list (Function F)) xl xv s : forall ops k h,
  h !! xl = Some xv -> (k + length ops <= length fs)%nat ->
  exists h',
    map_M (fun '(i, op) =>
             let* f_i := lift (getitem fs i) in
             let* Kx := on_store (direct op xl) in
             on_store (evaluate f_i Kx))
          (zip (map Z.of_nat (seq k (length ops))) ops) (h, s)
    = (Ok (zip_with (fun f_i K => call f_i (direct_entries K xv))
                    (drop k fs) ops), (h', s)) /\
    h ⊆ h'.
Proof.
  induction ops as [|K ops IH]; intros k h Hx Hlen.
  - exists h. split; [|done]. cbn. by destruct (drop k fs).
  - cbn [length seq map zip zip_with map_M] in *.
    destruct (lookup_lt_is_Some_2 fs k) as [f_k Hf]; [lia|].
    rewrite (drop_S _ _ _ Hf). cbn [zip_with].
    unfold bind at 1. unfold bind at 1. rewrite (getitem_nat _ _ _ Hf).
    cbn [lift]. unfold bind at 1.
    rewrite (on_store_run _ _ _ _ _ (direct_run _ _ _ _ Hx)).
    set (h1 := <[fresh (dom h) := direct_entries K xv]> h).
    assert (h1 !! fresh (dom h) = Some (direct_entries K xv)) as HK
      by apply lookup_insert_eq.
    unfold evaluate at 1. unfold on_store at 1. cbn [fst snd].
    unfold bind at 1. rewrite (load_live _ _ _ HK). cbn [ret].
    assert (h ⊆ h1) as Hsub by apply alloc_subseteq.
    destruct (IH (S k) h1) as (h' & Hrun & Hsub');
      [by eapply lookup_weaken|lia|].
    unfold bind at 1. rewrite Hrun. cbn [ret].
    exists h'. split; [done|]. by etrans.
Qed.

(** [self.f.convex_conjugate(self._y_old)] *)
Lemma block_convex_conjugate_run (fs : list (Function F)) h :
  forall ls ys,
    Forall2 (fun l v => h !! l = Some v) ls ys ->
    SPDHG.block_convex_conjugate fs ls h
    = (Ok (fold_left fadd (zip_with convex_conjugate fs ys) (lit 0%Q)), h).
Proof.
  intros ls ys Hlive. unfold SPDHG.block_convex_conjugate.
  assert (map_M (fun '(f_i, y_i) =>
                   let* v := load y_i in ret (convex_conjugate f_i v))
                (zip fs ls) h
          = (Ok (zip_with convex_conjugate fs ys), h)) as Hterms.
  { revert fs. induction Hlive as [|l v ls ys Hl _ IH]; intros [|f_i fs];
      cbn; try done.
    unfold bind at 1. unfold bind at 1. rewrite (load_live _ _ _ Hl). cbn [ret].
    unfold bind at 1. by rewrite IH. }
  unfold bind at 1. by rewrite Hterms.
Qed.

(** [self.operator.adjoint(self._y_old)] *)
Lemma block_adjoint_run (op : BlockOperator F) h : forall ls ys,
  Forall2 (fun l v => h !! l = Some v) ls ys ->
  SPDHG.block_adjoint op ls h
  = (Ok (fresh (dom h)),
     <[fresh (dom h) :=
         fold_left (zip_with fadd) (zip_with adjoint_entries (operators op) ys)
                   (replicate (domain_size op) (lit 0%Q))]> h).
Proof.
  intros ls ys Hlive. unfold SPDHG.block_adjoint.
  assert (forall ops,
            map_M (fun '(K, y_i) =>
                     let* v := load y_i in ret (adjoint_entries K v))
                  (zip ops ls) h
            = (Ok (zip_with adjoint_entries ops ys), h)) as Hterms.
  { induction Hlive as [|l v ls ys Hl _ IH]; intros [|K ops];
      cbn; try done.
    unfold bind at 1. unfold bind at 1. rewrite (load_live _ _ _ Hl). cbn [ret].
    unfold bind at 1. by rewrite IH. }
  unfold bind at 1. by rewrite Hterms.
Qed.

(** What [update_objective] computes, on a configured instance with a
    function for every block: the primal value
    [sum_i f_i(K_i x) + g(x)], the dual value
    [- sum_i f_i^*(y_i) - g^*(-sum_i K_i^T y_i)], over the blocks the block
    operator and the dual variable have; it appends [[primal, dual,
    primal - dual]] to the log, changes nothing else of the instance, and
    changes no object that was live. *)
Theorem update_objective_values h s xv ys :
  h !! SPDHG.x s = Some xv ->
  Forall2 (fun l v => h !! l = Some v) (SPDHG._y_old s) ys ->
  (length (operators (SPDHG.operator s)) <= length (SPDHG.f s))%nat ->
  let ops := operators (SPDHG.operator s) in
  let primal :=
    fadd (fold_left fadd
            (zip_with (fun f_i K => call f_i (direct_entries K xv))
                      (SPDHG.f s) ops) (lit 0%Q))
         (call (SPDHG.g s) xv) in
  let back := fold_left (zip_with fadd) (zip_with adjoint_entries ops ys)
                (replicate (domain_size (SPDHG.operator s)) (lit 0%Q)) in
  let dual :=
    fsub (fneg (fold_left fadd (zip_with convex_conjugate (SPDHG.f s) ys)
                          (lit 0%Q)))
         (convex_conjugate (SPDHG.g s)
            (map (fun e => fmul e (lit (-1)%Q)) back)) in
  exists h',
    SPDHG.update_objective (h, s)
    = (Ok tt, (h', SPDHG.set_loss
                     (SPDHG.loss s ++ [[primal; dual; fsub primal dual]]) s)) /\
    h ⊆ h'.
Proof.
  intros Hx Hys Hlen ops primal back dual.
  unfold SPDHG.update_objective. unfold bind at 1. cbn [get_self fst snd].
  unfold enumerate, range, len. rewrite Nat2Z.id.
  destruct (primal_terms_run (SPDHG.f s) (SPDHG.x s) xv s ops 0 h Hx)
    as (h1 & Hterms & Hsub1); [exact Hlen|].
  unfold bind at 1. fold ops. rewrite Hterms. rewrite drop_0.
  assert (h1 !! SPDHG.x s = Some xv) as Hx1 by (by eapply lookup_weaken).
  assert (Forall2 (fun l v => h1 !! l = Some v) (SPDHG._y_old s) ys) as Hys1.
  { eapply Forall2_impl; [exact Hys|]. intros l v Hl. cbv beta in Hl.
    by eapply lookup_weaken. }
  unfold bind at 1.
  rewrite (on_store_run _ _ _ _ _ (RunFacts.evaluate_run _ _ _ _ Hx1)).
  unfold bind at 1.
  rewrite (on_store_run _ _ _ _ _ (block_convex_conjugate_run _ _ _ _ Hys1)).
  unfold bind at 1.
  rewrite (on_store_run _ _ _ _ _ (block_adjoint_run _ _ _ _ Hys1)).
  fold ops. fold back.
  set (tmp := fresh (dom h1)). set (h2 := <[tmp := back]> h1).
  assert (h2 !! tmp = Some back) as Htmp by apply lookup_insert_eq.
  unfold bind at 1.
  rewrite (on_store_run _ _ _ _ _ (load_live _ _ _ Htmp)).
  unfold bind at 1.
  rewrite (on_store_run _ _ _ _ _ (store_live _ _ _ _ Htmp)).
  unfold bind at 1.
  erewrite on_store_run; [|apply load_live; apply lookup_insert_eq].
  cbn [set_self fst snd].
  eexists. split; [reflexivity|].
  subst h2. rewrite insert_insert_eq.
  etrans; [exact Hsub1|]. apply alloc_subseteq.
Qed.

End ObjectiveValueFacts.
End ObjectiveValueFacts.


Module ScalarStepFacts.
Section ScalarStepFacts.
Context {F : Type} `{Scalar F}.
Import Container SPDHG.

Lemma positive_Numbers (sigma : list (value F)) :
  forallb positive_Number sigma = true ->
  exists ss, sigma = map Number ss.
Proof.
  induction sigma as [|[v|w] sigma IH]; cbn.
  - by exists [].
  - intros [_ Hrest]%andb_true_iff. destruct (IH Hrest) as [ss ->].
    by exists (v :: ss).
  - done.
Qed.

Lemma sigmas_from_tau_Numbers gamma rho t (l : list (F * F)) s :
  map_result (fun '(ni, pi) => sigma_from_tau gamma rho (Number t) ni pi) l
  = Ok s ->
  exists ss, s = map Number ss.
Proof.
  revert s. induction l as [|[ni pi] l IH]; intros s; cbn.
  - intros [= <-]. by exists [].
  - destruct (truediv _ _) as [v|e]; [|done].
    destruct (map_result _ l) as [s'|e]; [|done].
    intros [= <-]. destruct (IH s' eq_refl) as [ss ->]. by exists (v :: ss).
Qed.

(** When [set_step_sizes] returns, [tau] and every entry of [sigma] are
    numbers: an array for [tau] or for an entry of [sigma] is answered with
    ValueError, so the step sizes of an instance that was set up are
    always scalars; the norms, the probability weights and the number of
    blocks are not touched. *)
Theorem set_step_sizes_scalars (self self' : step_sizes F) sigma tau :
  set_step_sizes sigma tau self = (Ok tt, self') ->
  exists t ss,
    _tau self' = Some (Number t) /\ _sigma self' = Some (map Number ss) /\
    _norms self' = _norms self /\ _prob_weights self' = _prob_weights self /\
    _ndual_subsets self' = _ndual_subsets self.
Proof.
  unfold set_step_sizes, bind, get, modify, lift, attribute, ret, raise.
  cbn [fst snd]. destruct self as [n norms pw sg ta].
  cbn [_norms _prob_weights _ndual_subsets].
  destruct sigma as [sigma|].
  - destruct (len sigma =? n); [|done].
    destruct (forallb positive_Number sigma) eqn:Hpos; [|done].
    destruct (positive_Numbers _ Hpos) as [ss ->]. cbn.
    destruct tau as [[t|w]|]; cbn; intros Heq;
      repeat (case_match; simplify_eq; try done); simplify_eq;
      eexists _, _; split_and!; reflexivity.
  - destruct tau as [[t|w]|]; cbn.
    + destruct (map_result _ (zip norms pw)) as [s|e] eqn:Hs; [|done].
      destruct (sigmas_from_tau_Numbers _ _ _ _ _ Hs) as [ss ->]. cbn.
      intros Heq. repeat (case_match; simplify_eq; try done). simplify_eq.
      eexists _, _; split_and!; reflexivity.
    + intros Heq. repeat (case_match; simplify_eq; try done).
    + destruct (map_result _ norms) as [s|e]; [|done]. cbn.
      intros Heq. repeat (case_match; simplify_eq; try done). simplify_eq.
      eexists _, _; split_and!; reflexivity.
Qed.

End ScalarStepFacts.
End ScalarStepFacts.


(** ** Concrete runs of the samplers *)

Module FactoryRuns.
Import Sampler.

Local Abbreviation toy_next := (next (F:=Q) ToyGen.permutation ToyGen.choice).
Local Abbreviation toy_get_samples :=
  (get_samples (F:=Q) ToyGen.init ToyGen.permutation ToyGen.choice).
Local Abbreviation toy_draws n := (repeat_call n toy_next).

(** The example of the docstring of [customOrder]. *)
Lemma customOrder_draws_witness :
  exists (self : @t Q) h',
    customOrder ToyGen.init 0 [1; 4; 6; 7; 8; 9; 11] (∅ : gmap loc ToyGen.G)
    = (Ok self, h') /\
    fst (toy_draws (Z.to_nat 11) (h', self))
    = Ok [1; 4; 6; 7; 8; 9; 11; 1; 4; 6; 7] /\
    fst (snd (toy_draws (Z.to_nat 11) (h', self))) = h' /\
    fst (toy_get_samples 11 (h', self)) = Ok [1; 4; 6; 7; 8; 9; 11; 1; 4; 6; 7].
Proof.
  eexists _, _. split; [vm_compute; reflexivity|].
  apply (OrderSamplerFacts.customOrder_draws ToyGen.init ToyGen.permutation
           ToyGen.choice 0 [1; 4; 6; 7; 8; 9; 11] ∅ _ _ 11);
    [vm_compute; reflexivity|done].
Defined.

(** The example of the docstring of [sequential]. *)
Lemma sequential_draws_witness :
  exists (self : @t Q) h',
    sequential ToyGen.init 0 10 (∅ : gmap loc ToyGen.G) = (Ok self, h') /\
    1 <= 10 /\
    fst (toy_draws (Z.to_nat 11) (h', self))
    = Ok [0; 1; 2; 3; 4; 5; 6; 7; 8; 9; 0] /\
    fst (snd (toy_draws (Z.to_nat 11) (h', self))) = h' /\
    fst (toy_get_samples 11 (h', self)) = Ok [0; 1; 2; 3; 4; 5; 6; 7; 8; 9; 0].
Proof.
  eexists _, _. split; [vm_compute; reflexivity|]. split; [lia|].
  apply (OrderSamplerFacts.sequential_draws ToyGen.init ToyGen.permutation
           ToyGen.choice 0 10 ∅ _ _ 11); [vm_compute; reflexivity|lia].
Defined.

Lemma randomWithoutReplacement_unshuffled_draws_witness :
  exists (self : @t Q) h',
    randomWithoutReplacement ToyGen.init 0 4 (Some 7) false
      (∅ : gmap loc ToyGen.G) = (Ok self, h') /\
    1 <= 4 /\
    fst (toy_draws (Z.to_nat 6) (h', self)) = Ok [0; 1; 2; 3; 0; 1] /\
    fst (snd (toy_draws (Z.to_nat 6) (h', self))) = h' /\
    fst (toy_get_samples 6 (h', self)) = Ok [0; 1; 2; 3; 0; 1].
Proof.
  eexists _, _. split; [vm_compute; reflexivity|]. split; [lia|].
  apply (OrderSamplerFacts.randomWithoutReplacement_unshuffled_draws
           ToyGen.init ToyGen.permutation ToyGen.choice 0 4 (Some 7) ∅ _ _ 6);
    [vm_compute; reflexivity|lia].
Defined.

Lemma staggered_offset_check_witness :
  0 <= 0 < 2 ^ 32 /\
  staggered (F:=Q) ToyGen.init 0 4 4 (∅ : gmap loc ToyGen.G)
  = (Raise (Exn ValueError
              "The offset should be less than the number of subsets"), ∅) /\
  exists self : @t Q,
    staggered ToyGen.init 0 21 4 (∅ : gmap loc ToyGen.G)
    = (Ok self, <[fresh (dom (∅ : gmap loc ToyGen.G)) := ToyGen.init 0]> ∅).
Proof.
  assert (0 <= 0 < 2 ^ 32) as Hnow by lia.
  split; [exact Hnow|]. split.
  - apply (StaggeredFacts.staggered_offset_check (F:=Q) ToyGen.init 0 4 4 ∅ Hnow).
    lia.
  - apply (StaggeredFacts.staggered_offset_check (F:=Q) ToyGen.init 0 21 4 ∅ Hnow).
    lia.
Defined.

(** The example of the docstring of [staggered]. *)
Lemma staggered_draws_witness :
  exists (self : @t Q) h',
    staggered ToyGen.init 0 21 4 (∅ : gmap loc ToyGen.G) = (Ok self, h') /\
    1 <= 4 /\
    exists o,
      order self = Some o /\ o ≡ₚ range 21 /\
      forall m : Z,
        fst (toy_draws (Z.to_nat m) (h', self))
        = Ok (map (fun k => o !!! Z.to_nat (k mod 21)) (range m)) /\
        fst (snd (toy_draws (Z.to_nat m) (h', self))) = h' /\
        fst (toy_get_samples m (h', self))
        = Ok (map (fun k => o !!! Z.to_nat (k mod 21)) (range m)).
Proof.
  eexists _, _. split; [vm_compute; reflexivity|]. split; [lia|].
  apply (StaggeredFacts.staggered_draws ToyGen.init ToyGen.permutation
           ToyGen.choice 0 21 4 ∅); [vm_compute; reflexivity|lia].
Defined.

Lemma staggered_nonpositive_offset_witness :
  (0 <= 0 < 2 ^ 32 /\ 0 <= 0 /\ 1 <= 5) /\
  exists self : @t Q,
    staggered ToyGen.init 0 5 0 (∅ : gmap loc ToyGen.G)
    = (Ok self, <[fresh (dom (∅ : gmap loc ToyGen.G)) := ToyGen.init 0]> ∅) /\
    order self = Some [] /\
    forall c,
      fst (toy_next (<[fresh (dom (∅ : gmap loc ToyGen.G)) := ToyGen.init 0]> ∅,
                     set_last_subset c self)) = Raise IndexError.
Proof.
  split; [lia|].
  apply (StaggeredFacts.staggered_nonpositive_offset ToyGen.init
           ToyGen.permutation ToyGen.choice 0 5 0 ∅); lia.
Defined.

Lemma factorise_prime_factorisation_witness :
  1 <= 12 /\
  HermanMeyer.factorise 12 = [2; 2; 3] /\
  prod (HermanMeyer.factorise 12) = 12 /\
  Forall prime (HermanMeyer.factorise 12) /\
  (HermanMeyer.factorise 12 = [] <-> 12 = 1).
Proof.
  split; [lia|]. split; [reflexivity|].
  apply FactoriseFacts.factorise_prime_factorisation. lia.
Defined.

Lemma hermanMeyer_rejects_below_2_witness :
  0 <= 0 < 2 ^ 32 /\
  (exists msg, hermanMeyer (F:=Q) ToyGen.init 0 1 (∅ : gmap loc ToyGen.G)
               = (Raise (Exn ValueError msg), ∅)) /\
  exists self : @t Q,
    hermanMeyer ToyGen.init 0 2 (∅ : gmap loc ToyGen.G)
    = (Ok self, <[fresh (dom (∅ : gmap loc ToyGen.G)) := ToyGen.init 0]> ∅).
Proof.
  assert (0 <= 0 < 2 ^ 32) as Hnow by lia.
  split; [exact Hnow|]. split.
  - apply (FactoryFacts.hermanMeyer_rejects_below_2 (F:=Q) ToyGen.init 0 1 ∅ Hnow).
    lia.
  - apply (FactoryFacts.hermanMeyer_rejects_below_2 (F:=Q) ToyGen.init 0 2 ∅ Hnow).
    lia.
Defined.

Lemma hermanMeyer_draws_witness :
  exists (self : @t Q) h',
    hermanMeyer ToyGen.init 0 12 (∅ : gmap loc ToyGen.G) = (Ok self, h') /\
    exists o,
      order self = Some o /\ len o = 12 /\
      forall m : Z,
        fst (toy_draws (Z.to_nat m) (h', self))
        = Ok (map (fun k => o !!! Z.to_nat (k mod 12)) (range m)) /\
        fst (snd (toy_draws (Z.to_nat m) (h', self))) = h' /\
        fst (toy_get_samples m (h', self))
        = Ok (map (fun k => o !!! Z.to_nat (k mod 12)) (range m)).
Proof.
  eexists _, _. split; [vm_compute; reflexivity|].
  apply (FactoryFacts.hermanMeyer_draws ToyGen.init ToyGen.permutation
           ToyGen.choice 0 12 ∅). vm_compute. reflexivity.
Defined.

Lemma randomWithReplacement_uniform_witness :
  randomWithReplacement (F:=Q) ToyGen.init 0 0 None (Some 3)
    (∅ : gmap loc ToyGen.G) = (Raise ZeroDivisionError, ∅) /\
  exists self : @t Q,
    randomWithReplacement ToyGen.init 0 4 None (Some 3) (∅ : gmap loc ToyGen.G)
    = (Ok self, <[fresh (dom (∅ : gmap loc ToyGen.G)) := ToyGen.init 3]> ∅) /\
    prob self = Some (replicate (Z.to_nat 4) (lit (1 / inject_Z 4)%Q)) /\
    order self = None /\
    fst (toy_next (<[fresh (dom (∅ : gmap loc ToyGen.G)) := ToyGen.init 3]> ∅,
                   self))
    = fst (ToyGen.choice (ToyGen.init 3) 4
             (replicate (Z.to_nat 4) (lit (1 / inject_Z 4)%Q))).
Proof.
  destruct (FactoryFacts.randomWithReplacement_uniform (F:=Q) ToyGen.init
              ToyGen.permutation ToyGen.choice 0 0 (Some 3) ∅) as [Hzero _].
  destruct (FactoryFacts.randomWithReplacement_uniform (F:=Q) ToyGen.init
              ToyGen.permutation ToyGen.choice 0 4 (Some 3) ∅) as [_ Hfour].
  split; [by apply Hzero|]. apply Hfour; lia.
Defined.

Lemma randomWithReplacement_reproducible_witness :
  exists (self1 self2 : @t Q) h1 h2,
    randomWithReplacement ToyGen.init 0 4 None (Some 3) (∅ : gmap loc ToyGen.G)
    = (Ok self1, h1) /\
    randomWithReplacement ToyGen.init 99 4 None (Some 3)
      ({[5%positive := ToyGen.init 1]} : gmap loc ToyGen.G) = (Ok self2, h2) /\
    fst (toy_draws 6 (h1, self1)) = fst (toy_draws 6 (h2, self2)).
Proof.
  eexists _, _, _, _. split; [vm_compute; reflexivity|].
  split; [vm_compute; reflexivity|].
  apply (FactoryFacts.randomWithReplacement_reproducible ToyGen.init
           ToyGen.permutation ToyGen.choice 0 99 4 None 3 ∅
           {[5%positive := ToyGen.init 1]}); vm_compute; reflexivity.
Defined.

Lemma next_in_range_witness :
  exists (self : @t Q) h st,
    randomWithoutReplacement ToyGen.init 0 5 (Some 7) true
      (∅ : gmap loc ToyGen.G) = (Ok self, h) /\
    toy_next (h, self) = (Ok 2, st) /\
    exists i st', toy_next st = (Ok i, st') /\ 0 <= i < 5.
Proof.
  eexists _, _, _. split; [vm_compute; reflexivity|].
  split; [vm_compute; reflexivity|].
  eapply (SamplerRangeFacts.next_in_range ToyGen.init ToyGen.permutation
            ToyGen.choice SamplerRuns.toy_permutation_perm 0 5 1 (Some 7) true ∅).
  - right. right. vm_compute. reflexivity.
  - lia.
  - eapply reach_next; [apply reach_start|vm_compute; reflexivity].
Defined.

Lemma get_samples_prefix_witness :
  exists (self : @t Q) h st,
    randomWithoutReplacement ToyGen.init 0 5 (Some 7) true
      (∅ : gmap loc ToyGen.G) = (Ok self, h) /\
    toy_next (h, self) = (Ok 2, st) /\
    exists out,
      fst (toy_get_samples 7 st) = Ok out /\ len out = 7 /\
      fst (toy_get_samples 3 st) = Ok (take (Z.to_nat 3) out).
Proof.
  eexists _, _, _. split; [vm_compute; reflexivity|].
  split; [vm_compute; reflexivity|].
  eapply (SamplerRangeFacts.get_samples_prefix ToyGen.init ToyGen.permutation
            ToyGen.choice SamplerRuns.toy_permutation_perm).
  - by eapply (built_randomWithoutReplacement ToyGen.init 0 5 (Some 7) true ∅).
  - cbn. split; [lia|]. by eexists.
  - eapply reach_next; [apply reach_start|vm_compute; reflexivity].
  - lia.
Defined.

End FactoryRuns.


(** ** Concrete runs of the algorithms, over rational scalars *)

Module AlgorithmRuns.
Import Container.

Local Abbreviation ista_built :=
  (ISTA.__init__ Toy.initial (Some Toy.plain) None (Some 1%Q) None None
                 Toy.store0).
Local Abbreviation fista_built :=
  (FISTA.__init__ Toy.initial (Some Toy.plain) None (Some 1%Q) None None
                  Toy.store0).

Lemma ista_iteration_witness :
  exists (self : ISTA.t Q) h,
    ista_built = (Ok self, h) /\
    exists h',
      ISTA.update (h, self) = (Ok tt, (h', self)) /\
      h' !! ISTA.x self = Some [0%Q] /\
      ISTA.get_output (snd (ISTA._update_previous_solution (h', self)))
      = (Ok (ISTA.x self), snd (ISTA._update_previous_solution (h', self))).
Proof.
  eexists _, _. split; [vm_compute; reflexivity|].
  match goal with
  | |- exists h', ISTA.update (?h, ?s) = _ /\ _ =>
      destruct (IterationFacts.ista_iteration h s [1%Q] [1%Q] [1%Q])
        as (Hup & Hswap & Hout & _)
  end; try (vm_compute; done).
  eexists. split; [exact Hup|]. split; [vm_compute; reflexivity|].
  rewrite Hswap. exact Hout.
Defined.

Lemma fista_update_witness :
  exists (self : FISTA.t Q) h,
    fista_built = (Ok self, h) /\
    exists h' self',
      FISTA.update (h, self) = (Ok tt, (h', self')) /\
      FISTA.t_old self' = Some 1%Q /\
      h' !! ISTA.x (FISTA.base self) = Some [0%Q] /\
      h' !! ISTA.x_old (FISTA.base self) = Some [1%Q].
Proof.
  eexists _, _. split; [vm_compute; reflexivity|].
  match goal with
  | |- exists h' self', FISTA.update (?h, ?s) = _ /\ _ =>
      destruct (IterationFacts.fista_update h s [1%Q] [1%Q] [1%Q] [1%Q])
        as (h' & Hup & Hx & _ & Hxo & _)
  end; try (vm_compute; done).
  { apply (bool_decide_unpack _). vm_compute. exact I. }
  eexists _, _. split; [exact Hup|]. split; [reflexivity|].
  split; [exact Hx|exact Hxo].
Defined.

Lemma ista_run_safe_witness :
  Toy.store0 !! Toy.initial = Some [1%Q] /\
  exists (self : ISTA.t Q) h,
    ista_built = (Ok self, h) /\
    fst (ISTA.do_call ISTA.Update
           (ISTA.run [ISTA.Update; ISTA.UpdatePreviousSolution;
                      ISTA.UpdateObjective] (h, self))) = Ok tt.
Proof.
  split; [reflexivity|]. eexists _, _. split; [vm_compute; reflexivity|].
  eapply (RunFacts.ista_run_safe ISTA.ISTA_class [] Toy.initial
            (Some Toy.plain) None (Some 1%Q) None None Toy.store0 [1%Q]);
    [reflexivity|vm_compute; reflexivity].
Defined.

Lemma fista_run_safe_witness :
  Toy.store0 !! Toy.initial = Some [1%Q] /\
  exists (self : FISTA.t Q) h,
    fista_built = (Ok self, h) /\
    fst (FISTA.do_call ISTA.Update
           (FISTA.run [ISTA.Update; ISTA.UpdatePreviousSolution;
                       ISTA.UpdateObjective] (h, self))) = Ok tt.
Proof.
  split; [reflexivity|]. eexists _, _. split; [vm_compute; reflexivity|].
  eapply (RunFacts.fista_run_safe Toy.initial (Some Toy.plain) None (Some 1%Q)
            None None Toy.store0 [1%Q]);
    [reflexivity|vm_compute; reflexivity].
Defined.

Lemma set_up_step_size_rule_witness :
  Toy.store0 !! Toy.initial = Some [1%Q] /\
  match fst (ISTA.set_up ISTA.ISTA_class [] Toy.initial (Some Toy.plain) None
               None None None Toy.store0) with
  | Ok self => Ok (ISTA.step_size_rule self)
  | Raise e => Raise e
  end = Ok (ISTA.ConstantStepSize (fdiv (fmul (lit 0.99%Q) (lit 2%Q)) 1%Q)) /\
  match fst (ISTA.set_up ISTA.FISTA_class [] Toy.initial (Some Toy.plain) None
               None None None Toy.store0) with
  | Ok self => Ok (ISTA.step_size_rule self)
  | Raise e => Raise e
  end = Ok (ISTA.ConstantStepSize (fdiv (lit 1%Q) 1%Q)).
Proof.
  split; [reflexivity|]. split.
  - apply (StepSizeRuleFacts.set_up_step_size_rule ISTA.ISTA_class []
             Toy.initial (Some Toy.plain) None None Toy.store0 [1%Q]);
      reflexivity.
  - apply (StepSizeRuleFacts.set_up_step_size_rule ISTA.FISTA_class []
             Toy.initial (Some Toy.plain) None None Toy.store0 [1%Q]);
      reflexivity.
Defined.

End AlgorithmRuns.


Module SPDHGSetUpRuns.
Import Container.

Lemma set_step_sizes_rejects_sigma_witness :
  SPDHG.set_step_sizes (Some [Number 1%Q]) None Toy.two_block_steps
  = (Raise (Exn ValueError
       "Please pass a list of floats to sigma with the same number of entries as number of operators"),
     Toy.two_block_steps) /\
  SPDHG.set_step_sizes (Some [Number 1%Q; ArrayLike [1%Q]]) (Some (Number 1%Q))
    Toy.two_block_steps
  = (Raise (Exn ValueError "Sigma expected to be a positive number."),
     Toy.two_block_steps).
Proof.
  split.
  - apply (StepSizeCases.set_step_sizes_rejects_sigma Toy.two_block_steps).
    by vm_compute.
  - apply (StepSizeCases.set_step_sizes_rejects_sigma Toy.two_block_steps);
      [reflexivity|]. apply Exists_cons_tl, Exists_cons_hd. reflexivity.
Defined.

Lemma set_step_sizes_both_given_witness :
  SPDHG.set_step_sizes (Some [Number 1%Q; Number 2%Q]) (Some (Number 3%Q))
    Toy.two_block_steps
  = (Ok tt, SPDHG.mk_steps 2 [1%Q; 2%Q] [(1 # 2)%Q; (1 # 2)%Q]
              (Some [Number 1%Q; Number 2%Q]) (Some (Number 3%Q))) /\
  SPDHG.set_step_sizes (Some [Number 1%Q; Number 2%Q]) (Some (Number (-3)%Q))
    Toy.two_block_steps
  = (Raise (Exn ValueError
              "The step-sizes of SPDHG must be positive, passed tau = -3"),
     SPDHG.mk_steps 2 [1%Q; 2%Q] [(1 # 2)%Q; (1 # 2)%Q]
       (Some [Number 1%Q; Number 2%Q]) None).
Proof.
  split.
  - rewrite (StepSizeCases.set_step_sizes_both_given Toy.two_block_steps
               [Number 1%Q; Number 2%Q] (Number 3%Q));
      [reflexivity|reflexivity|by repeat constructor].
  - rewrite (StepSizeCases.set_step_sizes_both_given Toy.two_block_steps
               [Number 1%Q; Number 2%Q] (Number (-3)%Q));
      [reflexivity|reflexivity|by repeat constructor].
Defined.

Lemma set_step_sizes_tau_from_sigma_witness :
  exists t,
    SPDHG.set_step_sizes (Some [Number 1%Q; Number 1%Q]) None
      Toy.two_block_steps
    = (Ok tt, SPDHG.mk_steps 2 [1%Q; 2%Q] [(1 # 2)%Q; (1 # 2)%Q]
                (Some [Number 1%Q; Number 1%Q]) (Some (Number t))) /\
    Qeq t (99 # 800).
Proof.
  eexists. split.
  - eapply (StepSizeCases.set_step_sizes_tau_from_sigma (F:=Q)
              Toy.two_block_steps [1%Q; 1%Q]).
    + reflexivity.
    + by repeat constructor.
    + by repeat constructor.
    + vm_compute. reflexivity.
  - vm_compute. reflexivity.
Defined.

Lemma set_step_sizes_from_ratio_defaults_witness :
  SPDHG.set_step_sizes_from_ratio (Number 1%Q) (Number 0.99%Q)
    Toy.two_block_steps
  = SPDHG.set_step_sizes None None Toy.two_block_steps /\
  SPDHG.set_step_sizes_from_ratio (Number 0%Q) (Number 0.99%Q)
    Toy.two_block_steps
  = (Raise (Exn ValueError
       "The step-sizes of SPDHG are positive, gamma should also be positive"),
     Toy.two_block_steps).
Proof.
  destruct (StepSizeCases.set_step_sizes_from_ratio_defaults (F:=Q)
              Toy.two_block_steps) as (_ & Hgamma & _ & _ & Hdefault).
  split; [by apply Hdefault|by apply Hgamma].
Defined.

Lemma set_step_sizes_scalars_witness :
  exists self',
    SPDHG.set_step_sizes None None Toy.two_block_steps = (Ok tt, self') /\
    exists t ss,
      SPDHG._tau self' = Some (Number t) /\
      SPDHG._sigma self' = Some (map Number ss) /\
      SPDHG._norms self' = SPDHG._norms Toy.two_block_steps /\
      SPDHG._prob_weights self' = SPDHG._prob_weights Toy.two_block_steps /\
      SPDHG._ndual_subsets self' = SPDHG._ndual_subsets Toy.two_block_steps.
Proof.
  eexists. split; [vm_compute; reflexivity|].
  apply (ScalarStepFacts.set_step_sizes_scalars (F:=Q) Toy.two_block_steps _
           None None).
  vm_compute. reflexivity.
Defined.

Lemma set_up_argument_errors_witness :
  let op := {| operators := [Toy.scaling 1]; domain_size := 1 |} in
  Toy.set_up [] [Toy.plain] Toy.plain None None None (Some Toy.initial) None
    None None None [] Toy.store0
  = (Raise (Exn TypeError "operator should be a BlockOperator"), Toy.store0) /\
  Toy.set_up [] [Toy.plain] Toy.plain (Some op) None None
    (Some Toy.initial) None None None (Some [1%Q]) [] Toy.store0
  = (Raise NameError, Toy.store0) /\
  Toy.set_up [] [Toy.plain] Toy.plain (Some op) None None
    (Some Toy.initial) None None (Some [3%Q]) None [] Toy.store0
  = (Raise NameError, Toy.store0) /\
  map norm (operators
              (snd (SPDHG._deprecated_kwargs Toy.set_norms None (Some [3%Q])
                      None [] op)))
  = [3%Q] /\
  Toy.set_up [] [Toy.plain] Toy.plain (Some op) None None
    (Some Toy.initial) None None (Some [3%Q; 4%Q]) None [] Toy.store0
  = (Raise ValueError, Toy.store0) /\
  Toy.set_up [] [Toy.plain] Toy.plain (Some op) None None
    (Some Toy.initial) None None None None [("gamma", "2.0")%string] Toy.store0
  = (Raise (Exn ValueError
              "Additional keyword arguments passed but not used: {'gamma': 2.0}"),
     Toy.store0).
Proof.
  intros op.
  destruct (SetUpFacts.set_up_argument_errors Toy.getattr_prob_weights
              Toy.random_with_replacement Toy.set_norms [] [Toy.plain]
              Toy.plain None None (Some Toy.initial) Toy.store0)
    as (Hop & _ & Hkw & _).
  split; [apply Hop|].
  destruct (Hkw op None None) as (_ & Hprob & Hnorms & Hother); [by intros []|].
  split; [by apply Hprob|].
  split; [apply (proj1 (Hnorms [3%Q] []))|].
  split; [rewrite (proj2 (Hnorms [3%Q] [])); reflexivity|].
  split; [apply (proj1 (Hnorms [3%Q; 4%Q] []))|].
  apply (Hother ("gamma", "2.0")%string []).
Defined.

Lemma set_up_configures_witness :
  exists self h1,
    Toy.one_block = (Ok self, h1) /\
    SPDHG.configured_in h1 self /\
    Forall (fun l => Toy.store0 !! l = None) (SPDHG.buffers self) /\
    h1 !! Toy.initial = Some [1%Q] /\
    h1 !! SPDHG.x self = Some [1%Q] /\
    h1 !! SPDHG._z self = Some [0%Q] /\
    SPDHG._theta self = 1%Q.
Proof.
  eexists _, _. split; [vm_compute; reflexivity|].
  match goal with
  | |- SPDHG.configured_in ?h1 ?self /\ _ =>
      destruct (SetUpFacts.set_up_configures Toy.getattr_prob_weights
                  Toy.random_with_replacement Toy.set_norms [] [Toy.plain] Toy.plain
                  {| operators := [Toy.scaling 1]; domain_size := 1 |}
                  (Some [Number 2%Q]) (Some (Number 1%Q)) (Some Toy.initial)
                  (Some (Toy.built (Sampler.sequential ToyGen.init 0 1 ∅)))
                  None None None [] Toy.store0 self h1)
        as (Hc & Hnew & Hkeep & Hx & _ & Hz & _ & _ & _ & Hth & _)
  end; [vm_compute; reflexivity|].
  split_and!; [exact Hc|exact Hnew|by apply Hkeep|exact Hx|exact Hz|exact Hth].
Defined.

End SPDHGSetUpRuns.


Module SPDHGIterationRuns.
Import Container.

Lemma run_keeps_configuration_witness :
  exists self h,
    Toy.one_block = (Ok self, h) /\
    SPDHG.configured_in h self /\
    let st := SPDHG.run Toy.next
                [SPDHG.Update; SPDHG.UpdateObjective; SPDHG.Update] (h, self) in
    SPDHG.configured_in (fst st) (snd st) /\
    SPDHG.same_configuration self (snd st) /\
    forall l, is_Some (h !! l) -> is_Some (fst st !! l).
Proof.
  eexists _, _. split; [vm_compute; reflexivity|].
  match goal with
  | |- SPDHG.configured_in ?h ?s /\ _ =>
      assert (SPDHG.configured_in h s) as Hc
  end.
  { split; [|by repeat constructor].
    apply (bool_decide_unpack _). vm_compute. exact I. }
  split; [exact Hc|].
  by apply (SPDHGLiveness.run_keeps_configuration Toy.next).
Defined.

Lemma update_back_projection_witness :
  exists self h,
    Toy.one_block = (Ok self, h) /\
    exists h',
      Toy.update (h, self)
      = (Ok tt, (h', SPDHG.set_sampler (snd (Toy.next (SPDHG._sampler self)))
                       self)) /\
      h' !! SPDHG._x_tmp self = Some [2%Q] /\
      h' !! SPDHG._z self = Some [2%Q] /\
      h' !! SPDHG._zbar self = Some [4%Q] /\
      h' !! Toy.initial = Some [1%Q].
Proof.
  eexists _, _. split; [vm_compute; reflexivity|].
  unfold Toy.update.
  match goal with
  | |- exists h', SPDHG.update _ (?h, ?s) = _ /\ _ =>
      destruct (BackProjectionFacts.update_back_projection Toy.next h s
                  (Number 1%Q) [Number 2%Q] 0
                  (snd (Toy.next (SPDHG._sampler s)))
                  (Toy.scaling 1) (Number 2%Q) Toy.plain 1%Q
                  4%positive [1%Q] [0%Q] [0%Q] [0%Q])
        as (h' & Hup & Hxt & Hz & Hzb & Hkeep)
  end; try (vm_compute; reflexivity).
  { split; [|by repeat constructor].
    apply (bool_decide_unpack _). vm_compute. exact I. }
  exists h'. split; [exact Hup|].
  split; [rewrite Hxt; vm_compute; reflexivity|].
  split; [rewrite Hz; vm_compute; reflexivity|].
  split; [rewrite Hzb; vm_compute; reflexivity|].
  apply Hkeep; [reflexivity|].
  apply (bool_decide_unpack _). vm_compute. exact I.
Defined.

Lemma primal_dual_gap_is_difference_witness :
  exists self h,
    Toy.one_block = (Ok self, h) /\ SPDHG.loss self = [] /\
    let self' :=
      snd (SPDHG.run Toy.next
             [SPDHG.UpdateObjective; SPDHG.Update; SPDHG.UpdateObjective]
             (h, self)) in
    exists ps ds,
      SPDHG.objective self' = Ok ps /\
      SPDHG.dual_objective self' = Ok ds /\
      SPDHG.primal_dual_gap self' = Ok (zip_with fsub ps ds) /\
      length ps = length (SPDHG.loss self') /\
      length ds = length (SPDHG.loss self').
Proof.
  eexists _, _. split; [vm_compute; reflexivity|]. split; [reflexivity|].
  by apply (ObjectiveLogFacts.primal_dual_gap_is_difference Toy.next).
Defined.

Lemma update_objective_values_witness :
  exists self h,
    Toy.one_block = (Ok self, h) /\
    exists h' primal dual,
      SPDHG.update_objective (h, self)
      = (Ok tt, (h', SPDHG.set_loss
                       (SPDHG.loss self ++ [[primal; dual; fsub primal dual]])
                       self)) /\
      Qeq primal 0 /\ Qeq dual 0 /\ h ⊆ h'.
Proof.
  eexists _, _. split; [vm_compute; reflexivity|].
  match goal with
  | |- exists h' primal dual, SPDHG.update_objective (?h, ?s) = _ /\ _ =>
      destruct (ObjectiveValueFacts.update_objective_values h s [1%Q] [[0%Q]])
        as (h' & Hrun & Hsub)
  end.
  - vm_compute. reflexivity.
  - constructor; [vm_compute; reflexivity|constructor].
  - cbn. lia.
  - eexists _, _, _. split; [exact Hrun|].
    split; [vm_compute; reflexivity|]. split; [vm_compute; reflexivity|].
    exact Hsub.
Defined.

End SPDHGIterationRuns.

